(** * SortAlgorithmTester: the benchmark engine of phdTester, embedded in Rocq

    The development follows [SortAlgorithmTester.cpp]: the four sequence
    generators, the sort strategies behind [ISortAlgorithm], the validator
    and the timing loop of [main]. The source keeps an earlier state of the
    program next to the current one, with two strategies only; the current
    one, with all four, is the one embedded.

    Conventions of the embedding.
    - An [int] is a [Z]; arithmetic on the values of the configuration and of
      the sequences that can leave the 32-bit range goes through [wrap] (two's
      complement, what the compiled program computes). Where the exit of a
      loop hangs on a counter of the loop that overflows (the counter of
      [BubbleSort::sort] on the empty sequence, the decimal weight of
      [RadixSort::sort]), the overflow is an operation without defined
      behaviour. Lengths of sequences are taken to fit an [int], so the other
      loop counters and the occurrence counters never overflow.
    - A computation ends in an [outcome]: a value, a thrown
      [std::domain_error], an operation without defined behaviour (an access
      outside an array, a division by zero, a dereferenced end iterator, a
      read of an indeterminate cell, an overflowing loop counter), or
      exhausted fuel. Fuel bounds the rounds of the loop of [RadixSort::sort]
      over the decimal weights, which ends within ten rounds, and the depth
      of the recursion of [MergeSort::_merge], which need not end.
    - What the program takes from its platform (the signedness of [char], the C
      library's [rand], the clock arithmetic of [std::chrono]) is gathered
      in the class [Platform]. *)

From Stdlib Require Import ZArith String Ascii List Lia Bool DecimalString.
From stdpp Require Import base list sorting.
Import ListNotations.
Local Open Scope Z_scope.

(** ** Outcomes *)

Inductive outcome (A : Type) : Type :=
| Ret (a : A)
| Throw (what : string)
| Undefined
| OutOfFuel.

Arguments Ret {A} a.
Arguments Throw {A} what.
Arguments Undefined {A}.
Arguments OutOfFuel {A}.

Definition bind {A B : Type} (c : outcome A) (k : A -> outcome B) : outcome B :=
  match c with
  | Ret a => k a
  | Throw what => Throw what
  | Undefined => Undefined
  | OutOfFuel => OutOfFuel
  end.

Notation "x <- c ;; k" := (bind c (fun x => k))
  (at level 100, c at next level, right associativity).

(** Computations over a hidden state (the generator of [rand], or the whole
    process state of [main]): the state reached is kept on every outcome. *)
Definition stateful (St A : Type) : Type := St -> outcome A * St.

Definition sret {St A : Type} (a : A) : stateful St A := fun s => (Ret a, s).

Definition lift {St A : Type} (c : outcome A) : stateful St A := fun s => (c, s).

Definition sbind {St A B : Type} (c : stateful St A) (k : A -> stateful St B)
  : stateful St B :=
  fun s =>
    match c s with
    | (Ret a, s') => k a s'
    | (Throw what, s') => (Throw what, s')
    | (Undefined, s') => (Undefined, s')
    | (OutOfFuel, s') => (OutOfFuel, s')
    end.

Notation "x <~ c ;; k" := (sbind c (fun x => k))
  (at level 100, c at next level, right associativity).

Notation "c ;;~ k" := (sbind c (fun _ => k))
  (at level 100, right associativity).

(** ** Machine integers *)

Definition INT_MIN : Z := -2147483648.
Definition INT_MAX : Z := 2147483647.

Definition wrap (z : Z) : Z := (z + 2147483648) mod 4294967296 - 2147483648.

(** [a / b] and [a % b] of C++: truncation towards zero, no result for a zero
    divisor or for [INT_MIN / -1]. *)
Definition int_div (a b : Z) : outcome Z :=
  if b =? 0 then Undefined
  else if (a =? INT_MIN) && (b =? -1) then Undefined
  else Ret (Z.quot a b).

Definition int_rem (a b : Z) : outcome Z :=
  if b =? 0 then Undefined
  else if (a =? INT_MIN) && (b =? -1) then Undefined
  else Ret (Z.rem a b).

(** [a * b] for the counter of a loop: no result when the product leaves the
    range of [int]. *)
Definition int_mul (a b : Z) : outcome Z :=
  if (INT_MIN <=? a * b) && (a * b <=? INT_MAX) then Ret (a * b) else Undefined.

(** ** Vectors and arrays *)

(** [v[i]] on a [std::vector<int>] or on an array whose cells were all
    initialised. *)
Definition load (v : list Z) (i : Z) : outcome Z :=
  if i <? 0 then Undefined
  else match v !! Z.to_nat i with
       | Some x => Ret x
       | None => Undefined
       end.

Definition store (v : list Z) (i x : Z) : outcome (list Z) :=
  if (0 <=? i) && (i <? Z.of_nat (length v))
  then Ret (<[Z.to_nat i := x]> v)
  else Undefined.

(** A variable-length array [T a[n]] starts with indeterminate cells
    ([None]). A zero length is accepted (the GNU extension the source relies
    on for such arrays already), a negative one is not. *)
Abbreviation array := (list (option Z)).

Definition new_array (n : Z) : outcome array :=
  if n <? 0 then Undefined else Ret (replicate (Z.to_nat n) None).

Definition aload (a : array) (i : Z) : outcome Z :=
  if i <? 0 then Undefined
  else match a !! Z.to_nat i with
       | Some (Some x) => Ret x
       | _ => Undefined
       end.

Definition astore (a : array) (i x : Z) : outcome array :=
  if (0 <=? i) && (i <? Z.of_nat (length a))
  then Ret (<[Z.to_nat i := Some x]> a)
  else Undefined.

(** [int count[n]] followed by [memset(count, 0, sizeof(count))], or
    [int count[10] = {0}]. *)
Definition zeroed_array (n : Z) : outcome (list Z) :=
  if n <? 0 then Undefined else Ret (replicate (Z.to_nat n) 0).

(** ** Counting loops *)

(** [for (i = from; i < to; ++i) body], run [n] times from [i]. *)
Fixpoint for_up {St : Type} (n : nat) (i : Z) (body : Z -> St -> outcome St)
  (s : St) : outcome St :=
  match n with
  | O => Ret s
  | S n' => s' <- body i s ;; for_up n' (i + 1) body s'
  end.

(** [for (i = from; i >= 0; i--) body], run [n] times from [i]. *)
Fixpoint for_down {St : Type} (n : nat) (i : Z) (body : Z -> St -> outcome St)
  (s : St) : outcome St :=
  match n with
  | O => Ret s
  | S n' => s' <- body i s ;; for_down n' (i - 1) body s'
  end.

Definition size (sequence : list Z) : Z := Z.of_nat (length sequence).

(** Number of iterations of [for (i = from; i < to; ++i)]. *)
Definition trips (from to : Z) : nat := Z.to_nat (to - from).

(** ** The platform *)

Class Platform : Type := {
  (** whether plain [char] is signed (it has 8 bits either way) *)
  char_is_signed : bool;
  (** the hidden state of the C library's generator *)
  rng : Type;
  srand : Z -> rng;
  rand : rng -> Z * rng;
  (** [static_cast<int>(1e6 * elapsed_seconds.count())] as a function of the
      difference of the two clock readings, in ticks of the clock *)
  elapsed_micros : Z -> Z
}.

Section Program.

Context {P : Platform}.

(** Conversion of an [int] to [char]. *)
Definition to_char (x : Z) : Z :=
  if char_is_signed then (x + 128) mod 256 - 128 else x mod 256.

(** ** Run configuration: the globals filled by the command line *)

Record config : Type := {
  _sequenceSize : Z;
  _algorithm : string;
  _sequenceType : string;
  _seed : Z;
  _lowerBound : Z;
  _upperBound : Z;
  _runs : Z;
  _outputTemplate : string
}.

(** ** Sequence generators *)

Definition rand_call : stateful rng Z := fun s => let (r, s') := rand s in (Ret r, s').

Definition generateRandomNumber (lb ub : Z) (lbIn ubIn : bool) : stateful rng Z :=
  let lb := wrap (lb + (if lbIn then 0 else 1)) in
  let ub := wrap (ub + (if ubIn then 1 else 0)) in
  if lb >? ub then lift (Throw "cannot generate random number")
  else
    r <~ rand_call ;;
    m <~ lift (int_rem r (wrap (ub - lb))) ;;
    sret (wrap (lb + m)).

(** The loop [for (int i=0; i<size; ++i) result.push_back(...)] over the state
    of the generator. *)
Fixpoint push_back_loop (n : nat) (i : Z) (item : Z -> stateful rng Z)
  (result : list Z) : stateful rng (list Z) :=
  match n with
  | O => sret result
  | S n' => x <~ item i ;; push_back_loop n' (i + 1) item (result ++ [x])
  end.

(** [std::vector<int> result{size}] is the list initialisation: one element,
    [size]. *)
Definition generateRandomSequence (c : config) (size : Z) : stateful rng (list Z) :=
  push_back_loop (trips 0 size) 0
    (fun _ => generateRandomNumber (_lowerBound c) (_upperBound c) true true)
    [size].

Definition generateSameSequence (c : config) (size : Z) : stateful rng (list Z) :=
  x <~ generateRandomNumber (_lowerBound c) (_upperBound c) true true ;;
  push_back_loop (trips 0 size) 0 (fun _ => sret x) [size].

Definition generateSortedSequence (c : config) (size : Z) : stateful rng (list Z) :=
  push_back_loop (trips 0 size) 0 (fun i => sret (wrap (_lowerBound c + i))) [size].

Definition generateReverseSortedSequence (c : config) (size : Z) : stateful rng (list Z) :=
  push_back_loop (trips 0 size) 0 (fun i => sret (wrap (_upperBound c - i))) [size].

(** ** ISortAlgorithm::validateSequence *)

(** [previous] is indeterminate until first assigned; [first] is never
    assigned in the loop. *)
Fixpoint validate_loop (rest : list Z) (previous : option Z) (first : bool)
  : outcome bool :=
  match rest with
  | [] => Ret true
  | x :: rest' =>
      if first then validate_loop rest' (Some x) first
      else match previous with
           | None => Undefined
           | Some p => if x <? p then Ret false else validate_loop rest' (Some x) first
           end
  end.

Definition validateSequence (sequence : list Z) : outcome bool :=
  validate_loop sequence None true.

(** ** BubbleSort *)

(** Body of the inner loop: [sequence[i]] and [sequence[j]] are exchanged when
    the first is the greater. *)
Definition exchange_if_greater (i j : Z) (sequence : list Z) : outcome (list Z) :=
  a <- load sequence i ;;
  b <- load sequence j ;;
  if a >? b then
    s1 <- store sequence i b ;;
    store s1 j a
  else Ret sequence.

(** The bound [sequence.size()-1] of the outer loop is computed in [size_t]:
    on the empty sequence it is the largest [size_t], above every [int] that
    is not negative, and the counter [i] goes up to [INT_MAX] without the
    inner loop ever being entered ([j < 0] fails), where [i + 1] overflows. *)
Definition BubbleSort_sort (sequence : list Z) : outcome (list Z) :=
  match sequence with
  | [] => Undefined
  | _ :: _ =>
      for_up (trips 0 (size sequence - 1)) 0
        (fun i s =>
           for_up (trips (i + 1) (size s)) (i + 1)
             (fun j s' => exchange_if_greater i j s') s)
        sequence
  end.

(** ** CountSort *)

Definition CountSort_sort (max : Z) (sequence : list Z) : outcome (list Z) :=
  (* char output[sequence.size()]; *)
  output <- new_array (size sequence) ;;
  (* int count[max + 1]; memset(count, 0, sizeof(count)); *)
  count <- zeroed_array (wrap (max + 1)) ;;
  (* ++count[sequence[i]]; *)
  count <- for_up (trips 0 (size sequence)) 0
             (fun i count =>
                x <- load sequence i ;;
                n <- load count x ;;
                store count x (n + 1))
             count ;;
  (* for (i = 1; i <= max; ++i) count[i] += count[i-1]; *)
  count <- for_up (trips 1 (max + 1)) 1
             (fun i count =>
                a <- load count i ;;
                b <- load count (i - 1) ;;
                store count i (a + b))
             count ;;
  (* output[count[sequence[i]]-1] = sequence[i]; --count[sequence[i]]; *)
  placed <-
      for_up (trips 0 (size sequence)) 0
        (fun i st =>
           let '(output, count) := st in
           x <- load sequence i ;;
           n <- load count x ;;
           output <- astore output (n - 1) (to_char x) ;;
           n' <- load count x ;;
           count <- store count x (n' - 1) ;;
           Ret (output, count))
        (output, count) ;;
  (* sequence[i] = output[i]; *)
  for_up (trips 0 (size sequence)) 0
    (fun i sequence => x <- aload (fst placed) i ;; store sequence i x)
    sequence.

(** ** RadixSort *)

(** [*max_element(begin, end)]: on an empty range the end iterator is
    dereferenced. *)
Definition max_element (sequence : list Z) : outcome Z :=
  match sequence with
  | [] => Undefined
  | x :: rest => Ret (foldl Z.max x rest)
  end.

(** [(x/exp)%10] *)
Definition digit (x exp : Z) : outcome Z :=
  q <- int_div x exp ;; int_rem q 10.

Definition RadixSort_countSort (sequence : list Z) (exp : Z) : outcome (list Z) :=
  (* int output[sequence.size()]; int i, count[10] = {0}; *)
  output <- new_array (size sequence) ;;
  count <- zeroed_array 10 ;;
  (* count[(sequence[i]/exp)%10]++; *)
  count <- for_up (trips 0 (size sequence)) 0
             (fun i count =>
                x <- load sequence i ;;
                d <- digit x exp ;;
                n <- load count d ;;
                store count d (n + 1))
             count ;;
  (* for (i = 1; i < 10; i++) count[i] += count[i - 1]; *)
  count <- for_up (trips 1 10) 1
             (fun i count =>
                a <- load count i ;;
                b <- load count (i - 1) ;;
                store count i (a + b))
             count ;;
  (* for (i = sequence.size() - 1; i >= 0; i--) *)
  placed <-
      for_down (length sequence) (size sequence - 1)
        (fun i st =>
           let '(output, count) := st in
           x <- load sequence i ;;
           d <- digit x exp ;;
           n <- load count d ;;
           output <- astore output (n - 1) x ;;
           n' <- load count d ;;
           count <- store count d (n' - 1) ;;
           Ret (output, count))
        (output, count) ;;
  (* sequence[i] = output[i]; *)
  for_up (trips 0 (size sequence)) 0
    (fun i sequence => x <- aload (fst placed) i ;; store sequence i x)
    sequence.

(** [for (int exp = 1; m/exp > 0; exp *= 10) countSort(sequence, exp);] The
    weight [exp] overflows after the pass of weight 10^9, which a maximum of
    10^9 and more asks for. *)
Fixpoint radix_loop (fuel : nat) (m exp : Z) (sequence : list Z)
  : outcome (list Z) :=
  match fuel with
  | O => OutOfFuel
  | S fuel' =>
      q <- int_div m exp ;;
      if q >? 0 then
        s' <- RadixSort_countSort sequence exp ;;
        exp' <- int_mul exp 10 ;;
        radix_loop fuel' m exp' s'
      else Ret sequence
  end.

Definition RadixSort_sort (fuel : nat) (sequence : list Z) : outcome (list Z) :=
  m <- max_element sequence ;;
  radix_loop fuel m 1 sequence.

(** ** MergeSort *)

(** [while (i < n1 && j < n2) { ... k++; }] *)
Fixpoint merge_while (fuel : nat) (L R : array) (n1 n2 i j k : Z)
  (sequence : list Z) : outcome (Z * Z * Z * list Z) :=
  if (i <? n1) && (j <? n2) then
    match fuel with
    | O => OutOfFuel
    | S fuel' =>
        a <- aload L i ;;
        b <- aload R j ;;
        if a <=? b then
          s <- store sequence k a ;;
          merge_while fuel' L R n1 n2 (i + 1) j (k + 1) s
        else
          s <- store sequence k b ;;
          merge_while fuel' L R n1 n2 i (j + 1) (k + 1) s
    end
  else Ret (i, j, k, sequence).

(** [while (i < n) { sequence[k] = A[i]; i++; k++; }] *)
Definition copy_rest (A : array) (i n k : Z) (sequence : list Z)
  : outcome (Z * list Z) :=
  for_up (trips i n) i
    (fun i st =>
       let '(k, sequence) := st in
       a <- aload A i ;;
       s <- store sequence k a ;;
       Ret (k + 1, s))
    (k, sequence).

Definition MergeSort_merge (sequence : list Z) (left middle right : Z)
  : outcome (list Z) :=
  let n1 := middle - left + 1 in
  let n2 := right - middle in
  L <- new_array n1 ;;
  R <- new_array n2 ;;
  L <- for_up (trips 0 n1) 0
         (fun i L => x <- load sequence (left + i) ;; astore L i x) L ;;
  R <- for_up (trips 0 n2) 0
         (fun j R => x <- load sequence (middle + 1 + j) ;; astore R j x) R ;;
  merged <- merge_while (Z.to_nat n1 + Z.to_nat n2) L R n1 n2 0 0 left sequence ;;
  let '(i, j, k, sequence) := merged in
  rest <- copy_rest L i n1 k sequence ;;
  let '(k, sequence) := rest in
  rest <- copy_rest R j n2 k sequence ;;
  Ret (snd rest).

(** [fuel] bounds the depth of the recursion. The bounds are [int]s, and so
    is their midpoint [left + (right - left)/2]. *)
Fixpoint MergeSort__merge (fuel : nat) (sequence : list Z) (left right : Z)
  : outcome (list Z) :=
  if right >? left then Ret sequence
  else
    match fuel with
    | O => OutOfFuel
    | S fuel' =>
        let middle := wrap (left + Z.quot (wrap (right - left)) 2) in
        s1 <- MergeSort__merge fuel' sequence left middle ;;
        s2 <- MergeSort__merge fuel' s1 (wrap (middle + 1)) right ;;
        MergeSort_merge s2 left middle right
    end.

Definition MergeSort_sort (fuel : nat) (sequence : list Z) : outcome (list Z) :=
  MergeSort__merge fuel sequence 0 (size sequence).

(** ** The strategies behind ISortAlgorithm *)

Inductive ISortAlgorithm : Type :=
| BubbleSort
| CountSort (max : Z)
| RadixSort
| MergeSort.

Definition sort (fuel : nat) (alg : ISortAlgorithm) (sequence : list Z)
  : outcome (list Z) :=
  match alg with
  | BubbleSort => BubbleSort_sort sequence
  | CountSort max => CountSort_sort max sequence
  | RadixSort => RadixSort_sort fuel sequence
  | MergeSort => MergeSort_sort fuel sequence
  end.

(** Every [reset] has an empty body. *)
Definition reset (alg : ISortAlgorithm) : ISortAlgorithm := alg.

(** ** The process around main *)

(** What the run takes from outside: the successive readings of
    [system_clock::now()], in ticks, and whether the result file opens. *)
Record environment : Type := {
  clock : nat -> Z;
  fopen_succeeds : bool
}.

(** What a run lets be observed besides the file it writes. *)
Inductive event : Type :=
| Generated (run : Z) (sequence : list Z)
| Sorted (run : Z) (sequence : list Z).

Record process : Type := {
  generator : rng;
  readings : nat;
  csv : option string;
  written : list string;
  closed : bool;
  observed : list event
}.

(** Before any [srand] the generator is as after [srand(1)]. *)
Definition start : process :=
  {| generator := srand 1; readings := 0; csv := None; written := [];
     closed := false; observed := [] |}.

Definition with_generator {A : Type} (c : stateful rng A) : stateful process A :=
  fun p =>
    let (r, g) := c (generator p) in
    (r, {| generator := g; readings := readings p; csv := csv p;
           written := written p; closed := closed p; observed := observed p |}).

(** [srand] takes an [unsigned int]: the seed is reduced modulo 2^32. *)
Definition srand_call (seed : Z) : stateful process unit :=
  with_generator (fun _ => (Ret tt, srand (seed mod 4294967296))).

Definition now (env : environment) : stateful process Z :=
  fun p =>
    (Ret (clock env (readings p)),
     {| generator := generator p; readings := S (readings p); csv := csv p;
        written := written p; closed := closed p; observed := observed p |}).

Definition fopen (env : environment) (name : string) : stateful process unit :=
  fun p =>
    if fopen_succeeds env then
      (Ret tt,
       {| generator := generator p; readings := readings p; csv := Some name;
          written := written p; closed := closed p; observed := observed p |})
    else (Throw "can't open file", p).

Definition fprintf (line : string) : stateful process unit :=
  fun p =>
    (Ret tt,
     {| generator := generator p; readings := readings p; csv := csv p;
        written := written p ++ [line]; closed := closed p;
        observed := observed p |}).

Definition fclose : stateful process unit :=
  fun p =>
    (Ret tt,
     {| generator := generator p; readings := readings p; csv := csv p;
        written := written p; closed := true; observed := observed p |}).

Definition observe (e : event) : stateful process unit :=
  fun p =>
    (Ret tt,
     {| generator := generator p; readings := readings p; csv := csv p;
        written := written p; closed := closed p;
        observed := observed p ++ [e] |}).

Definition newline : string := String (ascii_of_nat 10) EmptyString.

(** [%d] *)
Definition print_int (z : Z) : string := NilZero.string_of_int (Z.to_int z).

Definition header : string := String.append "run,time" newline.

(** ["%d,%d\n"] *)
Definition row (run time : Z) : string :=
  String.append (print_int run)
    (String.append "," (String.append (print_int time) newline)).

(** ** main *)

Definition select_algorithm (c : config) : outcome ISortAlgorithm :=
  if String.eqb (_algorithm c) "BUBBLESORT" then Ret BubbleSort
  else if String.eqb (_algorithm c) "MERGESORT" then Ret MergeSort
  else if String.eqb (_algorithm c) "COUNTSORT" then Ret (CountSort (_upperBound c))
  else if String.eqb (_algorithm c) "RADIXSORT" then Ret RadixSort
  else Throw "invalid algorithm!".

(** The choice of the generator at the head of each run. *)
Definition generate (c : config) : stateful rng (list Z) :=
  if String.eqb (_sequenceType c) "RANDOM" then
    generateRandomSequence c (_sequenceSize c)
  else if String.eqb (_sequenceType c) "SAME" then
    generateSameSequence c (_sequenceSize c)
  else if String.eqb (_sequenceType c) "SORTED" then
    generateSortedSequence c (_sequenceSize c)
  else if String.eqb (_sequenceType c) "REVERSESORTED" then
    generateReverseSortedSequence c (_sequenceSize c)
  else lift (Throw "invalid type!").

(** One iteration of the loop over the runs. *)
Definition run_body (fuel : nat) (env : environment) (c : config)
  (alg : ISortAlgorithm) (run : Z) : stateful process unit :=
  sequence <~ with_generator (generate c) ;;
  observe (Generated run sequence) ;;~
  let alg := reset alg in
  t0 <~ now env ;;
  sequence <~ lift (sort fuel alg sequence) ;;
  t1 <~ now env ;;
  observe (Sorted run sequence) ;;~
  valid <~ lift (validateSequence sequence) ;;
  if negb valid then lift (Throw "sorting failed!")
  else fprintf (row run (elapsed_micros (t1 - t0))).

(** [for (int run=0; run<_runs; ++run)] *)
Fixpoint for_runs (n : nat) (run : Z) (body : Z -> stateful process unit)
  : stateful process unit :=
  match n with
  | O => sret tt
  | S n' => body run ;;~ for_runs n' (run + 1) body
  end.

Definition csvFileName (c : config) : string :=
  String.append (_outputTemplate c) "kind:type=main|.csv".

Definition main (fuel : nat) (env : environment) (c : config)
  : stateful process unit :=
  srand_call (_seed c) ;;~
  alg <~ lift (select_algorithm c) ;;
  fopen env (csvFileName c) ;;~
  fprintf header ;;~
  for_runs (trips 0 (_runs c)) 0 (run_body fuel env c alg) ;;~
  fclose.

End Program.

(** ** A reference platform: GCC and the GNU C library on x86-64

    Plain [char] is signed. [std::chrono::system_clock] ticks in nanoseconds,
    and [rand] is the additive feedback generator of the GNU C library. *)

(** *** [rand] and [srand]

    The generator keeps a table of 31 words and two pointers into it, the
    front one three words ahead of the rear one: a call adds the word at the
    rear to the word at the front, returns the sum without its lowest bit and
    moves both pointers on by one. The table is kept here as it is read from
    the rear pointer on. *)
Definition glibc_step (table : list Z) : Z * list Z :=
  match table with
  | r0 :: r1 :: r2 :: r3 :: rest =>
      let v := (r3 + r0) mod 4294967296 in
      (v / 2, r1 :: r2 :: v :: rest ++ [r0])
  | _ => (0, table)
  end.

(** [srand] fills the table from the seed with the multiplicative generator
    of Lehmer ([16807 * word % 2147483647], by Schrage's decomposition on a
    32-bit [word]) and discards the first 310 numbers; the seed 0 is taken
    as 1. *)
Fixpoint glibc_fill (n : nat) (word : Z) : list Z :=
  match n with
  | O => []
  | S n' =>
      let w := 16807 * Z.rem word 127773 - 2836 * Z.quot word 127773 in
      let w := if w <? 0 then w + 2147483647 else w in
      w :: glibc_fill n' w
  end.

Fixpoint glibc_discard (n : nat) (table : list Z) : list Z :=
  match n with
  | O => table
  | S n' => glibc_discard n' (snd (glibc_step table))
  end.

Definition glibc_srand (seed : Z) : list Z :=
  let seed := if seed =? 0 then 1 else seed in
  glibc_discard 310 (seed :: glibc_fill 30 (wrap seed)).

(** *** The conversion of a duration

    [end - start] counts nanoseconds in a 64-bit integer; as a
    [duration<double>] it is that count divided by 10^9 in [double], and the
    time printed is [static_cast<int>(1e6 * elapsed_seconds.count())]. *)

(** The [double] nearest to [n / d] for [0 <= n] and [0 < d], ties going to
    the even mantissa: a mantissa below 2^53 (2^53 itself when the rounding
    carries) and an exponent. The durations of a clock meet neither
    subnormal numbers nor infinities. *)
Definition nearest_double (n d : Z) : Z * Z :=
  if n =? 0 then (0, 0)
  else
    let scaled (e : Z) :=
      if 0 <=? e then (n, d * 2 ^ e) else (n * 2 ^ (- e), d) in
    let e0 := Z.log2 n - Z.log2 d - 52 in
    let e := if fst (scaled e0) <? snd (scaled e0) * 2 ^ 52 then e0 - 1 else e0 in
    let n' := fst (scaled e) in
    let d' := snd (scaled e) in
    let m := n' / d' in
    let r := n' mod d' in
    (if (d' <? 2 * r) || ((d' =? 2 * r) && Z.odd m) then m + 1 else m, e).

(** A [double] as a fraction. *)
Definition fraction (x : Z * Z) : Z * Z :=
  if 0 <=? snd x then (fst x * 2 ^ snd x, 1) else (fst x, 2 ^ (- snd x)).

(** The conversion to [int] truncates; where the product does not fit an
    [int] the conversion instruction of the processor gives [INT_MIN]. *)
Definition micros_of_ticks (ticks : Z) : Z :=
  let count := fraction (nearest_double (Z.abs ticks) 1) in
  let seconds := fraction (nearest_double (fst count) (snd count * 1000000000)) in
  let micros := fraction (nearest_double (fst seconds * 1000000) (snd seconds)) in
  let whole := Z.sgn ticks * (fst micros / snd micros) in
  if (INT_MIN <=? whole) && (whole <=? INT_MAX) then whole else INT_MIN.

#[local] Instance reference_platform : Platform := {|
  char_is_signed := true;
  rng := list Z;
  srand := glibc_srand;
  rand := glibc_step;
  elapsed_micros := micros_of_ticks
|}.

(** * Vocabulary of the properties *)

(** ** What a sort is expected to return *)

(** Each element is at least its predecessor. *)
Definition non_decreasing (l : list Z) : Prop :=
  forall (i : nat) (x y : Z), l !! i = Some x -> l !! S i = Some y -> x <= y.

(** The validator in the words of the specification: one scan from the left
    that compares each element with its predecessor; the empty sequence and
    the sequences of one element are sorted. *)
Fixpoint isSorted (l : list Z) : bool :=
  match l with
  | x :: (y :: _) as rest => (x <=? y) && isSorted rest
  | _ => true
  end.

Definition sorted_permutation (output input : list Z) : Prop :=
  non_decreasing output /\ Permutation output input.

Definition int_range (z : Z) : Prop := INT_MIN <= z <= INT_MAX.

(** ** Outcomes *)

(** An outcome that is never an exception. *)
Definition no_throw {A : Type} (c : outcome A) : Prop :=
  forall what : string, c <> Throw what.

(** An outcome that is not a value, at another type. *)
Definition failed_as {A B : Type} (c : outcome A) : outcome B :=
  bind c (fun _ => Undefined).

(** The body [f] applied to the elements in order. *)
Fixpoint for_each {St : Type} (l : list Z) (f : Z -> St -> outcome St) (s : St)
  : outcome St :=
  match l with
  | [] => Ret s
  | x :: l' => s' <- f x s ;; for_each l' f s'
  end.

(** ** Runs *)

Section Runs.

Context {P : Platform}.

(** Generation never fails under the configuration, whatever the generator
    holds. *)
Definition generation_returns (c : config) : Prop :=
  forall g : rng, exists sequence g', generate c g = (Ret sequence, g').

(** The strategy returns on every sequence the configuration can
    generate. *)
Definition sort_returns (fuel : nat) (alg : ISortAlgorithm) (c : config) : Prop :=
  forall g sequence g',
    generate c g = (Ret sequence, g') ->
    exists output, sort fuel alg sequence = Ret output.

(** The time printed for a run: the clock is read twice per run. *)
Definition elapsed (env : environment) (run : nat) : Z :=
  elapsed_micros (clock env (S (2 * run)) - clock env (2 * run)).

Definition rows (env : environment) (first n : nat) : list string :=
  map (fun k => row (Z.of_nat k) (elapsed env k)) (seq first n).

(** What two executions share when they differ by the clock only. *)
Definition agree (p1 p2 : process) : Prop :=
  generator p1 = generator p2 /\ observed p1 = observed p2.

(** The sequence generated in a run, read off the observations. *)
Fixpoint generated_in (events : list event) (run : Z) : option (list Z) :=
  match events with
  | [] => None
  | Generated r sequence :: rest =>
      if r =? run then Some sequence else generated_in rest run
  | Sorted _ _ :: rest => generated_in rest run
  end.

End Runs.

(** ** The loops of the strategies as functions on lists *)

(** The inner loop at position [i] holding [x], over the elements after it:
    the least of them all ends at [i], the others stay behind in the order
    the exchanges leave them. *)
Fixpoint exchange_pass (x : Z) (l : list Z) : Z * list Z :=
  match l with
  | [] => (x, [])
  | y :: l' =>
      if x >? y then (fst (exchange_pass y l'), x :: snd (exchange_pass y l'))
      else (fst (exchange_pass x l'), y :: snd (exchange_pass x l'))
  end.

(** [k] iterations of the outer loop on the part of the sequence not yet in
    place. *)
Fixpoint exchange_sort (k : nat) (l : list Z) : list Z :=
  match k with
  | O => l
  | S k' =>
      match l with
      | [] => []
      | x :: rest =>
          fst (exchange_pass x rest) :: exchange_sort k' (snd (exchange_pass x rest))
      end
  end.

(** Both [CountSort::sort] and [RadixSort::countSort] tally the elements by a
    key, turn the tallies into the end positions of the buckets, and then
    place each element at the end of what is left of its bucket. *)

Section CountingVocabulary.

(** The key of an element and the number of buckets. *)
Variable key : Z -> Z.
Variable K : nat.

Definition keyed (d : Z) (l : list Z) : list Z :=
  filter (fun y => key y = d) l.

Definition occ (d : Z) (l : list Z) : Z := Z.of_nat (length (keyed d l)).

Definition below (d : Z) (l : list Z) : Z :=
  Z.of_nat (length (filter (fun y => key y < d) l)).

Definition upto (d : Z) (l : list Z) : Z := below d l + occ d l.

(** The buckets [d], [d + 1], ... one after the other, each in the order of
    the list. *)
Fixpoint buckets (n : nat) (d : Z) (l : list Z) : list Z :=
  match n with
  | O => []
  | S n' => keyed d l ++ buckets n' (d + 1) l
  end.

Definition keys_in_range (l : list Z) : Prop :=
  Forall (fun x => 0 <= key x < Z.of_nat K) l.

(** The table [count] holds [g d] at every key [d]. *)
Definition counts_are (count : list Z) (g : Z -> Z) : Prop :=
  length count = K /\
  forall d : Z, 0 <= d < Z.of_nat K -> count !! Z.to_nat d = Some (g d).

(** The bodies of the three loops. *)
Definition tally (keyc : Z -> outcome Z) (x : Z) (count : list Z)
  : outcome (list Z) :=
  d <- keyc x ;; n <- load count d ;; store count d (n + 1).

Definition accumulate (i : Z) (count : list Z) : outcome (list Z) :=
  a <- load count i ;; b <- load count (i - 1) ;; store count i (a + b).

(** What is written for an element ([CountSort] narrows it to a [char]). *)
Variable stored : Z -> Z.

Definition place (keyc : Z -> outcome Z) (x : Z) (st : array * list Z)
  : outcome (array * list Z) :=
  d <- keyc x ;;
  n <- load (snd st) d ;;
  output <- astore (fst st) (n - 1) (stored x) ;;
  n' <- load (snd st) d ;;
  count <- store (snd st) d (n' - 1) ;;
  Ret (output, count).

(** After the elements [done] of [xs] were placed: the counter of a key is
    the start of the placed part of its bucket, and a cell of [output] is
    written exactly when it lies in the placed part of its bucket. *)
Definition placed (xs done : list Z) (output : array) (count : list Z) : Prop :=
  counts_are count (fun d => upto d xs - occ d done) /\
  length output = length xs /\
  forall (k : nat) (y : Z),
    buckets K 0 (reverse xs) !! k = Some y ->
    output !! k
    = Some (if decide (upto (key y) xs - occ (key y) done <= Z.of_nat k)
            then Some (stored y) else None).

End CountingVocabulary.

(** The decimal digit of weight [exp] of a non-negative element. *)
Definition digit_of (exp x : Z) : Z := Z.rem (Z.quot x exp) 10.

(** Order by the remainder modulo [E]: the digits below weight [E]. *)
Definition le_mod (E a b : Z) : Prop := a mod E <= b mod E.

(** ** Environments and configurations of the concrete runs *)

Definition steady_clock : environment :=
  {| clock := fun k => Z.of_nat k * 2500; fopen_succeeds := true |}.

Definition backward_clock : environment :=
  {| clock := fun k => 5000000 - Z.of_nat k * 2500; fopen_succeeds := true |}.

Definition ascending_bubble : config :=
  {| _sequenceSize := 4; _algorithm := "BUBBLESORT"; _sequenceType := "SORTED";
     _seed := 7; _lowerBound := 1; _upperBound := 100; _runs := 5;
     _outputTemplate := "out" |}.

Definition descending_merge : config :=
  {| _sequenceSize := 3; _algorithm := "MERGESORT";
     _sequenceType := "REVERSESORTED"; _seed := 7; _lowerBound := 1;
     _upperBound := 10; _runs := 2; _outputTemplate := "out" |}.

Definition random_bubble : config :=
  {| _sequenceSize := 5; _algorithm := "BUBBLESORT"; _sequenceType := "RANDOM";
     _seed := 42; _lowerBound := 0; _upperBound := 9; _runs := 3;
     _outputTemplate := "out" |}.

Definition inverted_bounds : config :=
  {| _sequenceSize := 3; _algorithm := "BUBBLESORT"; _sequenceType := "RANDOM";
     _seed := 42; _lowerBound := 5; _upperBound := 0; _runs := 5;
     _outputTemplate := "out" |}.

Definition random_count : config :=
  {| _sequenceSize := 5; _algorithm := "COUNTSORT"; _sequenceType := "RANDOM";
     _seed := 42; _lowerBound := 0; _upperBound := 3; _runs := 5;
     _outputTemplate := "out" |}.

(** Bounds in order, the upper one the largest [int]. *)
Definition widest_bounds : config :=
  {| _sequenceSize := 3; _algorithm := "BUBBLESORT"; _sequenceType := "RANDOM";
     _seed := 42; _lowerBound := 0; _upperBound := 2147483647; _runs := 5;
     _outputTemplate := "out" |}.

Definition widest_bounds_same : config :=
  {| _sequenceSize := 4; _algorithm := "MERGESORT"; _sequenceType := "SAME";
     _seed := 7; _lowerBound := 0; _upperBound := 2147483647; _runs := 2;
     _outputTemplate := "out" |}.

(** ** The generator of [rand] *)

Section Draws.

Context {P : Platform}.

(** The state of the generator after [n] calls of [rand]. *)
Fixpoint after_draws (n : nat) (g : rng) : rng :=
  match n with
  | O => g
  | S n' => after_draws n' (snd (rand g))
  end.

(** [rand] returns a number between 0 and [RAND_MAX]: never a negative
    one. *)
Definition rand_non_negative : Prop := forall g : rng, 0 <= fst (rand g).

End Draws.

Section DrawsOfARun.

Context {P : Platform}.


End DrawsOfARun.

(** ** Further environments and configurations *)

(** The result file cannot be created. *)
Definition no_file : environment :=
  {| clock := fun k => Z.of_nat k * 2500; fopen_succeeds := false |}.

Definition unknown_algorithm : config :=
  {| _sequenceSize := 4; _algorithm := "QUICKSORT"; _sequenceType := "SORTED";
     _seed := 7; _lowerBound := 1; _upperBound := 100; _runs := 5;
     _outputTemplate := "out" |}.

Definition unknown_policy : config :=
  {| _sequenceSize := 4; _algorithm := "BUBBLESORT"; _sequenceType := "SHUFFLED";
     _seed := 7; _lowerBound := 1; _upperBound := 100; _runs := 5;
     _outputTemplate := "out" |}.

Definition random_radix : config :=
  {| _sequenceSize := 5; _algorithm := "RADIXSORT"; _sequenceType := "RANDOM";
     _seed := 42; _lowerBound := 0; _upperBound := 999; _runs := 3;
     _outputTemplate := "out" |}.

(** * Properties *)

(** ** What a sort is expected to return *)

Lemma descending_pair_not_non_decreasing (a b : Z) (rest : list Z) :
  b < a -> ~ non_decreasing (a :: b :: rest).
Proof.
  intros Hlt Hs.
  specialize (Hs 0%nat a b eq_refl eq_refl). lia.
Qed.

Lemma non_decreasing_cons (x y : Z) (rest : list Z) :
  non_decreasing (x :: y :: rest) <-> x <= y /\ non_decreasing (y :: rest).
Proof.
  split.
  - intros H. split.
    + exact (H 0%nat x y eq_refl eq_refl).
    + intros i a b Ha Hb. exact (H (S i) a b Ha Hb).
  - intros [Hxy H] i a b Ha Hb. destruct i as [| i].
    + cbn in Ha, Hb. injection Ha as <-. injection Hb as <-. exact Hxy.
    + exact (H i a b Ha Hb).
Qed.

(** The scan of the specification decides [non_decreasing]. *)
Lemma isSorted_non_decreasing (l : list Z) :
  isSorted l = true <-> non_decreasing l.
Proof.
  induction l as [| x l IH].
  - split; [| reflexivity]. intros _ i a b Ha. discriminate.
  - destruct l as [| y rest].
    + split; [| reflexivity]. intros _ i a b _ Hb. discriminate.
    + rewrite non_decreasing_cons, <- IH.
      cbn [isSorted]. rewrite andb_true_iff, Z.leb_le. reflexivity.
Qed.

Section Claims.

Context {P : Platform}.

(** ** The validator *)

Lemma validate_loop_first (rest : list Z) (previous : option Z) :
  validate_loop rest previous true = Ret true.
Proof.
  revert previous.
  induction rest as [| x rest IH]; intros previous; simpl; [reflexivity | apply IH].
Qed.

Lemma validateSequence_accepts (sequence : list Z) :
  validateSequence sequence = Ret true.
Proof. apply validate_loop_first. Qed.

(** C2: the validator is claimed to answer true exactly on the non-decreasing
    sequences. On [2; 1], whose second element is below the first and which
    the scan of the specification rejects, it answers true. *)
Theorem validateSequence_accepts_descending_pair :
  validateSequence [2; 1] = Ret true /\
  isSorted [2; 1] = false /\
  ~ non_decreasing [2; 1].
Proof.
  split; [reflexivity |].
  split; [reflexivity | apply descending_pair_not_non_decreasing; lia].
Qed.

(** ** The generators *)

Lemma push_back_loop_length (n : nat) (i : Z) (item : Z -> stateful rng Z)
  (result sequence : list Z) (g g' : rng) :
  push_back_loop n i item result g = (Ret sequence, g') ->
  length sequence = (length result + n)%nat.
Proof.
  revert i result g.
  induction n as [| n IH]; intros i result g H; simpl in H.
  - unfold sret in H. injection H as <- _. lia.
  - unfold sbind in H.
    destruct (item i g) as [[x | what | |] g1]; try discriminate.
    apply IH in H. rewrite length_app in H. simpl in H. lia.
Qed.

Lemma generate_length (c : config) (g g' : rng) (sequence : list Z) :
  generate c g = (Ret sequence, g') ->
  length sequence = S (Z.to_nat (_sequenceSize c)).
Proof.
  unfold generate, generateRandomSequence, generateSameSequence,
    generateSortedSequence, generateReverseSortedSequence, trips.
  rewrite Z.sub_0_r.
  intros H.
  repeat match type of H with
         | (if ?b then _ else _) _ = _ => destruct b
         end.
  - apply push_back_loop_length in H. exact H.
  - unfold sbind in H at 1.
    destruct (generateRandomNumber _ _ _ _ g) as [[x | what | |] g1];
      try discriminate.
    apply push_back_loop_length in H. exact H.
  - apply push_back_loop_length in H. exact H.
  - apply push_back_loop_length in H. exact H.
  - discriminate.
Qed.

(** C3: a generated sequence is claimed to have exactly [size] elements, the
    empty sequence for [size = 0]. Every generator starts from the
    one-element vector holding [size]: for size 0 the policies that draw
    nothing before the loop return [0], and the ascending run of size 3 from
    1 has four elements. *)
Theorem generators_return_one_element_more :
  forall (c : config) (g : rng),
    generateRandomSequence c 0 g = (Ret [0], g) /\
    generateSortedSequence c 0 g = (Ret [0], g) /\
    generateReverseSortedSequence c 0 g = (Ret [0], g) /\
    generateSortedSequence
      {| _sequenceSize := 3; _algorithm := "BUBBLESORT"; _sequenceType := "SORTED";
         _seed := 0; _lowerBound := 1; _upperBound := 100; _runs := 1;
         _outputTemplate := "out" |} 3 g = (Ret [3; 1; 2; 3], g).
Proof.
  intros c g. repeat split; reflexivity.
Qed.

(** C5: sampling is claimed to fail with the out-of-range error whenever the
    lower bound is above the upper bound. With bounds 1 and 0 the guard
    [lb > ub] is evaluated after [ub] was incremented and lets the call
    through: no error is thrown, the remainder of [rand()] by zero is taken.
    From lower bound 2 on the error is thrown. *)
Theorem generateRandomNumber_misses_adjacent_bounds :
  forall g : rng,
    generateRandomNumber 1 0 true true g = (Undefined, snd (rand g)) /\
    generateRandomNumber 2 0 true true g
      = (Throw "cannot generate random number", g).
Proof.
  intros g. split.
  - unfold generateRandomNumber, sbind, rand_call. simpl.
    destruct (rand g) as [r g1]. reflexivity.
  - reflexivity.
Qed.

(** ** The sort strategies at their failing inputs *)

Lemma MergeSort_sort_nonempty (fuel : nat) (sequence : list Z) :
  sequence <> [] -> MergeSort_sort fuel sequence = Ret sequence.
Proof.
  intros Hne. unfold MergeSort_sort, size.
  destruct sequence as [| x rest]; [congruence |].
  destruct fuel; simpl; reflexivity.
Qed.


(** C1: each of the four strategies is claimed to return a sorted permutation
    of any sequence. [MergeSort::_merge] returns at once when [right > left],
    which holds for the bounds 0 and [size] of every non-empty sequence: the
    sequence [2; 1] comes back as it was. *)
Theorem MergeSort_sort_leaves_descending_pair :
  forall fuel : nat,
    sort fuel MergeSort [2; 1] = Ret [2; 1] /\
    ~ sorted_permutation [2; 1] [2; 1].
Proof.
  intros fuel. split.
  - apply MergeSort_sort_nonempty. discriminate.
  - intros [Hs _]. revert Hs. apply descending_pair_not_non_decreasing. lia.
Qed.

(** C4: counting sort is claimed correct whenever the elements lie in
    [0, max]. The output buffer is an array of [char]: with [max = 300] the
    one-element sequence [300] comes back as [44], whatever the signedness of
    [char]. *)
Theorem CountSort_sort_truncates_to_char :
  sort 0 (CountSort 300) [300] = Ret [44] /\
  ~ sorted_permutation [44] [300].
Proof.
  split.
  - destruct P as [[|] rngT srandT randT microsT]; vm_compute; reflexivity.
  - intros [_ Hp]. apply Permutation_length_1 in Hp. discriminate.
Qed.

(** C8: radix sort is claimed to sort every sequence of non-negative
    integers. On the empty sequence [max_element] returns the end iterator,
    which [sort] dereferences. *)
Theorem RadixSort_sort_dereferences_end_on_empty :
  forall fuel : nat, sort fuel RadixSort [] = Undefined.
Proof. intros fuel. reflexivity. Qed.

(** ** Outcomes that are never an exception *)

Lemma no_throw_bind {A B : Type} (c : outcome A) (k : A -> outcome B) :
  no_throw c -> (forall a, no_throw (k a)) -> no_throw (bind c k).
Proof.
  intros Hc Hk what. destruct c as [a | w | |]; simpl; try discriminate.
  - apply Hk.
  - intros _. exact (Hc w eq_refl).
Qed.

Lemma no_throw_Ret {A : Type} (a : A) : no_throw (Ret a).
Proof. intros what; discriminate. Qed.

Lemma no_throw_load (v : list Z) (i : Z) : no_throw (load v i).
Proof.
  intros what. unfold load.
  destruct (i <? 0); [discriminate |].
  destruct (v !! Z.to_nat i); discriminate.
Qed.

Lemma no_throw_store (v : list Z) (i x : Z) : no_throw (store v i x).
Proof.
  intros what. unfold store.
  destruct ((0 <=? i) && (i <? Z.of_nat (length v))); discriminate.
Qed.

Lemma no_throw_aload (a : array) (i : Z) : no_throw (aload a i).
Proof.
  intros what. unfold aload.
  destruct (i <? 0); [discriminate |].
  destruct (a !! Z.to_nat i) as [[x |] |]; discriminate.
Qed.

Lemma no_throw_astore (a : array) (i x : Z) : no_throw (astore a i x).
Proof.
  intros what. unfold astore.
  destruct ((0 <=? i) && (i <? Z.of_nat (length a))); discriminate.
Qed.

Lemma no_throw_new_array (n : Z) : no_throw (new_array n).
Proof. intros what. unfold new_array. destruct (n <? 0); discriminate. Qed.

Lemma no_throw_zeroed_array (n : Z) : no_throw (zeroed_array n).
Proof. intros what. unfold zeroed_array. destruct (n <? 0); discriminate. Qed.

Lemma no_throw_int_div (a b : Z) : no_throw (int_div a b).
Proof.
  intros what. unfold int_div.
  destruct (b =? 0); [discriminate |].
  destruct ((a =? INT_MIN) && (b =? -1)); discriminate.
Qed.

Lemma no_throw_int_rem (a b : Z) : no_throw (int_rem a b).
Proof.
  intros what. unfold int_rem.
  destruct (b =? 0); [discriminate |].
  destruct ((a =? INT_MIN) && (b =? -1)); discriminate.
Qed.

Lemma no_throw_int_mul (a b : Z) : no_throw (int_mul a b).
Proof.
  intros what. unfold int_mul.
  destruct ((INT_MIN <=? a * b) && (a * b <=? INT_MAX)); discriminate.
Qed.

Lemma no_throw_for_up {St : Type} (n : nat) (i : Z)
  (body : Z -> St -> outcome St) (s : St) :
  (forall j t, no_throw (body j t)) -> no_throw (for_up n i body s).
Proof.
  intros Hbody. revert i s.
  induction n as [| n IH]; intros i s; simpl.
  - apply no_throw_Ret.
  - apply no_throw_bind; [apply Hbody | intros a; apply IH].
Qed.

Lemma no_throw_for_down {St : Type} (n : nat) (i : Z)
  (body : Z -> St -> outcome St) (s : St) :
  (forall j t, no_throw (body j t)) -> no_throw (for_down n i body s).
Proof.
  intros Hbody. revert i s.
  induction n as [| n IH]; intros i s; simpl.
  - apply no_throw_Ret.
  - apply no_throw_bind; [apply Hbody | intros a; apply IH].
Qed.

Create HintDb no_throw.

#[local] Hint Resolve no_throw_Ret no_throw_load no_throw_store no_throw_aload
  no_throw_astore no_throw_new_array no_throw_zeroed_array no_throw_int_div
  no_throw_int_rem no_throw_int_mul : no_throw.

Ltac no_throw_step :=
  match goal with
  | |- no_throw (bind _ _) => apply no_throw_bind; [| intros ?]
  | |- no_throw (for_up _ _ _ _) => apply no_throw_for_up; intros ? ?
  | |- no_throw (for_down _ _ _ _) => apply no_throw_for_down; intros ? ?
  | |- no_throw (if ?b then _ else _) => destruct b
  | |- no_throw (let '(_, _) := ?p in _) => destruct p
  | |- no_throw _ => solve [auto with no_throw]
  end.

Lemma no_throw_BubbleSort_sort (sequence : list Z) :
  no_throw (BubbleSort_sort sequence).
Proof.
  destruct sequence as [| x rest]; [intros what; discriminate |].
  unfold BubbleSort_sort, exchange_if_greater. repeat no_throw_step.
Qed.

Lemma no_throw_CountSort_sort (max : Z) (sequence : list Z) :
  no_throw (CountSort_sort max sequence).
Proof.
  unfold CountSort_sort. repeat no_throw_step.
Qed.

Lemma no_throw_RadixSort_countSort (sequence : list Z) (exp : Z) :
  no_throw (RadixSort_countSort sequence exp).
Proof.
  unfold RadixSort_countSort, digit. repeat no_throw_step.
Qed.

Lemma no_throw_radix_loop (fuel : nat) (m exp : Z) (sequence : list Z) :
  no_throw (radix_loop fuel m exp sequence).
Proof.
  revert exp sequence.
  induction fuel as [| fuel IH]; intros exp sequence; simpl.
  - intros what; discriminate.
  - apply no_throw_bind; [apply no_throw_int_div |].
    intros q. destruct (q >? 0); [| apply no_throw_Ret].
    apply no_throw_bind; [apply no_throw_RadixSort_countSort | intros s].
    apply no_throw_bind; [apply no_throw_int_mul | intros exp'; apply IH].
Qed.

Lemma no_throw_RadixSort_sort (fuel : nat) (sequence : list Z) :
  no_throw (RadixSort_sort fuel sequence).
Proof.
  unfold RadixSort_sort. apply no_throw_bind.
  - destruct sequence; [intros what; discriminate | apply no_throw_Ret].
  - intros m. apply no_throw_radix_loop.
Qed.

Lemma no_throw_merge_while (fuel : nat) (L R : array) (n1 n2 i j k : Z)
  (sequence : list Z) :
  no_throw (merge_while fuel L R n1 n2 i j k sequence).
Proof.
  revert i j k sequence.
  induction fuel as [| fuel IH]; intros i j k sequence; simpl;
    destruct ((i <? n1) && (j <? n2)); try apply no_throw_Ret.
  - intros what; discriminate.
  - repeat no_throw_step; apply IH.
Qed.

Lemma no_throw_MergeSort_merge (sequence : list Z) (left middle right : Z) :
  no_throw (MergeSort_merge sequence left middle right).
Proof.
  unfold MergeSort_merge, copy_rest.
  repeat first [apply no_throw_merge_while | no_throw_step].
Qed.

Lemma no_throw_MergeSort__merge (fuel : nat) (sequence : list Z) (left right : Z) :
  no_throw (MergeSort__merge fuel sequence left right).
Proof.
  revert sequence left right.
  induction fuel as [| fuel IH]; intros sequence left right; simpl;
    destruct (right >? left); try apply no_throw_Ret.
  - intros what; discriminate.
  - apply no_throw_bind; [apply IH | intros s1].
    apply no_throw_bind; [apply IH | intros s2].
    apply no_throw_MergeSort_merge.
Qed.

(** No strategy throws. *)
Lemma no_throw_sort (fuel : nat) (alg : ISortAlgorithm) (sequence : list Z) :
  no_throw (sort fuel alg sequence).
Proof.
  destruct alg; simpl.
  - apply no_throw_BubbleSort_sort.
  - apply no_throw_CountSort_sort.
  - apply no_throw_RadixSort_sort.
  - apply no_throw_MergeSort__merge.
Qed.

(** ** What the generators can throw *)

Lemma generateRandomNumber_throws (lb ub : Z) (lbIn ubIn : bool) (g g' : rng)
  (what : string) :
  generateRandomNumber lb ub lbIn ubIn g = (Throw what, g') ->
  what = "cannot generate random number"%string.
Proof.
  unfold generateRandomNumber.
  destruct (_ >? _).
  - unfold lift. intros H. injection H as H _. congruence.
  - unfold sbind, rand_call, lift, sret.
    destruct (rand g) as [r g1].
    destruct (int_rem r _) as [m | w | |] eqn:E; try discriminate.
    exfalso. exact (no_throw_int_rem _ _ _ E).
Qed.

Lemma push_back_loop_throws (Q : string -> Prop) (n : nat) (i : Z)
  (item : Z -> stateful rng Z) (result : list Z) (g g' : rng) (what : string) :
  (forall j s w s', item j s = (Throw w, s') -> Q w) ->
  push_back_loop n i item result g = (Throw what, g') -> Q what.
Proof.
  intros Hitem. revert i result g.
  induction n as [| n IH]; intros i result g H; simpl in H.
  - discriminate.
  - unfold sbind in H.
    destruct (item i g) as [[x | w | |] g1] eqn:E; try discriminate.
    + eapply IH; eassumption.
    + injection H as <- _. eapply Hitem; eassumption.
Qed.

Lemma generate_throws (c : config) (g g' : rng) (what : string) :
  generate c g = (Throw what, g') ->
  what = "cannot generate random number"%string \/ what = "invalid type!"%string.
Proof.
  unfold generate, generateRandomSequence, generateSameSequence,
    generateSortedSequence, generateReverseSortedSequence.
  intros H.
  repeat match type of H with
         | (if ?b then _ else _) _ = _ => destruct b
         end.
  - left. revert H.
    apply (push_back_loop_throws
             (fun w => w = "cannot generate random number"%string)).
    intros j s w s'. apply generateRandomNumber_throws.
  - left. unfold sbind in H at 1.
    destruct (generateRandomNumber _ _ _ _ g) as [[x | w | |] g1] eqn:E;
      try discriminate.
    + exfalso. revert H.
      apply (push_back_loop_throws (fun _ => False)).
      intros j s w s'. discriminate.
    + injection H as <- _. eapply generateRandomNumber_throws; eassumption.
  - exfalso. revert H. apply (push_back_loop_throws (fun _ => False)).
    intros j s w s'. discriminate.
  - exfalso. revert H. apply (push_back_loop_throws (fun _ => False)).
    intros j s w s'. discriminate.
  - right. unfold lift in H. injection H as H _. congruence.
Qed.

(** ** One run *)

(** The body of the loop, by the cases of its generation and of its sort. *)
Lemma run_body_cases (fuel : nat) (env : environment) (c : config)
  (alg : ISortAlgorithm) (run : Z) (p : process) :
  run_body fuel env c alg run p =
  match generate c (generator p) with
  | (Ret sequence, g') =>
      match sort fuel alg sequence with
      | Ret output =>
          (Ret tt,
           {| generator := g'; readings := S (S (readings p)); csv := csv p;
              written :=
                written p ++
                [row run (elapsed_micros (clock env (S (readings p))
                                          - clock env (readings p)))];
              closed := closed p;
              observed :=
                (observed p ++ [Generated run sequence]) ++ [Sorted run output] |})
      | stopped =>
          (failed_as stopped,
           {| generator := g'; readings := S (readings p); csv := csv p;
              written := written p; closed := closed p;
              observed := observed p ++ [Generated run sequence] |})
      end
  | (stopped, g') =>
      (failed_as stopped,
       {| generator := g'; readings := readings p; csv := csv p;
          written := written p; closed := closed p; observed := observed p |})
  end.
Proof.
  unfold run_body, sbind, with_generator, observe, now, lift, fprintf, reset.
  destruct (generate c (generator p)) as [[sequence | w | |] g']; try reflexivity.
  cbn.
  destruct (sort fuel alg sequence) as [output | w | |]; try reflexivity.
  cbn. rewrite validateSequence_accepts. reflexivity.
Qed.

(** ** The loop over the runs *)

Lemma run_body_completes (fuel : nat) (env : environment) (c : config)
  (alg : ISortAlgorithm) (k : nat) (p : process) :
  generation_returns c -> sort_returns fuel alg c ->
  readings p = (2 * k)%nat ->
  exists p',
    run_body fuel env c alg (Z.of_nat k) p = (Ret tt, p') /\
    written p' = written p ++ [row (Z.of_nat k) (elapsed env k)] /\
    readings p' = (2 * S k)%nat /\
    csv p' = csv p /\ closed p' = closed p.
Proof.
  intros Hgen Hsort Hr.
  destruct (Hgen (generator p)) as (sequence & g' & Hg).
  destruct (Hsort _ _ _ Hg) as (output & Hs).
  rewrite run_body_cases, Hg, Hs.
  eexists. split; [reflexivity |]. cbn.
  unfold elapsed. rewrite Hr.
  repeat split. lia.
Qed.

Lemma for_runs_completes (fuel : nat) (env : environment) (c : config)
  (alg : ISortAlgorithm) (n k : nat) (p : process) :
  generation_returns c -> sort_returns fuel alg c ->
  readings p = (2 * k)%nat ->
  exists p',
    for_runs n (Z.of_nat k) (run_body fuel env c alg) p = (Ret tt, p') /\
    written p' = written p ++ rows env k n /\
    csv p' = csv p /\ closed p' = closed p.
Proof.
  intros Hgen Hsort. revert k p.
  induction n as [| n IH]; intros k p Hr.
  - exists p. unfold rows. simpl. rewrite app_nil_r. repeat split.
  - destruct (run_body_completes fuel env c alg k p Hgen Hsort Hr)
      as (p1 & Hrun & Hw1 & Hr1 & Hcsv1 & Hcl1).
    destruct (IH (S k) p1 Hr1) as (p2 & Hloop & Hw2 & Hcsv2 & Hcl2).
    exists p2. cbn [for_runs]. unfold sbind. rewrite Hrun.
    replace (Z.of_nat k + 1) with (Z.of_nat (S k)) by lia.
    rewrite Hloop. split; [reflexivity |].
    rewrite Hw2, Hw1, Hcsv2, Hcl2. unfold rows. cbn [seq map].
    rewrite <- app_assoc. repeat split; assumption.
Qed.

(** Under a configuration whose generation and sort return, and with the
    result file opened, [main] finishes: the header and one row per run. *)
Lemma main_completes (fuel : nat) (env : environment) (c : config)
  (alg : ISortAlgorithm) :
  select_algorithm c = Ret alg ->
  fopen_succeeds env = true ->
  generation_returns c -> sort_returns fuel alg c ->
  exists p,
    main fuel env c start = (Ret tt, p) /\
    written p = header :: rows env 0 (Z.to_nat (_runs c)) /\
    csv p = Some (csvFileName c) /\ closed p = true.
Proof.
  intros Halg Hopen Hgen Hsort.
  unfold main, sbind, srand_call, with_generator, lift, fopen, fprintf.
  cbn. rewrite Halg, Hopen.
  match goal with
  | |- context [for_runs ?n 0 ?body ?q] =>
      destruct (for_runs_completes fuel env c alg n 0 q Hgen Hsort eq_refl)
        as (p1 & Hloop & Hw & Hcsv & Hcl)
  end.
  change (Z.of_nat 0) with 0 in Hloop. rewrite Hloop.
  unfold fclose. eexists. split; [reflexivity |]. cbn.
  rewrite Hw, Hcsv. cbn. unfold trips. rewrite Z.sub_0_r. repeat split.
Qed.

Lemma run_body_never_fails_validation (fuel : nat) (env : environment)
  (c : config) (alg : ISortAlgorithm) (run : Z) (p : process) :
  fst (run_body fuel env c alg run p) <> Throw "sorting failed!".
Proof.
  rewrite run_body_cases.
  destruct (generate c (generator p)) as [[sequence | w | |] g'] eqn:Hg;
    try (cbn; discriminate).
  - destruct (sort fuel alg sequence) as [output | w | |] eqn:Hs;
      try (cbn; discriminate).
    exfalso. exact (no_throw_sort _ _ _ _ Hs).
  - apply generate_throws in Hg. cbn. intros H. injection H as ->.
    destruct Hg; discriminate.
Qed.

Lemma for_runs_never_fails_validation (fuel : nat) (env : environment)
  (c : config) (alg : ISortAlgorithm) (n : nat) (run : Z) (p : process) :
  fst (for_runs n run (run_body fuel env c alg) p) <> Throw "sorting failed!".
Proof.
  revert run p.
  induction n as [| n IH]; intros run p; cbn [for_runs].
  - cbn. discriminate.
  - unfold sbind.
    pose proof (run_body_never_fails_validation fuel env c alg run p) as Hb.
    destruct (run_body fuel env c alg run p) as [[[] | w | |] p1];
      try (cbn; discriminate).
    + apply IH.
    + exact Hb.
Qed.

Lemma main_never_fails_validation (fuel : nat) (env : environment)
  (c : config) (p : process) :
  fst (main fuel env c p) <> Throw "sorting failed!".
Proof.
  unfold main, sbind, srand_call, with_generator, lift, fopen, fprintf.
  cbn.
  destruct (select_algorithm c) as [alg | w | |] eqn:Halg; try (cbn; discriminate).
  - destruct (fopen_succeeds env); [| cbn; discriminate].
    match goal with
    | |- context [for_runs ?n ?r ?body ?q] =>
        pose proof (for_runs_never_fails_validation fuel env c alg n r q) as Hl;
        destruct (for_runs n r body q) as [[[] | w | |] p1]
    end; try (cbn; discriminate).
    exact Hl.
  - unfold select_algorithm in Halg.
    repeat match type of Halg with
           | (if ?b then _ else _) = _ => destruct b; try discriminate
           end.
    injection Halg as <-. cbn. discriminate.
Qed.

(** C9: the validator answers true on every sequence, and [main] never ends
    in the exception "sorting failed!", whatever the configuration. That does
    not make every valid configuration complete its runs: with the policy
    SAME between the bounds 0 and [INT_MAX], in order, [generateRandomNumber]
    adds one to the upper bound, finds the lower bound above the sum and
    throws in the first of the two runs, whatever the clock shows; the file
    was handed the header and no row. *)
Theorem validation_never_stops_the_runs_but_generation_does :
  (forall sequence : list Z, validateSequence sequence = Ret true) /\
  (forall (fuel : nat) (env : environment) (c : config) (p0 : process),
      fst (main fuel env c p0) <> Throw "sorting failed!") /\
  (0 <= _sequenceSize widest_bounds_same /\
   _lowerBound widest_bounds_same <= _upperBound widest_bounds_same <= INT_MAX /\
   0 < _runs widest_bounds_same) /\
  forall (fuel : nat) (ticks : nat -> Z),
    main fuel {| clock := ticks; fopen_succeeds := true |}
      widest_bounds_same start
    = (Throw "cannot generate random number",
       {| generator := srand (_seed widest_bounds_same mod 4294967296);
          readings := 0; csv := Some (csvFileName widest_bounds_same);
          written := [header]; closed := false; observed := [] |}).
Proof.
  split; [exact validateSequence_accepts |].
  split; [intros fuel env c p0; apply main_never_fails_validation |].
  split; [unfold INT_MAX; cbn; lia |].
  intros fuel ticks. reflexivity.
Qed.

(** C6: a configuration with [runs = 5], a valid policy and algorithm and
    bounds in order is claimed to write the header and five rows. With the
    policy RANDOM between the bounds 0 and [INT_MAX], [generateRandomNumber]
    adds one to the upper bound before it compares the bounds, finds the
    lower bound above the sum and throws at the first draw of the first run,
    whatever the clock shows: the file was handed the header and none of the
    five rows, and is left open. *)
Theorem five_runs_stop_at_the_first_draw :
  (_runs widest_bounds = 5 /\
   0 <= _sequenceSize widest_bounds /\
   _lowerBound widest_bounds <= _upperBound widest_bounds <= INT_MAX) /\
  forall (fuel : nat) (ticks : nat -> Z),
    main fuel {| clock := ticks; fopen_succeeds := true |} widest_bounds start
    = (Throw "cannot generate random number",
       {| generator := srand (_seed widest_bounds mod 4294967296);
          readings := 0; csv := Some (csvFileName widest_bounds);
          written := [header]; closed := false; observed := [] |}).
Proof.
  split; [unfold INT_MAX; cbn; lia |].
  intros fuel ticks. reflexivity.
Qed.

(** ** Two executions of one configuration *)

Lemma run_body_agree (fuel : nat) (env1 env2 : environment) (c : config)
  (alg : ISortAlgorithm) (run : Z) (p1 p2 : process) :
  agree p1 p2 ->
  fst (run_body fuel env1 c alg run p1) = fst (run_body fuel env2 c alg run p2) /\
  agree (snd (run_body fuel env1 c alg run p1))
        (snd (run_body fuel env2 c alg run p2)).
Proof.
  intros [Hg Ho]. rewrite !run_body_cases, Hg.
  destruct (generate c (generator p2)) as [[sequence | w | |] g'];
    try (cbn; repeat split; assumption).
  destruct (sort fuel alg sequence) as [output | w | |];
    cbn; rewrite Ho; repeat split.
Qed.

Lemma for_runs_agree (fuel : nat) (env1 env2 : environment) (c : config)
  (alg : ISortAlgorithm) (n : nat) (run : Z) (p1 p2 : process) :
  agree p1 p2 ->
  fst (for_runs n run (run_body fuel env1 c alg) p1)
    = fst (for_runs n run (run_body fuel env2 c alg) p2) /\
  agree (snd (for_runs n run (run_body fuel env1 c alg) p1))
        (snd (for_runs n run (run_body fuel env2 c alg) p2)).
Proof.
  revert run p1 p2.
  induction n as [| n IH]; intros run p1 p2 Hag; cbn [for_runs].
  - cbn. split; [reflexivity | exact Hag].
  - unfold sbind.
    destruct (run_body_agree fuel env1 env2 c alg run p1 p2 Hag) as [Hfst Hsnd].
    destruct (run_body fuel env1 c alg run p1) as [r1 q1].
    destruct (run_body fuel env2 c alg run p2) as [r2 q2].
    cbn in Hfst, Hsnd. subst r2.
    destruct r1 as [[] | w | |]; try (cbn; split; [reflexivity | exact Hsnd]).
    apply IH. exact Hsnd.
Qed.

Lemma main_agree (fuel : nat) (env1 env2 : environment) (c : config)
  (p : process) :
  fopen_succeeds env1 = fopen_succeeds env2 ->
  fst (main fuel env1 c p) = fst (main fuel env2 c p) /\
  agree (snd (main fuel env1 c p)) (snd (main fuel env2 c p)).
Proof.
  intros Hopen.
  unfold main, sbind, srand_call, with_generator, lift, fopen, fprintf.
  cbn. rewrite Hopen.
  destruct (select_algorithm c) as [alg | w | |];
    [| cbn; repeat split ..].
  destruct (fopen_succeeds env2); [| cbn; repeat split].
  match goal with
  | |- context [for_runs ?n ?r (run_body fuel env1 c alg) ?q] =>
      destruct (for_runs_agree fuel env1 env2 c alg n r q q (conj eq_refl eq_refl))
        as [Hfst Hsnd];
      destruct (for_runs n r (run_body fuel env1 c alg) q) as [r1 q1];
      destruct (for_runs n r (run_body fuel env2 c alg) q) as [r2 q2]
  end.
  cbn in Hfst, Hsnd. subst r2.
  destruct Hsnd as [Hg Ho].
  destruct r1 as [[] | w | |]; cbn; repeat split; assumption.
Qed.

(** C7: two executions of one configuration, whatever the clock shows in
    each, make the same observations: at every run index the same sequence is
    generated (and the same outcome is reached). *)
Theorem same_configuration_generates_same_sequences (fuel : nat)
  (env1 env2 : environment) (c : config) :
  fopen_succeeds env1 = fopen_succeeds env2 ->
  fst (main fuel env1 c start) = fst (main fuel env2 c start) /\
  observed (snd (main fuel env1 c start)) = observed (snd (main fuel env2 c start)) /\
  forall run : Z,
    generated_in (observed (snd (main fuel env1 c start))) run
    = generated_in (observed (snd (main fuel env2 c start))) run.
Proof.
  intros Hopen.
  destruct (main_agree fuel env1 env2 c start Hopen) as [Hfst [_ Ho]].
  repeat split; try assumption.
  intros run. rewrite Ho. reflexivity.
Qed.

(** ** Loops over the elements of a sequence *)

Lemma bind_Ret_inv {A B : Type} (c : outcome A) (k : A -> outcome B) (b : B) :
  bind c k = Ret b -> exists a, c = Ret a /\ k a = Ret b.
Proof.
  destruct c as [a | w | |]; simpl; intros H; try discriminate.
  exists a. split; [reflexivity | exact H].
Qed.

Lemma load_middle (pre rest : list Z) (x : Z) :
  load (pre ++ x :: rest) (Z.of_nat (length pre)) = Ret x.
Proof.
  unfold load.
  destruct (Z.ltb_spec (Z.of_nat (length pre)) 0) as [Hneg | _]; [lia |].
  rewrite Nat2Z.id, list_lookup_middle by reflexivity. reflexivity.
Qed.

(** A loop that reads [sequence[i]] for each index in turn visits the
    elements in order. *)
Lemma for_up_load {St : Type} (f : Z -> St -> outcome St) (pre rest : list Z)
  (s : St) :
  for_up (length rest) (Z.of_nat (length pre))
    (fun i s => x <- load (pre ++ rest) i ;; f x s) s
  = for_each rest f s.
Proof.
  revert pre s.
  induction rest as [| x rest IH]; intros pre s; [reflexivity |].
  cbn [length for_up for_each].
  rewrite load_middle. cbn [bind].
  destruct (f x s) as [s' | w | |]; try reflexivity.
  cbn [bind].
  specialize (IH (pre ++ [x]) s').
  rewrite <- app_assoc in IH. cbn [app] in IH.
  rewrite length_app in IH. cbn [length] in IH.
  replace (Z.of_nat (length pre + 1)) with (Z.of_nat (length pre) + 1) in IH by lia.
  exact IH.
Qed.

Lemma trips_size (sequence : list Z) : trips 0 (size sequence) = length sequence.
Proof. unfold trips, size. lia. Qed.

(** ** Counting sort leaves defined behaviour outside [0, max] *)

Lemma count_occurrences_in_range (l count count' : list Z) :
  for_each l (fun x count => n <- load count x ;; store count x (n + 1)) count
    = Ret count' ->
  Forall (fun x => 0 <= x < Z.of_nat (length count)) l /\
  length count' = length count.
Proof.
  revert count.
  induction l as [| x l IH]; intros count H; cbn [for_each] in H.
  - injection H as <-. split; [constructor | reflexivity].
  - apply bind_Ret_inv in H. destruct H as (count1 & Hstep & Hrest).
    apply bind_Ret_inv in Hstep. destruct Hstep as (n & Hload & Hstore).
    unfold store in Hstore.
    destruct ((0 <=? x) && (x <? Z.of_nat (length count))) eqn:E;
      [| discriminate].
    injection Hstore as <-.
    apply andb_true_iff in E. destruct E as [E1 E2].
    apply Z.leb_le in E1. apply Z.ltb_lt in E2.
    apply IH in Hrest. destruct Hrest as [Hall Hlen].
    rewrite length_insert in Hall, Hlen.
    split; [| exact Hlen].
    constructor; [lia | exact Hall].
Qed.

Lemma CountSort_sort_returns_only_in_range (max : Z) (sequence output : list Z) :
  int_range max ->
  CountSort_sort max sequence = Ret output ->
  Forall (fun x => 0 <= x <= max) sequence.
Proof.
  intros Hmax H. unfold CountSort_sort in H.
  apply bind_Ret_inv in H. destruct H as (out0 & _ & H).
  apply bind_Ret_inv in H. destruct H as (count0 & Hzero & H).
  apply bind_Ret_inv in H. destruct H as (count1 & Hcount & _).
  unfold zeroed_array in Hzero.
  destruct (Z.ltb_spec (wrap (max + 1)) 0) as [| Hneg]; [discriminate |].
  injection Hzero as <-.
  rewrite trips_size in Hcount.
  pose proof (for_up_load
                (fun x count => n <- load count x ;; store count x (n + 1))
                [] sequence) as Hloop.
  cbn [app length] in Hloop. change (Z.of_nat 0) with 0 in Hloop.
  rewrite Hloop in Hcount.
  apply count_occurrences_in_range in Hcount. destruct Hcount as [Hall _].
  rewrite length_replicate in Hall.
  assert (Hwrap : wrap (max + 1) = max + 1).
  { unfold wrap, int_range, INT_MIN, INT_MAX in *.
    destruct (Z.eq_dec max 2147483647) as [-> | Hne].
    - exfalso. vm_compute in Hneg. apply Hneg. reflexivity.
    - rewrite Z.mod_small by lia. lia. }
  rewrite Hwrap in Hall.
  eapply Forall_impl; [exact Hall |].
  cbv beta. intros x Hx. lia.
Qed.

End Claims.

(** * The strategies on the inputs they handle *)

Lemma strongly_sorted_non_decreasing (l : list Z) :
  StronglySorted Z.le l -> non_decreasing l.
Proof.
  intros Hs. induction Hs as [| a l Hs IH Hall]; intros i x y Hx Hy.
  - discriminate.
  - destruct i as [| i]; cbn in Hx, Hy.
    + injection Hx as <-.
      rewrite Forall_forall in Hall. apply Hall.
      eapply list_elem_of_lookup_2. exact Hy.
    + eapply IH; eassumption.
Qed.

Lemma store_middle (pre rest : list Z) (x b : Z) :
  store (pre ++ x :: rest) (Z.of_nat (length pre)) b = Ret (pre ++ b :: rest).
Proof.
  unfold store. rewrite length_app. cbn [length].
  destruct (Z.leb_spec 0 (Z.of_nat (length pre))); [| lia].
  destruct (Z.ltb_spec (Z.of_nat (length pre))
              (Z.of_nat (length pre + S (length rest)))); [| lia].
  cbn [andb]. rewrite Nat2Z.id.
  replace (length pre) with (length pre + 0)%nat at 1 by lia.
  rewrite insert_app_r. reflexivity.
Qed.

(** ** BubbleSort: an exchange sort *)

Lemma load_at (l pre rest : list Z) (x i : Z) :
  l = pre ++ x :: rest -> i = Z.of_nat (length pre) -> load l i = Ret x.
Proof. intros -> ->. apply load_middle. Qed.

Lemma store_at (l pre rest : list Z) (x b i : Z) :
  l = pre ++ x :: rest -> i = Z.of_nat (length pre) ->
  store l i b = Ret (pre ++ b :: rest).
Proof. intros -> ->. apply store_middle. Qed.

Lemma exchange_if_greater_middle (pre done todo : list Z) (x y : Z) :
  exchange_if_greater (Z.of_nat (length pre))
    (Z.of_nat (length pre + 1 + length done))
    (pre ++ x :: done ++ y :: todo)
  = Ret (if x >? y then pre ++ y :: done ++ x :: todo
         else pre ++ x :: done ++ y :: todo).
Proof.
  assert (Hlen : forall a, Z.of_nat (length pre + 1 + length done)
                           = Z.of_nat (length (pre ++ a :: done))).
  { intros a. rewrite length_app. cbn [length]. lia. }
  unfold exchange_if_greater.
  rewrite load_middle. cbn [bind].
  rewrite (load_at _ (pre ++ x :: done) todo y);
    [| rewrite <- app_assoc; reflexivity | apply Hlen].
  cbn [bind].
  destruct (x >? y); [| reflexivity].
  rewrite store_middle. cbn [bind].
  rewrite (store_at _ (pre ++ y :: done) todo y x);
    [| rewrite <- app_assoc; reflexivity | apply Hlen].
  rewrite <- app_assoc. reflexivity.
Qed.

Lemma inner_loop_exchange_pass (pre done todo : list Z) (x : Z) :
  for_up (length todo) (Z.of_nat (length pre + 1 + length done))
    (fun j s => exchange_if_greater (Z.of_nat (length pre)) j s)
    (pre ++ x :: done ++ todo)
  = Ret (pre ++ fst (exchange_pass x todo) :: done ++ snd (exchange_pass x todo)).
Proof.
  revert x done.
  induction todo as [| y todo IH]; intros x done; [reflexivity |].
  cbn [length for_up exchange_pass].
  rewrite exchange_if_greater_middle. cbn [bind].
  replace (Z.of_nat (length pre + 1 + length done) + 1)
    with (Z.of_nat (length pre + 1 + length (done ++ [x]))) at 1
    by (rewrite length_app; cbn [length]; lia).
  replace (Z.of_nat (length pre + 1 + length (done ++ [x])))
    with (Z.of_nat (length pre + 1 + length (done ++ [y])))
    by (rewrite !length_app; cbn [length]; lia).
  destruct (x >? y); cbn [fst snd].
  - specialize (IH y (done ++ [x])).
    rewrite <- !app_assoc in IH. cbn [app] in IH.
    rewrite !length_app in IH |- *. cbn [length] in IH |- *. exact IH.
  - specialize (IH x (done ++ [y])).
    rewrite <- !app_assoc in IH. cbn [app] in IH. exact IH.
Qed.

Lemma outer_loop_exchange_sort (k : nat) (pre l : list Z) :
  for_up k (Z.of_nat (length pre))
    (fun i s =>
       for_up (trips (i + 1) (size s)) (i + 1)
         (fun j s' => exchange_if_greater i j s') s)
    (pre ++ l)
  = Ret (pre ++ exchange_sort k l).
Proof.
  revert pre l.
  induction k as [| k IH]; intros pre l; [reflexivity |].
  cbn [for_up exchange_sort].
  destruct l as [| x rest].
  - replace (trips (Z.of_nat (length pre) + 1) (size (pre ++ []))) with 0%nat
      by (unfold trips, size; rewrite length_app; cbn [length]; lia).
    cbn [for_up bind].
    specialize (IH pre []). destruct k; [exact IH |].
    rewrite app_nil_r in *.
    (* the remaining iterations find no element after their position *)
    clear IH. revert pre.
    assert (H : forall (n : nat) (i : Z) (s : list Z),
               Z.of_nat (length s) <= i ->
               for_up n i
                 (fun i s =>
                    for_up (trips (i + 1) (size s)) (i + 1)
                      (fun j s' => exchange_if_greater i j s') s) s = Ret s).
    { induction n as [| n IHn]; intros i s Hi; [reflexivity |].
      cbn [for_up].
      replace (trips (i + 1) (size s)) with 0%nat by (unfold trips, size; lia).
      cbn [for_up bind]. apply IHn. lia. }
    intros pre. apply H. lia.
  - replace (trips (Z.of_nat (length pre) + 1) (size (pre ++ x :: rest)))
      with (length rest)
      by (unfold trips, size; rewrite length_app; cbn [length]; lia).
    pose proof (inner_loop_exchange_pass pre [] rest x) as Hin.
    cbn [app length] in Hin.
    replace (Z.of_nat (length pre + 1 + 0)) with (Z.of_nat (length pre) + 1)
      in Hin by lia.
    rewrite Hin. cbn [bind].
    specialize (IH (pre ++ [fst (exchange_pass x rest)]) (snd (exchange_pass x rest))).
    rewrite <- !app_assoc in IH. cbn [app] in IH.
    rewrite length_app in IH. cbn [length] in IH.
    replace (Z.of_nat (length pre + 1)) with (Z.of_nat (length pre) + 1) in IH by lia.
    exact IH.
Qed.

Lemma BubbleSort_sort_exchange_sort (sequence : list Z) :
  sequence <> [] ->
  BubbleSort_sort sequence = Ret (exchange_sort (length sequence - 1) sequence).
Proof.
  intros Hne. unfold BubbleSort_sort.
  destruct sequence as [| x rest] eqn:Hseq; [congruence |]. rewrite <- Hseq.
  replace (trips 0 (size sequence - 1)) with (length sequence - 1)%nat
    by (unfold trips, size; lia).
  exact (outer_loop_exchange_sort (length sequence - 1) [] sequence).
Qed.

Lemma exchange_pass_permutation (x : Z) (l : list Z) :
  Permutation (fst (exchange_pass x l) :: snd (exchange_pass x l)) (x :: l).
Proof.
  revert x. induction l as [| y l IH]; intros x; cbn [exchange_pass].
  - reflexivity.
  - destruct (x >? y); cbn [fst snd].
    + etransitivity; [apply perm_swap |]. apply perm_skip, IH.
    + etransitivity; [apply perm_swap |].
      etransitivity; [apply perm_skip, IH | apply perm_swap].
Qed.

Lemma exchange_pass_least (x : Z) (l : list Z) :
  fst (exchange_pass x l) <= x /\
  Forall (fun y => fst (exchange_pass x l) <= y) (snd (exchange_pass x l)).
Proof.
  revert x. induction l as [| y l IH]; intros x; cbn [exchange_pass].
  - split; [cbn; lia | constructor].
  - destruct (Z.gtb_spec x y) as [Hgt | Hle]; cbn [fst snd].
    + destruct (IH y) as [Hm Hall]. split; [lia |].
      constructor; [lia | exact Hall].
    + destruct (IH x) as [Hm Hall]. split; [lia |].
      constructor; [lia | exact Hall].
Qed.

Lemma exchange_sort_permutation (k : nat) (l : list Z) :
  Permutation (exchange_sort k l) l.
Proof.
  revert l. induction k as [| k IH]; intros l; cbn [exchange_sort].
  - reflexivity.
  - destruct l as [| x rest]; [reflexivity |].
    rewrite IH. apply exchange_pass_permutation.
Qed.

Lemma exchange_sort_sorted (k : nat) (l : list Z) :
  (length l <= S k)%nat -> StronglySorted Z.le (exchange_sort k l).
Proof.
  revert l. induction k as [| k IH]; intros l Hlen; cbn [exchange_sort].
  - destruct l as [| x [| y l]]; cbn in Hlen; try lia.
    + constructor.
    + repeat constructor.
  - destruct l as [| x rest]; [constructor |].
    pose proof (exchange_pass_permutation x rest) as Hperm.
    destruct (exchange_pass_least x rest) as [_ Hall].
    constructor.
    + apply IH.
      apply Permutation_length in Hperm. cbn in Hperm, Hlen. lia.
    + eapply Permutation_Forall; [| exact Hall].
      symmetry. apply exchange_sort_permutation.
Qed.

(** Bubble sort returns a sorted permutation of every non-empty sequence. *)
Lemma BubbleSort_sort_correct (sequence : list Z) :
  sequence <> [] ->
  exists output,
    BubbleSort_sort sequence = Ret output /\ sorted_permutation output sequence.
Proof.
  intros Hne. exists (exchange_sort (length sequence - 1) sequence).
  split; [apply BubbleSort_sort_exchange_sort; exact Hne |].
  split.
  - apply strongly_sorted_non_decreasing, exchange_sort_sorted. lia.
  - apply exchange_sort_permutation.
Qed.

(** ** Counting sort by a key

    Both [CountSort::sort] and [RadixSort::countSort] tally the elements by a
    key, turn the tallies into the end positions of the buckets, and then
    place each element at the end of what is left of its bucket. *)

Section Counting.

Variable key : Z -> Z.
Variable K : nat.
Variable stored : Z -> Z.

#[local] Abbreviation keyed := (keyed key).
#[local] Abbreviation occ := (occ key).
#[local] Abbreviation below := (below key).
#[local] Abbreviation upto := (upto key).
#[local] Abbreviation buckets := (buckets key).
#[local] Abbreviation keys_in_range := (keys_in_range key K).
#[local] Abbreviation counts_are := (counts_are K).
#[local] Abbreviation place := (place stored).
#[local] Abbreviation placed := (placed key K stored).

Lemma occ_nonneg (d : Z) (l : list Z) : 0 <= occ d l.
Proof. unfold occ. lia. Qed.

Lemma occ_app (d : Z) (l1 l2 : list Z) : occ d (l1 ++ l2) = occ d l1 + occ d l2.
Proof. unfold occ, keyed. rewrite filter_app, length_app. lia. Qed.

Lemma occ_cons (d x : Z) (l : list Z) :
  occ d (x :: l) = (if decide (key x = d) then 1 else 0) + occ d l.
Proof.
  unfold occ, keyed. rewrite filter_cons.
  destruct (decide (key x = d)); cbn [length]; lia.
Qed.

Lemma occ_reverse (d : Z) (l : list Z) : occ d (reverse l) = occ d l.
Proof. unfold occ, keyed. rewrite filter_reverse, length_reverse. reflexivity. Qed.

Lemma below_reverse (d : Z) (l : list Z) : below d (reverse l) = below d l.
Proof. unfold below. rewrite filter_reverse, length_reverse. reflexivity. Qed.

Lemma below_succ (d : Z) (l : list Z) : below (d + 1) l = below d l + occ d l.
Proof.
  unfold below, occ, keyed.
  induction l as [| x l IH]; [reflexivity |].
  rewrite !filter_cons.
  destruct (decide (key x < d + 1)), (decide (key x < d)), (decide (key x = d));
    cbn [length]; lia.
Qed.

Lemma below_mono (d1 d2 : Z) (l : list Z) : d1 <= d2 -> below d1 l <= below d2 l.
Proof.
  intros Hd. unfold below. apply Nat2Z.inj_le.
  induction l as [| x l IH]; [cbn; lia |].
  rewrite !filter_cons.
  destruct (decide (key x < d1)), (decide (key x < d2)); cbn [length]; lia.
Qed.

Lemma below_zero (l : list Z) : keys_in_range l -> below 0 l = 0.
Proof.
  unfold below. induction 1 as [| x l Hx Hl IH]; [reflexivity |].
  rewrite filter_cons. destruct (decide (key x < 0)); [lia | exact IH].
Qed.

Lemma below_all (l : list Z) :
  keys_in_range l -> below (Z.of_nat K) l = Z.of_nat (length l).
Proof.
  unfold below. induction 1 as [| x l Hx Hl IH]; [reflexivity |].
  rewrite filter_cons. destruct (decide (key x < Z.of_nat K)); [| lia].
  cbn [length]. lia.
Qed.

Lemma keys_in_range_reverse (l : list Z) :
  keys_in_range l -> keys_in_range (reverse l).
Proof.
  unfold keys_in_range. intros H.
  eapply Permutation_Forall; [| exact H].
  symmetry. apply reverse_Permutation.
Qed.

Lemma length_buckets (n : nat) (d0 : Z) (l : list Z) :
  Z.of_nat (length (buckets n d0 l)) = below (d0 + Z.of_nat n) l - below d0 l.
Proof.
  revert d0. induction n as [| n IH]; intros d0; cbn [buckets].
  - rewrite Z.add_0_r. cbn [length]. lia.
  - rewrite length_app, Nat2Z.inj_add, IH, below_succ.
    replace (d0 + 1 + Z.of_nat n) with (d0 + Z.of_nat (S n)) by lia.
    unfold occ. lia.
Qed.

(** Where the [j]-th element of bucket [d] stands. *)
Lemma buckets_lookup_keyed (n : nat) (d0 d : Z) (l : list Z) (j : nat) (y : Z) :
  d0 <= d < d0 + Z.of_nat n ->
  keyed d l !! j = Some y ->
  buckets n d0 l !! Z.to_nat (below d l - below d0 l + Z.of_nat j) = Some y.
Proof.
  revert d0. induction n as [| n IH]; intros d0 Hd Hj; [lia |].
  cbn [buckets].
  destruct (Z.eq_dec d d0) as [-> | Hne].
  - replace (Z.to_nat (below d0 l - below d0 l + Z.of_nat j)) with j by lia.
    apply lookup_app_l_Some. exact Hj.
  - assert (Hle : below d0 l + occ d0 l <= below d l).
    { rewrite <- below_succ. apply below_mono. lia. }
    rewrite lookup_app_r by (unfold occ in Hle; lia).
    specialize (IH (d0 + 1) ltac:(lia) Hj).
    rewrite below_succ in IH.
    replace (Z.to_nat (below d l - below d0 l + Z.of_nat j) - length (keyed d0 l))%nat
      with (Z.to_nat (below d l - (below d0 l + occ d0 l) + Z.of_nat j))
      by (unfold occ in *; lia).
    exact IH.
Qed.

(** Which element stands at a position. *)
Lemma buckets_lookup_inv (n : nat) (d0 : Z) (l : list Z) (k : nat) (y : Z) :
  buckets n d0 l !! k = Some y ->
  d0 <= key y < d0 + Z.of_nat n /\
  below (key y) l - below d0 l <= Z.of_nat k
    < below (key y) l - below d0 l + occ (key y) l /\
  y ∈ l.
Proof.
  revert d0 k. induction n as [| n IH]; intros d0 k Hk; cbn [buckets] in Hk.
  - discriminate.
  - apply lookup_app_Some in Hk. destruct Hk as [Hk | [Hlen Hk]].
    + pose proof (lookup_lt_Some _ _ _ Hk) as Hlt.
      apply list_elem_of_lookup_2 in Hk.
      apply list_elem_of_filter in Hk. destruct Hk as [Hkey Hin].
      rewrite Hkey. unfold occ. repeat split; try lia. exact Hin.
    + apply IH in Hk. destruct Hk as (Hrange & Hpos & Hin).
      rewrite below_succ in Hpos. unfold occ in *.
      repeat split; try lia. exact Hin.
Qed.

Lemma buckets_permutation (n : nat) (d0 : Z) (l : list Z) :
  Permutation (buckets n d0 l)
    (filter (fun y => d0 <= key y < d0 + Z.of_nat n) l).
Proof.
  revert d0. induction n as [| n IH]; intros d0; cbn [buckets].
  - induction l as [| x l IHl]; [reflexivity |].
    rewrite filter_cons. destruct (decide _); [lia | exact IHl].
  - rewrite IH. unfold keyed. clear IH.
    induction l as [| x l IHl]; [reflexivity |].
    rewrite !filter_cons.
    destruct (decide (key x = d0)), (decide (d0 + 1 <= key x < d0 + 1 + Z.of_nat n)),
      (decide (d0 <= key x < d0 + Z.of_nat (S n))); try lia.
    + cbn [app]. apply perm_skip. exact IHl.
    + rewrite <- Permutation_middle. apply perm_skip. exact IHl.
    + exact IHl.
Qed.

Lemma buckets_all_permutation (l : list Z) :
  keys_in_range l -> Permutation (buckets K 0 l) l.
Proof.
  intros Hl. rewrite buckets_permutation.
  induction Hl as [| x l Hx Hl IH]; [reflexivity |].
  rewrite filter_cons. destruct (decide _); [| lia].
  apply perm_skip. exact IH.
Qed.

(** *** The table of counters *)

Lemma counts_are_ext (count : list Z) (g g' : Z -> Z) :
  counts_are count g ->
  (forall d : Z, 0 <= d < Z.of_nat K -> g d = g' d) ->
  counts_are count g'.
Proof.
  intros [Hlen Hg] Heq. split; [exact Hlen |].
  intros d Hd. rewrite <- Heq by exact Hd. apply Hg, Hd.
Qed.

Lemma load_counts (count : list Z) (g : Z -> Z) (d : Z) :
  counts_are count g -> 0 <= d < Z.of_nat K -> load count d = Ret (g d).
Proof.
  intros [_ Hg] Hd. unfold load.
  destruct (Z.ltb_spec d 0); [lia |].
  rewrite Hg by exact Hd. reflexivity.
Qed.

Lemma store_counts (count : list Z) (g : Z -> Z) (d v : Z) :
  counts_are count g -> 0 <= d < Z.of_nat K ->
  store count d v = Ret (<[Z.to_nat d := v]> count) /\
  counts_are (<[Z.to_nat d := v]> count)
    (fun d' => if decide (d' = d) then v else g d').
Proof.
  intros [Hlen Hg] Hd. split.
  - unfold store. rewrite Hlen.
    destruct (Z.leb_spec 0 d); [| lia].
    destruct (Z.ltb_spec d (Z.of_nat K)); [| lia].
    reflexivity.
  - split; [rewrite length_insert; exact Hlen |].
    intros d' Hd'. destruct (decide (d' = d)) as [-> | Hne].
    + apply list_lookup_insert_eq. lia.
    + rewrite list_lookup_insert_ne by lia. apply Hg, Hd'.
Qed.

(** *** First loop: the occurrences of each key *)

Lemma tally_all (keyc : Z -> outcome Z) (xs count : list Z) (g : Z -> Z) :
  Forall (fun x => keyc x = Ret (key x)) xs ->
  keys_in_range xs ->
  counts_are count g ->
  exists count',
    for_each xs (tally keyc) count = Ret count' /\
    counts_are count' (fun d => g d + occ d xs).
Proof.
  intros Hkeyc Hrange. revert count g.
  induction xs as [| x xs IH]; intros count g Hc.
  - exists count. split; [reflexivity |].
    eapply counts_are_ext; [exact Hc |]. intros d _. unfold occ. cbn. lia.
  - apply Forall_cons in Hkeyc. destruct Hkeyc as [Hx Hkeyc].
    apply Forall_cons in Hrange. destruct Hrange as [Hkx Hrange].
    cbn [for_each]. unfold tally at 1. rewrite Hx. cbn [bind].
    rewrite (load_counts count g) by assumption. cbn [bind].
    destruct (store_counts count g (key x) (g (key x) + 1) Hc Hkx) as [Hst Hc1].
    rewrite Hst. cbn [bind].
    destruct (IH Hkeyc Hrange _ _ Hc1) as (count' & Hloop & Hc').
    exists count'. split; [exact Hloop |].
    eapply counts_are_ext; [exact Hc' |].
    intros d _. cbv beta. rewrite occ_cons.
    destruct (decide (d = key x)) as [-> | Hne].
    + destruct (decide (key x = key x)); [lia | congruence].
    + destruct (decide (key x = d)); [congruence | lia].
Qed.

(** *** Second loop: the end position of each bucket *)

Lemma accumulate_all (xs : list Z) (n : nat) (i : Z) (count : list Z) :
  1 <= i -> i + Z.of_nat n = Z.of_nat K ->
  counts_are count (fun d => if d <? i then upto d xs else occ d xs) ->
  exists count',
    for_up n i accumulate count = Ret count' /\
    counts_are count' (fun d => upto d xs).
Proof.
  revert i count.
  induction n as [| n IH]; intros i count Hi HK Hc.
  - exists count. split; [reflexivity |].
    eapply counts_are_ext; [exact Hc |].
    intros d Hd. cbv beta. destruct (Z.ltb_spec d i); [reflexivity | lia].
  - cbn [for_up]. unfold accumulate at 1.
    rewrite (load_counts count _ i Hc) by lia. cbn [bind].
    rewrite (load_counts count _ (i - 1) Hc) by lia. cbn [bind].
    destruct (store_counts count _ i
                ((if i <? i then upto i xs else occ i xs)
                 + (if i - 1 <? i then upto (i - 1) xs else occ (i - 1) xs))
                Hc ltac:(lia)) as [Hst Hc1].
    rewrite Hst. cbn [bind].
    apply (IH (i + 1)); [lia | lia |].
    eapply counts_are_ext; [exact Hc1 |].
    intros d Hd. cbv beta.
    destruct (decide (d = i)) as [-> | Hne].
    + rewrite Z.ltb_irrefl.
      destruct (Z.ltb_spec (i - 1) i); [| lia].
      destruct (Z.ltb_spec i (i + 1)); [| lia].
      unfold upto.
      replace (below i xs) with (below (i - 1 + 1) xs) by (f_equal; lia).
      rewrite below_succ. lia.
    + destruct (Z.ltb_spec d i), (Z.ltb_spec d (i + 1)); try reflexivity; lia.
Qed.

Lemma accumulate_from_tallies (xs count : list Z) :
  keys_in_range xs ->
  counts_are count (fun d => occ d xs) ->
  exists count',
    for_up (K - 1) 1 accumulate count = Ret count' /\
    counts_are count' (fun d => upto d xs).
Proof.
  intros Hrange Hc.
  destruct K as [| K'] eqn:HK.
  - exists count. split; [reflexivity |].
    destruct Hc as [Hlen _]. split; [exact Hlen |]. intros d Hd. lia.
  - rewrite <- HK in *.
    apply accumulate_all; [lia | lia |].
    eapply counts_are_ext; [exact Hc |].
    intros d Hd. cbv beta.
    destruct (Z.ltb_spec d 1); [| reflexivity].
    assert (d = 0) as -> by lia.
    unfold upto. rewrite below_zero by exact Hrange. lia.
Qed.

(** *** Third loop: each element to the end of what is left of its bucket *)

Lemma length_all_buckets (xs : list Z) :
  keys_in_range xs -> length (buckets K 0 (reverse xs)) = length xs.
Proof.
  intros Hrange. apply Nat2Z.inj.
  rewrite length_buckets, Z.add_0_l, !below_reverse.
  rewrite below_all, below_zero by exact Hrange. lia.
Qed.

Lemma placed_start (xs count : list Z) :
  keys_in_range xs ->
  counts_are count (fun d => upto d xs) ->
  placed xs [] (replicate (length xs) None) count.
Proof.
  intros Hrange Hc. split; [| split].
  - eapply counts_are_ext; [exact Hc |]. intros d _. unfold occ. cbn. lia.
  - apply length_replicate.
  - intros k y Hk.
    pose proof (lookup_lt_Some _ _ _ Hk) as Hlt.
    rewrite length_all_buckets in Hlt by exact Hrange.
    apply buckets_lookup_inv in Hk. destruct Hk as (_ & Hpos & _).
    rewrite !below_reverse, occ_reverse, (below_zero xs Hrange) in Hpos.
    rewrite lookup_replicate_2 by exact Hlt.
    destruct (decide _) as [Hle | _]; [| reflexivity].
    change (occ (key y) []) with 0 in Hle. unfold upto in Hle. lia.
Qed.

Lemma place_all (keyc : Z -> outcome Z) (xs done todo : list Z)
  (output : array) (count : list Z) :
  xs = done ++ todo ->
  Forall (fun x => keyc x = Ret (key x)) todo ->
  keys_in_range xs ->
  placed xs done output count ->
  exists output' count',
    for_each todo (place keyc) (output, count) = Ret (output', count') /\
    placed xs xs output' count'.
Proof.
  intros Hxs Hkeyc Hrange. revert done output count Hxs.
  induction todo as [| x todo IH]; intros done output count Hxs Hp.
  - rewrite app_nil_r in Hxs. subst done.
    exists output, count. split; [reflexivity | exact Hp].
  - apply Forall_cons in Hkeyc. destruct Hkeyc as [Hx Hkeyc].
    destruct Hp as (Hc & Hlen & Hout).
    assert (Hkx : 0 <= key x < Z.of_nat K).
    { unfold keys_in_range in Hrange. rewrite Forall_forall in Hrange.
      apply Hrange. subst xs. apply elem_of_app. right. apply elem_of_cons. left. reflexivity. }
    assert (Hocc : occ (key x) xs = occ (key x) done + 1 + occ (key x) todo).
    { subst xs. rewrite occ_app, occ_cons.
      destruct (decide (key x = key x)); [lia | congruence]. }
    (* the cell the element goes to holds it in the bucket order *)
    assert (Hcell : buckets K 0 (reverse xs)
                      !! Z.to_nat (upto (key x) xs - occ (key x) done - 1)
                    = Some x).
    { pose proof (buckets_lookup_keyed K 0 (key x) (reverse xs)
                    (length (keyed (key x) (reverse todo))) x) as Hb.
      rewrite !below_reverse, (below_zero xs Hrange) in Hb.
      replace (Z.to_nat (upto (key x) xs - occ (key x) done - 1))
        with (Z.to_nat (below (key x) xs - 0
                        + Z.of_nat (length (keyed (key x) (reverse todo))))).
      - apply Hb; [lia |].
        subst xs. rewrite reverse_app, reverse_cons. unfold keyed.
        rewrite !filter_app.
        rewrite (filter_cons_True (fun y => key y = key x) x []) by reflexivity.
        rewrite filter_nil, <- app_assoc. cbn [app].
        apply list_lookup_middle. reflexivity.
      - f_equal. unfold upto. rewrite Hocc.
        change (Z.of_nat (length (keyed (key x) (reverse todo))))
          with (occ (key x) (reverse todo)).
        rewrite occ_reverse. lia. }
    pose proof (lookup_lt_Some _ _ _ Hcell) as Hlt.
    rewrite length_all_buckets in Hlt by exact Hrange.
    pose proof (occ_nonneg (key x) todo) as Hnn.
    assert (Hb0 : 0 <= below (key x) xs) by (unfold below; lia).
    assert (Hpos : 0 <= upto (key x) xs - occ (key x) done - 1)
      by (unfold upto; lia).
    cbn [for_each]. unfold place at 1. cbn [fst snd].
    rewrite Hx. cbn [bind].
    rewrite (load_counts count _ (key x) Hc Hkx). cbn [bind].
    unfold astore. rewrite Hlen.
    destruct (Z.leb_spec 0 (upto (key x) xs - occ (key x) done - 1)); [| lia].
    destruct (Z.ltb_spec (upto (key x) xs - occ (key x) done - 1)
                (Z.of_nat (length xs))); [| lia].
    cbn [andb bind].
    destruct (store_counts count _ (key x)
                (upto (key x) xs - occ (key x) done - 1) Hc Hkx) as [Hst Hc1].
    rewrite Hst. cbn [bind].
    apply (IH Hkeyc (done ++ [x])).
    + subst xs. rewrite <- app_assoc. reflexivity.
    + split; [| split].
      * eapply counts_are_ext; [exact Hc1 |].
        intros d _. cbv beta. rewrite occ_app, occ_cons.
        change (occ d []) with 0.
        destruct (decide (d = key x)) as [-> | Hne].
        -- destruct (decide (key x = key x)); [lia | congruence].
        -- destruct (decide (key x = d)); [congruence | lia].
      * rewrite length_insert. exact Hlen.
      * intros k y Hk.
        rewrite occ_app, occ_cons. change (occ (key y) []) with 0.
        destruct (decide (k = Z.to_nat (upto (key x) xs - occ (key x) done - 1)))
          as [-> | Hne].
        -- rewrite Hcell in Hk. injection Hk as <-.
           rewrite list_lookup_insert_eq by lia.
           destruct (decide (key x = key x)); [| congruence].
           destruct (decide _); [reflexivity | lia].
        -- rewrite list_lookup_insert_ne by congruence.
           rewrite (Hout k y Hk).
           destruct (decide (key x = key y)) as [Heq | Hneq].
           ++ rewrite <- Heq.
              destruct (decide (upto (key x) xs - occ (key x) done <= Z.of_nat k)),
                (decide (upto (key x) xs - (occ (key x) done + (1 + 0))
                         <= Z.of_nat k)); try reflexivity; lia.
           ++ rewrite Z.add_0_l, Z.add_0_r. reflexivity.
Qed.

Lemma placed_end (xs : list Z) (output : array) (count : list Z) :
  keys_in_range xs ->
  placed xs xs output count ->
  output = map (fun y => Some (stored y)) (buckets K 0 (reverse xs)).
Proof.
  intros Hrange (_ & Hlen & Hout).
  apply list_eq. intros k.
  rewrite list_lookup_fmap.
  destruct (buckets K 0 (reverse xs) !! k) as [y |] eqn:Hk; cbn.
  - rewrite (Hout k y Hk).
    apply buckets_lookup_inv in Hk. destruct Hk as (_ & Hpos & _).
    rewrite !below_reverse, (below_zero xs Hrange) in Hpos.
    destruct (decide _) as [_ | Hn]; [reflexivity |].
    unfold upto in Hn. lia.
  - apply lookup_ge_None in Hk. apply lookup_ge_None.
    rewrite length_all_buckets in Hk by exact Hrange. lia.
Qed.

(** The three loops together. *)
Lemma place_from_tallies (keyc : Z -> outcome Z) (xs count : list Z) :
  Forall (fun x => keyc x = Ret (key x)) xs ->
  keys_in_range xs ->
  counts_are count (fun d => upto d xs) ->
  exists count',
    for_each xs (place keyc) (replicate (length xs) None, count)
    = Ret (map (fun y => Some (stored y)) (buckets K 0 (reverse xs)), count').
Proof.
  intros Hkeyc Hrange Hc.
  destruct (place_all keyc xs [] xs _ count eq_refl Hkeyc Hrange
              (placed_start xs count Hrange Hc))
    as (output' & count' & Hloop & Hp).
  exists count'. rewrite Hloop.
  rewrite (placed_end xs output' count' Hrange Hp). reflexivity.
Qed.

(** The tallies taken over [ys], the placement run over [xs], two lists with
    the same occurrences of every key. *)
Lemma counting_passes (keyc : Z -> outcome Z) (ys xs : list Z) :
  Forall (fun x => keyc x = Ret (key x)) ys ->
  Forall (fun x => keyc x = Ret (key x)) xs ->
  keys_in_range ys -> keys_in_range xs ->
  (forall d : Z, occ d ys = occ d xs) ->
  exists count1 count2 count3,
    for_each ys (tally keyc) (replicate K 0) = Ret count1 /\
    for_up (K - 1) 1 accumulate count1 = Ret count2 /\
    for_each xs (place keyc) (replicate (length xs) None, count2)
    = Ret (map (fun y => Some (stored y)) (buckets K 0 (reverse xs)), count3).
Proof.
  intros Hky Hkx Hry Hrx Hocc.
  assert (Hc0 : counts_are (replicate K 0) (fun _ => 0)).
  { split; [apply length_replicate |].
    intros d Hd. apply lookup_replicate_2. lia. }
  destruct (tally_all keyc ys _ _ Hky Hry Hc0) as (count1 & H1 & Hc1).
  assert (Hc1' : counts_are count1 (fun d => occ d xs)).
  { eapply counts_are_ext; [exact Hc1 |]. intros d _. cbv beta. rewrite Hocc. lia. }
  destruct (accumulate_from_tallies xs count1 Hrx Hc1') as (count2 & H2 & Hc2).
  destruct (place_from_tallies keyc xs count2 Hkx Hrx Hc2) as (count3 & H3).
  exists count1, count2, count3. repeat split; assumption.
Qed.

End Counting.

(** ** Loops over indices, continued *)

Lemma for_up_ext {St : Type} (n : nat) (i : Z) (body1 body2 : Z -> St -> outcome St)
  (s : St) :
  (forall j t, body1 j t = body2 j t) ->
  for_up n i body1 s = for_up n i body2 s.
Proof.
  intros Hext. revert i s.
  induction n as [| n IH]; intros i s; [reflexivity |].
  cbn [for_up]. rewrite Hext.
  destruct (body2 i s); cbn [bind]; [apply IH | reflexivity ..].
Qed.

Lemma for_down_ext {St : Type} (n : nat) (i : Z) (body1 body2 : Z -> St -> outcome St)
  (s : St) :
  (forall j t, body1 j t = body2 j t) ->
  for_down n i body1 s = for_down n i body2 s.
Proof.
  intros Hext. revert i s.
  induction n as [| n IH]; intros i s; [reflexivity |].
  cbn [for_down]. rewrite Hext.
  destruct (body2 i s); cbn [bind]; [apply IH | reflexivity ..].
Qed.

(** A loop that reads [sequence[i]] from the last index down visits the
    elements in reverse order. *)
Lemma for_down_load {St : Type} (f : Z -> St -> outcome St) (pre post : list Z)
  (s : St) :
  for_down (length pre) (Z.of_nat (length pre) - 1)
    (fun i s => x <- load (pre ++ post) i ;; f x s) s
  = for_each (reverse pre) f s.
Proof.
  revert post s.
  induction pre as [| x pre IH] using rev_ind; intros post s; [reflexivity |].
  rewrite reverse_snoc, length_app. cbn [length for_each].
  replace (length pre + 1)%nat with (S (length pre)) by lia.
  cbn [for_down].
  rewrite (load_at _ pre post x);
    [| rewrite <- app_assoc; reflexivity | lia].
  cbn [bind].
  destruct (f x s) as [s' | w | |]; try reflexivity.
  cbn [bind].
  specialize (IH (x :: post) s').
  rewrite <- app_assoc. cbn [app].
  replace (Z.of_nat (S (length pre)) - 1 - 1) with (Z.of_nat (length pre) - 1) by lia.
  exact IH.
Qed.

(** The last loop of both counting sorts: the output copied back. *)
Lemma copy_back (values done todo old : list Z) :
  values = done ++ todo -> length old = length todo ->
  for_up (length todo) (Z.of_nat (length done))
    (fun i sequence => x <- aload (map Some values) i ;; store sequence i x)
    (done ++ old)
  = Ret values.
Proof.
  revert done old.
  induction todo as [| v todo IH]; intros done old Hv Hlen.
  - destruct old; [| discriminate].
    rewrite !app_nil_r in *. subst. reflexivity.
  - destruct old as [| o old]; [discriminate |].
    cbn [length for_up].
    assert (Hload : aload (map Some values) (Z.of_nat (length done)) = Ret v).
    { unfold aload. destruct (Z.ltb_spec (Z.of_nat (length done)) 0); [lia |].
      rewrite Nat2Z.id, list_lookup_fmap, Hv.
      rewrite list_lookup_middle by reflexivity. reflexivity. }
    rewrite Hload. cbn [bind].
    rewrite store_middle. cbn [bind].
    specialize (IH (done ++ [v]) old).
    rewrite <- !app_assoc, length_app in IH. cbn [app length] in IH.
    replace (Z.of_nat (length done + 1)) with (Z.of_nat (length done) + 1) in IH by lia.
    apply IH; [exact Hv |].
    cbn [length] in Hlen. lia.
Qed.

(** ** The buckets are ordered *)

Section BucketsSorted.

Variable key : Z -> Z.
Variable R : Z -> Z -> Prop.

Lemma strongly_sorted_filter (Q : Z -> Prop) `{!forall x, Decision (Q x)}
  (l : list Z) :
  StronglySorted R l -> StronglySorted R (filter Q l).
Proof.
  induction 1 as [| a l Hs IH Hall]; [constructor |].
  rewrite filter_cons. destruct (decide (Q a)); [| exact IH].
  constructor; [exact IH |].
  rewrite Forall_forall in Hall |- *.
  intros x Hx. apply list_elem_of_filter in Hx. apply Hall, Hx.
Qed.

Lemma strongly_sorted_weaken (R' : Z -> Z -> Prop) (l : list Z) :
  (forall a b, a ∈ l -> b ∈ l -> R a b -> R' a b) ->
  StronglySorted R l -> StronglySorted R' l.
Proof.
  intros Himp Hs. induction Hs as [| a l Hs IH Hall]; [constructor |].
  constructor.
  - apply IH. intros x y Hx Hy. apply Himp; apply elem_of_cons; right; assumption.
  - rewrite Forall_forall in Hall |- *.
    intros x Hx. apply Himp.
    + apply elem_of_cons. left. reflexivity.
    + apply elem_of_cons. right. exact Hx.
    + apply Hall, Hx.
Qed.

(** Buckets each in order, and lower keys before higher ones: the whole is in
    order. *)
Lemma buckets_sorted (n : nat) (d0 : Z) (l : list Z) :
  (forall a b, a ∈ l -> b ∈ l -> key a < key b -> R a b) ->
  (forall d, StronglySorted R (keyed key d l)) ->
  StronglySorted R (buckets key n d0 l).
Proof.
  intros Hcross Hbucket. revert d0.
  induction n as [| n IH]; intros d0; cbn [buckets]; [constructor |].
  apply StronglySorted_app_2; [| apply Hbucket | apply IH].
  intros a b Ha Hb.
  apply list_elem_of_filter in Ha. destruct Ha as [Hka Ha].
  apply list_elem_of_lookup_1 in Hb. destruct Hb as [k Hk].
  apply buckets_lookup_inv in Hk. destruct Hk as (Hkb & _ & Hb).
  apply Hcross; [exact Ha | exact Hb | lia].
Qed.

End BucketsSorted.

Lemma buckets_of_values_sorted (n : nat) (d0 : Z) (l : list Z) :
  StronglySorted Z.le (buckets (fun x => x) n d0 l).
Proof.
  apply buckets_sorted.
  - intros a b _ _ Hlt. lia.
  - intros d. unfold keyed.
    induction l as [| x l IH]; [constructor |].
    rewrite filter_cons. destruct (decide (x = d)) as [-> | _]; [| exact IH].
    constructor; [exact IH |].
    apply Forall_forall. intros y Hy.
    apply list_elem_of_filter in Hy. lia.
Qed.

(** ** CountSort *)

Section CountSortCorrect.

Context {P : Platform}.

Lemma wrap_small (z : Z) : INT_MIN <= z <= INT_MAX -> wrap z = z.
Proof.
  unfold wrap, INT_MIN, INT_MAX. intros Hz.
  rewrite Z.mod_small by lia. lia.
Qed.

(** Counting sort returns the buckets of the values, each value narrowed to a
    [char]. *)
Lemma CountSort_sort_value (max : Z) (sequence : list Z) :
  -1 <= max < INT_MAX ->
  Forall (fun x => 0 <= x <= max) sequence ->
  CountSort_sort max sequence
  = Ret (map to_char
           (buckets (fun x => x) (Z.to_nat (max + 1)) 0 (reverse sequence))).
Proof.
  intros Hmax Hall.
  assert (Hrange : keys_in_range (fun x => x) (Z.to_nat (max + 1)) sequence).
  { eapply Forall_impl; [exact Hall |]. cbv beta. intros x Hx. lia. }
  assert (Hkeyc : Forall (fun x => Ret x = Ret ((fun x => x) x)) sequence).
  { apply Forall_forall. intros x _. reflexivity. }
  destruct (counting_passes (fun x => x) (Z.to_nat (max + 1)) to_char Ret
              sequence sequence Hkeyc Hkeyc Hrange Hrange (fun d => eq_refl))
    as (count1 & count2 & count3 & H1 & H2 & H3).
  unfold CountSort_sort, new_array, zeroed_array.
  rewrite wrap_small by (unfold INT_MIN, INT_MAX in *; lia).
  destruct (Z.ltb_spec (size sequence) 0); [unfold size in *; lia |].
  destruct (Z.ltb_spec (max + 1) 0); [lia |].
  cbn [bind]. rewrite trips_size.
  replace (Z.to_nat (size sequence)) with (length sequence) by (unfold size; lia).
  replace (trips 1 (max + 1)) with (Z.to_nat (max + 1) - 1)%nat
    by (unfold trips; lia).
  pose proof (for_up_load (tally Ret) [] sequence
                (replicate (Z.to_nat (max + 1)) 0)) as L1.
  cbn [app length] in L1. change (Z.of_nat 0) with 0 in L1.
  unfold tally at 1 in L1. cbn [bind] in L1.
  rewrite H1 in L1. rewrite L1. cbn [bind].
  change (for_up (Z.to_nat (max + 1) - 1) 1
            (fun i count =>
               a <- load count i ;; b <- load count (i - 1) ;; store count i (a + b))
            count1)
    with (for_up (Z.to_nat (max + 1) - 1) 1 accumulate count1).
  rewrite H2. cbn [bind].
  pose proof (for_up_load (place to_char Ret) [] sequence
                (replicate (length sequence) None, count2)) as L3.
  cbn [app length] in L3. change (Z.of_nat 0) with 0 in L3.
  rewrite H3 in L3.
  erewrite for_up_ext; [rewrite L3 |].
  2:{ intros j [output count]. cbn [fst snd]. unfold place. cbn [fst snd bind].
      reflexivity. }
  cbn [bind fst].
  rewrite <- (map_map to_char Some).
  set (values := map to_char _).
  assert (Hlen : length sequence = length values).
  { unfold values. rewrite length_map.
    rewrite (length_all_buckets (fun x => x) (Z.to_nat (max + 1)) sequence Hrange).
    reflexivity. }
  rewrite Hlen.
  exact (copy_back values [] values sequence eq_refl Hlen).
Qed.

Lemma to_char_small (x : Z) : 0 <= x <= 127 -> to_char x = x.
Proof.
  intros Hx. unfold to_char.
  destruct char_is_signed; rewrite Z.mod_small by lia; lia.
Qed.

(** Counting sort returns whenever the elements lie in [0, max]. *)
Lemma CountSort_sort_returns (max : Z) (sequence : list Z) :
  -1 <= max < INT_MAX ->
  Forall (fun x => 0 <= x <= max) sequence ->
  exists output, CountSort_sort max sequence = Ret output.
Proof.
  intros Hmax Hall. eexists. apply CountSort_sort_value; assumption.
Qed.

(** Counting sort is correct on the values a [char] holds: it returns a
    sorted permutation whenever the elements lie in [0, max] and [max] is at
    most 127. *)
Lemma CountSort_sort_correct (max : Z) (sequence : list Z) :
  -1 <= max <= 127 ->
  Forall (fun x => 0 <= x <= max) sequence ->
  exists output,
    CountSort_sort max sequence = Ret output /\
    sorted_permutation output sequence.
Proof.
  intros Hmax Hall.
  assert (Hrange : keys_in_range (fun x => x) (Z.to_nat (max + 1)) sequence).
  { eapply Forall_impl; [exact Hall |]. cbv beta. intros x Hx. lia. }
  pose proof (buckets_all_permutation (fun x => x) (Z.to_nat (max + 1))
                (reverse sequence)
                (keys_in_range_reverse _ _ _ Hrange)) as Hperm.
  apply (fun H => Permutation_trans H (reverse_Permutation sequence)) in Hperm.
  exists (buckets (fun x => x) (Z.to_nat (max + 1)) 0 (reverse sequence)).
  split; [| split].
  - rewrite CountSort_sort_value;
      [| unfold INT_MAX; lia | exact Hall].
    f_equal. rewrite <- (map_id (buckets _ _ _ _)) at 2.
    apply map_ext_in. intros x Hx.
    apply to_char_small.
    apply (Permutation_in _ Hperm) in Hx.
    rewrite Forall_forall in Hall.
    apply list_elem_of_In in Hx. specialize (Hall x Hx). lia.
  - apply strongly_sorted_non_decreasing, buckets_of_values_sorted.
  - exact Hperm.
Qed.

(** C10: under the algorithm COUNTSORT [main] builds the strategy with
    [max] equal to the upper bound of the configuration, and that strategy
    returns only on sequences whose elements all lie between 0 and the upper
    bound (and on all of them when the table for that bound can be
    declared). *)
Theorem CountSort_is_built_with_upperBound (c : config) :
  _algorithm c = "COUNTSORT"%string ->
  int_range (_upperBound c) ->
  select_algorithm c = Ret (CountSort (_upperBound c)) /\
  (forall (fuel : nat) (alg : ISortAlgorithm) (sequence output : list Z),
      select_algorithm c = Ret alg ->
      sort fuel alg sequence = Ret output ->
      Forall (fun x => 0 <= x <= _upperBound c) sequence) /\
  (forall (fuel : nat) (alg : ISortAlgorithm) (sequence : list Z),
      select_algorithm c = Ret alg ->
      -1 <= _upperBound c < INT_MAX ->
      Forall (fun x => 0 <= x <= _upperBound c) sequence ->
      exists output, sort fuel alg sequence = Ret output).
Proof.
  intros Halg Hub.
  assert (Hsel : select_algorithm c = Ret (CountSort (_upperBound c))).
  { unfold select_algorithm. rewrite Halg. reflexivity. }
  split; [exact Hsel |]. split.
  - intros fuel alg sequence output Halg' Hsort.
    rewrite Hsel in Halg'. injection Halg' as <-.
    cbn [sort] in Hsort.
    eapply CountSort_sort_returns_only_in_range; eassumption.
  - intros fuel alg sequence Halg' Hmax Hall.
    rewrite Hsel in Halg'. injection Halg' as <-.
    cbn [sort]. apply CountSort_sort_returns; assumption.
Qed.

End CountSortCorrect.

(** ** RadixSort *)

Lemma int_div_value (a b : Z) :
  b <> 0 -> b <> -1 -> int_div a b = Ret (Z.quot a b).
Proof.
  intros H0 H1. unfold int_div.
  destruct (Z.eqb_spec b 0); [contradiction |].
  destruct (Z.eqb_spec b (-1)); [contradiction |].
  rewrite andb_false_r. reflexivity.
Qed.

Lemma digit_value (exp x : Z) :
  0 < exp -> 0 <= x ->
  digit x exp = Ret (digit_of exp x) /\ 0 <= digit_of exp x < 10.
Proof.
  intros Hexp Hx. unfold digit, digit_of.
  rewrite int_div_value by lia. cbn [bind].
  unfold int_rem. cbn [Z.eqb]. rewrite andb_false_r.
  split; [reflexivity |].
  apply Z.rem_bound_pos; [apply Z.quot_pos; lia | lia].
Qed.

Lemma digit_of_mod (E x : Z) :
  0 < E -> 0 <= x -> x mod (E * 10) = x mod E + E * digit_of E x.
Proof.
  intros HE Hx. unfold digit_of.
  rewrite Z.quot_div_nonneg by lia.
  rewrite Z.rem_mod_nonneg by (try lia; apply Z.div_pos; lia).
  apply Z.rem_mul_r; lia.
Qed.

Lemma RadixSort_countSort_value (sequence : list Z) (exp : Z) :
  0 < exp ->
  Forall (fun x => 0 <= x) sequence ->
  RadixSort_countSort sequence exp = Ret (buckets (digit_of exp) 10 0 sequence).
Proof.
  intros Hexp Hall.
  assert (Hrange : keys_in_range (digit_of exp) 10 sequence).
  { eapply Forall_impl; [exact Hall |]. cbv beta. intros x Hx.
    destruct (digit_value exp x Hexp Hx) as [_ Hd]. lia. }
  assert (Hkeyc : Forall (fun x => digit x exp = Ret (digit_of exp x)) sequence).
  { eapply Forall_impl; [exact Hall |]. cbv beta. intros x Hx.
    apply (digit_value exp x Hexp Hx). }
  assert (Hrange' : keys_in_range (digit_of exp) 10 (reverse sequence))
    by (apply keys_in_range_reverse; exact Hrange).
  assert (Hkeyc' : Forall (fun x => digit x exp = Ret (digit_of exp x))
                     (reverse sequence)).
  { eapply Permutation_Forall; [| exact Hkeyc].
    symmetry. apply reverse_Permutation. }
  destruct (counting_passes (digit_of exp) 10 (fun x => x)
              (fun x => digit x exp) sequence (reverse sequence)
              Hkeyc Hkeyc' Hrange Hrange'
              (fun d => eq_sym (occ_reverse (digit_of exp) d sequence)))
    as (count1 & count2 & count3 & H1 & H2 & H3).
  rewrite reverse_involutive, length_reverse in H3.
  unfold RadixSort_countSort, new_array.
  destruct (Z.ltb_spec (size sequence) 0); [unfold size in *; lia |].
  change (zeroed_array 10) with (Ret (replicate 10 0)).
  cbn [bind]. rewrite trips_size.
  replace (Z.to_nat (size sequence)) with (length sequence) by (unfold size; lia).
  pose proof (for_up_load (tally (fun x => digit x exp)) [] sequence
                (replicate 10 0)) as L1.
  cbn [app length] in L1. change (Z.of_nat 0) with 0 in L1.
  unfold tally at 1 in L1.
  rewrite H1 in L1. rewrite L1. cbn [bind].
  change (for_up (trips 1 10) 1
            (fun i count =>
               a <- load count i ;; b <- load count (i - 1) ;; store count i (a + b))
            count1)
    with (for_up (10 - 1) 1 accumulate count1).
  rewrite H2. cbn [bind].
  pose proof (for_down_load (place (fun x => x) (fun x => digit x exp))
                sequence [] (replicate (length sequence) None, count2)) as L3.
  rewrite H3 in L3.
  erewrite for_down_ext; [unfold size; rewrite L3 |].
  2:{ intros j [output count]. rewrite app_nil_r.
      unfold place. cbn [fst snd]. reflexivity. }
  cbn [bind fst].
  set (values := buckets (digit_of exp) 10 0 sequence).
  assert (Hlen : length sequence = length values).
  { unfold values. rewrite <- (reverse_involutive sequence) at 2.
    rewrite (length_all_buckets (digit_of exp) 10 (reverse sequence) Hrange').
    rewrite length_reverse. reflexivity. }
  rewrite Hlen.
  exact (copy_back values [] values sequence eq_refl Hlen).
Qed.

Lemma all_related_sorted (R : Z -> Z -> Prop) (l : list Z) :
  (forall a b, R a b) -> StronglySorted R l.
Proof.
  intros HR. induction l as [| x l IH]; constructor; [exact IH |].
  apply Forall_forall. intros y _. apply HR.
Qed.

(** A pass on the digit of weight [E] of a sequence in order of the digits
    below: the sequence is in order of the digits up to that one. *)
Lemma pass_extends_order (E : Z) (s : list Z) :
  0 < E ->
  Forall (fun x => 0 <= x) s ->
  StronglySorted (le_mod E) s ->
  StronglySorted (le_mod (E * 10)) (buckets (digit_of E) 10 0 s).
Proof.
  intros HE Hall Hs. rewrite Forall_forall in Hall.
  apply buckets_sorted.
  - intros a b Ha Hb Hlt. unfold le_mod.
    rewrite !digit_of_mod by auto.
    pose proof (Z.mod_pos_bound a E HE). pose proof (Z.mod_pos_bound b E HE).
    nia.
  - intros d.
    apply (strongly_sorted_weaken (le_mod E));
      [| apply strongly_sorted_filter; exact Hs].
    intros a b Ha Hb HR.
    apply list_elem_of_filter in Ha. destruct Ha as [Hda Ha].
    apply list_elem_of_filter in Hb. destruct Hb as [Hdb Hb].
    unfold le_mod in *. rewrite !digit_of_mod by auto.
    rewrite Hda, Hdb. lia.
Qed.

Lemma radix_pass (exp : Z) (s seq : list Z) :
  0 < exp ->
  Forall (fun x => 0 <= x <= INT_MAX) s ->
  Permutation s seq ->
  RadixSort_countSort s exp = Ret (buckets (digit_of exp) 10 0 s) /\
  Forall (fun x => 0 <= x <= INT_MAX) (buckets (digit_of exp) 10 0 s) /\
  Permutation (buckets (digit_of exp) 10 0 s) seq.
Proof.
  intros Hexp Hall Hperm.
  assert (Hnn : Forall (fun x => 0 <= x) s).
  { eapply Forall_impl; [exact Hall |]. cbv beta. intros x Hx. lia. }
  assert (Hrange : keys_in_range (digit_of exp) 10 s).
  { eapply Forall_impl; [exact Hnn |]. cbv beta. intros x Hx.
    destruct (digit_value exp x Hexp Hx) as [_ Hd]. lia. }
  pose proof (buckets_all_permutation (digit_of exp) 10 s Hrange) as Hb.
  split; [apply RadixSort_countSort_value; assumption |].
  split.
  - eapply Permutation_Forall; [symmetry; exact Hb | exact Hall].
  - etransitivity; eassumption.
Qed.

(** The passes on the decimal digits, from weight [10^k] on, for a maximum
    below 10^9: the weight stays an [int]. *)
Lemma radix_loop_digits (fuel k : nat) (m : Z) (s seq : list Z) :
  (k <= 9)%nat -> (13 <= k + fuel)%nat ->
  0 <= m < 1000000000 ->
  Forall (fun x => 0 <= x <= m) s ->
  Permutation s seq ->
  StronglySorted (le_mod (10 ^ Z.of_nat k)) s ->
  exists output,
    radix_loop fuel m (10 ^ Z.of_nat k) s = Ret output /\
    StronglySorted Z.le output /\ Permutation output seq.
Proof.
  revert k s.
  induction fuel as [| fuel IH]; intros k s Hk Hfuel Hm Hall Hperm Hs; [lia |].
  assert (Hpow : 0 < 10 ^ Z.of_nat k) by (apply Z.pow_pos_nonneg; lia).
  assert (Hall' : Forall (fun x => 0 <= x <= INT_MAX) s).
  { eapply Forall_impl; [exact Hall |]. cbv beta. unfold INT_MAX.
    intros x Hx. lia. }
  cbn [radix_loop]. rewrite int_div_value by lia. cbn [bind].
  destruct (Z.gtb_spec (Z.quot m (10 ^ Z.of_nat k)) 0) as [Hq | Hq].
  - (* one more digit *)
    assert (Hmk : 10 ^ Z.of_nat k <= m).
    { destruct (Z.le_gt_cases (10 ^ Z.of_nat k) m) as [H | H]; [exact H |].
      rewrite Z.quot_small in Hq by lia. lia. }
    assert (Hk8 : (k <= 8)%nat).
    { destruct (Nat.eq_dec k 9%nat) as [-> | Hne]; [| lia].
      change (10 ^ Z.of_nat 9) with 1000000000 in Hmk. lia. }
    destruct (radix_pass (10 ^ Z.of_nat k) s seq Hpow Hall' Hperm)
      as (Hpass & Hall1 & Hperm1).
    assert (Hnn : Forall (fun x => 0 <= x) s).
    { eapply Forall_impl; [exact Hall |]. cbv beta. intros x Hx. lia. }
    pose proof (pass_extends_order _ s Hpow Hnn Hs) as Hs1.
    assert (Hbound : Forall (fun x => 0 <= x <= m)
                       (buckets (digit_of (10 ^ Z.of_nat k)) 10 0 s)).
    { eapply Permutation_Forall; [| exact Hall].
      etransitivity; [exact Hperm | symmetry; exact Hperm1]. }
    rewrite Hpass. cbn [bind].
    assert (Hnext : 10 ^ Z.of_nat k * 10 = 10 ^ Z.of_nat (S k)).
    { rewrite Nat2Z.inj_succ, Z.pow_succ_r by lia. lia. }
    assert (Hle : 10 ^ Z.of_nat (S k) <= 10 ^ 9).
    { apply Z.pow_le_mono_r; lia. }
    change (10 ^ 9) with 1000000000 in Hle.
    pose proof (Z.pow_pos_nonneg 10 (Z.of_nat (S k)) ltac:(lia) ltac:(lia))
      as Hpos.
    unfold int_mul. rewrite Hnext in Hs1 |- *.
    destruct (Z.leb_spec INT_MIN (10 ^ Z.of_nat (S k)));
      [| unfold INT_MIN in *; lia].
    destruct (Z.leb_spec (10 ^ Z.of_nat (S k)) INT_MAX);
      [| unfold INT_MAX in *; lia].
    cbn [andb bind].
    apply IH; try assumption; lia.
  - (* every digit was seen *)
    exists s. split; [reflexivity |]. split; [| exact Hperm].
    assert (Hmk : m < 10 ^ Z.of_nat k).
    { destruct (Z.lt_ge_cases m (10 ^ Z.of_nat k)) as [H | H]; [exact H |].
      pose proof (Z.quot_le_mono (10 ^ Z.of_nat k) m (10 ^ Z.of_nat k) Hpow
                    ltac:(lia)) as Hmono.
      rewrite Z.quot_same in Hmono by lia. lia. }
    apply (strongly_sorted_weaken (le_mod (10 ^ Z.of_nat k))); [| exact Hs].
    intros a b Ha Hb HR. unfold le_mod in HR.
    rewrite Forall_forall in Hall.
    pose proof (Hall a Ha). pose proof (Hall b Hb).
    rewrite !Z.mod_small in HR by lia. exact HR.
Qed.

Lemma foldl_max_bounds (x : Z) (rest : list Z) :
  Forall (fun y => y <= foldl Z.max x rest) (x :: rest) /\
  foldl Z.max x rest ∈ x :: rest.
Proof.
  revert x. induction rest as [| y rest IH]; intros x; cbn [foldl].
  - split; [repeat constructor; lia | apply elem_of_cons; left; reflexivity].
  - destruct (IH (Z.max x y)) as [Hall Hin].
    apply Forall_cons in Hall. destruct Hall as [Hxy Hall].
    split.
    + constructor; [lia |]. constructor; [lia | exact Hall].
    + apply elem_of_cons in Hin. destruct Hin as [Heq | Hin].
      * rewrite Heq. destruct (Z.max_spec x y) as [[_ ->] | [_ ->]].
        -- apply elem_of_cons. right. apply elem_of_cons. left. reflexivity.
        -- apply elem_of_cons. left. reflexivity.
      * apply elem_of_cons. right. apply elem_of_cons. right. exact Hin.
Qed.

(** Radix sort returns a sorted permutation of every non-empty sequence of
    non-negative [int]s below 10^9. *)
Lemma RadixSort_sort_correct (fuel : nat) (sequence : list Z) :
  sequence <> [] ->
  (13 <= fuel)%nat ->
  Forall (fun x => 0 <= x < 1000000000) sequence ->
  exists output,
    RadixSort_sort fuel sequence = Ret output /\
    sorted_permutation output sequence.
Proof.
  intros Hne Hfuel Hall.
  destruct sequence as [| x rest]; [congruence |].
  unfold RadixSort_sort, max_element. cbn [bind].
  destruct (foldl_max_bounds x rest) as [Hmax Hin].
  set (m := foldl Z.max x rest) in *.
  assert (Hm : 0 <= m < 1000000000).
  { rewrite Forall_forall in Hall. apply (Hall m Hin). }
  destruct (radix_loop_digits fuel 0 m (x :: rest) (x :: rest))
    as (output & Hloop & Hs & Hperm).
  - lia.
  - lia.
  - exact Hm.
  - rewrite Forall_forall in Hall, Hmax |- *.
    intros y Hy. specialize (Hall y Hy). specialize (Hmax y Hy). lia.
  - reflexivity.
  - apply all_related_sorted. intros a b. unfold le_mod.
    change (10 ^ Z.of_nat 0) with 1. rewrite !Z.mod_1_r. lia.
  - exists output. change (10 ^ Z.of_nat 0) with 1 in Hloop.
    split; [exact Hloop |].
    split; [apply strongly_sorted_non_decreasing; exact Hs | exact Hperm].
Qed.

(** ** Configurations whose runs complete *)

Section RunsComplete.

Context {P : Platform}.

Lemma push_back_loop_returns (n : nat) (i : Z) (item : Z -> stateful rng Z)
  (result : list Z) (g : rng) :
  (forall j s, exists x s', item j s = (Ret x, s')) ->
  exists sequence g', push_back_loop n i item result g = (Ret sequence, g').
Proof.
  intros Hitem. revert i result g.
  induction n as [| n IH]; intros i result g; cbn [push_back_loop].
  - eexists _, _. reflexivity.
  - unfold sbind. destruct (Hitem i g) as (x & g1 & ->). apply IH.
Qed.

(** Sampling returns when the bounds are in order and their distance fits an
    [int]. *)
Lemma generateRandomNumber_returns (lb ub : Z) (g : rng) :
  int_range lb -> lb <= ub < INT_MAX -> ub - lb < INT_MAX ->
  exists x g', generateRandomNumber lb ub true true g = (Ret x, g').
Proof.
  unfold int_range, INT_MIN, INT_MAX. intros Hlb Hub Hd.
  unfold generateRandomNumber, sbind, rand_call, lift, sret.
  rewrite Z.add_0_r, !wrap_small by (unfold INT_MIN, INT_MAX; lia).
  destruct (Z.gtb_spec lb (ub + 1)); [lia |].
  destruct (rand g) as [r g1].
  unfold int_rem.
  destruct (Z.eqb_spec (ub + 1 - lb) 0); [lia |].
  destruct (Z.eqb_spec (ub + 1 - lb) (-1)); [lia |].
  rewrite andb_false_r. eexists _, _. reflexivity.
Qed.

Lemma generation_returns_when (c : config) :
  _sequenceType c = "SORTED"%string \/
  _sequenceType c = "REVERSESORTED"%string \/
  ((_sequenceType c = "RANDOM"%string \/ _sequenceType c = "SAME"%string) /\
   int_range (_lowerBound c) /\
   _lowerBound c <= _upperBound c < INT_MAX /\
   _upperBound c - _lowerBound c < INT_MAX) ->
  generation_returns c.
Proof.
  intros H g. unfold generate.
  destruct H as [-> | [-> | [[-> | ->] (Hlb & Hub & Hd)]]]; cbn [String.eqb Ascii.eqb Bool.eqb].
  - apply push_back_loop_returns. intros j s. eexists _, _. reflexivity.
  - apply push_back_loop_returns. intros j s. eexists _, _. reflexivity.
  - apply push_back_loop_returns. intros j s.
    apply generateRandomNumber_returns; assumption.
  - unfold generateSameSequence, sbind.
    destruct (generateRandomNumber_returns _ _ g Hlb Hub Hd) as (x & g1 & ->).
    apply push_back_loop_returns. intros j s. eexists _, _. reflexivity.
Qed.

(** The two comparison sorts return on every generated sequence. *)
Lemma comparison_sorts_return (fuel : nat) (alg : ISortAlgorithm) (c : config) :
  alg = BubbleSort \/ alg = MergeSort -> sort_returns fuel alg c.
Proof.
  intros Halg g sequence g' Hgen.
  assert (Hne : sequence <> []).
  { apply generate_length in Hgen. destruct sequence; discriminate. }
  destruct Halg as [-> | ->]; cbn [sort].
  - destruct (BubbleSort_sort_correct sequence Hne) as (output & Hsort & _).
    exists output. exact Hsort.
  - exists sequence. apply MergeSort_sort_nonempty. exact Hne.
Qed.

(** With BUBBLESORT or MERGESORT every run completes, whatever the policy
    generates. *)
Lemma comparison_sort_runs_complete (fuel : nat) (env : environment)
  (c : config) (alg : ISortAlgorithm) :
  select_algorithm c = Ret alg ->
  alg = BubbleSort \/ alg = MergeSort ->
  generation_returns c ->
  fopen_succeeds env = true ->
  exists p,
    main fuel env c start = (Ret tt, p) /\
    written p = header :: rows env 0 (Z.to_nat (_runs c)).
Proof.
  intros Halg Hcmp Hgen Hopen.
  destruct (main_completes fuel env c alg Halg Hopen Hgen
              (comparison_sorts_return fuel alg c Hcmp))
    as (p & Hmain & Hw & _).
  exists p. split; assumption.
Qed.

End RunsComplete.

(** * Concrete runs on the reference platform *)

(** With a clock that goes back the rows carry negative times. *)
Example backward_clock_rows :
  written (snd (main 0 backward_clock ascending_bubble start))
  = [header; row 0 (-2); row 1 (-2); row 2 (-2); row 3 (-2); row 4 (-2)].
Proof. vm_compute. reflexivity. Qed.

(** The runs of [descending_merge] are recorded although the sequence handed
    to the validator is still descending. *)
Example descending_merge_rows :
  observed (snd (main 0 steady_clock descending_merge start))
  = [Generated 0 [3; 10; 9; 8]; Sorted 0 [3; 10; 9; 8];
     Generated 1 [3; 10; 9; 8]; Sorted 1 [3; 10; 9; 8]] /\
  written (snd (main 0 steady_clock descending_merge start))
  = [header; row 0 2; row 1 2] /\
  ~ non_decreasing [3; 10; 9; 8].
Proof.
  split; [vm_compute; reflexivity |].
  split; [vm_compute; reflexivity |].
  intros H. specialize (H 1%nat 10 9 eq_refl eq_refl). lia.
Qed.

(** C7 on a steady clock and on one that goes back. *)
Lemma same_configuration_generates_same_sequences_witness :
  fopen_succeeds steady_clock = fopen_succeeds backward_clock /\
  fst (main 0 steady_clock random_bubble start)
    = fst (main 0 backward_clock random_bubble start) /\
  observed (snd (main 0 steady_clock random_bubble start))
    = observed (snd (main 0 backward_clock random_bubble start)) /\
  forall run : Z,
    generated_in (observed (snd (main 0 steady_clock random_bubble start))) run
    = generated_in (observed (snd (main 0 backward_clock random_bubble start))) run.
Proof.
  split; [reflexivity |].
  apply (same_configuration_generates_same_sequences
           0 steady_clock backward_clock random_bubble).
  reflexivity.
Defined.

(** C10 on a configuration that names COUNTSORT. *)
Lemma CountSort_is_built_with_upperBound_witness :
  _algorithm random_count = "COUNTSORT"%string /\
  int_range (_upperBound random_count) /\
  select_algorithm random_count = Ret (CountSort (_upperBound random_count)) /\
  (forall (fuel : nat) (alg : ISortAlgorithm) (sequence output : list Z),
      select_algorithm random_count = Ret alg ->
      sort fuel alg sequence = Ret output ->
      Forall (fun x => 0 <= x <= _upperBound random_count) sequence) /\
  (forall (fuel : nat) (alg : ISortAlgorithm) (sequence : list Z),
      select_algorithm random_count = Ret alg ->
      -1 <= _upperBound random_count < INT_MAX ->
      Forall (fun x => 0 <= x <= _upperBound random_count) sequence ->
      exists output, sort fuel alg sequence = Ret output).
Proof.
  split; [reflexivity |].
  split; [unfold int_range, INT_MIN, INT_MAX; simpl; lia |].
  apply (CountSort_is_built_with_upperBound random_count).
  - reflexivity.
  - unfold int_range, INT_MIN, INT_MAX. simpl. lia.
Defined.

(** * Further properties of the program *)

(** ** BubbleSort and MergeSort *)

Lemma non_decreasing_strongly_sorted (l : list Z) :
  non_decreasing l -> StronglySorted Z.le l.
Proof.
  intros Hnd. apply Sorted_StronglySorted; [intros x y z; apply Z.le_trans |].
  induction l as [| a l IH]; [constructor |].
  constructor.
  - apply IH. intros i x y Hx Hy. apply (Hnd (S i) x y); assumption.
  - destruct l as [| b l]; constructor.
    apply (Hnd 0%nat a b); reflexivity.
Qed.

(** Two non-decreasing permutations of one sequence are equal. *)
Lemma sorted_permutation_unique (out1 out2 sequence : list Z) :
  sorted_permutation out1 sequence -> sorted_permutation out2 sequence ->
  out1 = out2.
Proof.
  intros [Hs1 Hp1] [Hs2 Hp2].
  apply (StronglySorted_unique Z.le).
  - apply non_decreasing_strongly_sorted, Hs1.
  - apply non_decreasing_strongly_sorted, Hs2.
  - etransitivity; [exact Hp1 | symmetry; exact Hp2].
Qed.

(** X1: [BubbleSort::sort] returns a non-decreasing permutation of every
    non-empty sequence. *)
Theorem BubbleSort_sort_sorts (sequence : list Z) :
  sequence <> [] ->
  exists output,
    BubbleSort_sort sequence = Ret output /\
    sorted_permutation output sequence.
Proof. apply BubbleSort_sort_correct. Qed.

Lemma BubbleSort_sort_sorts_witness :
  [3; 1; 2] <> [] /\
  exists output,
    BubbleSort_sort [3; 1; 2] = Ret output /\
    sorted_permutation output [3; 1; 2].
Proof.
  split; [discriminate |].
  apply (BubbleSort_sort_sorts [3; 1; 2]). discriminate.
Defined.

(** X2: [BubbleSort::sort] returns a non-empty sequence that is already
    non-decreasing as it is. *)
Theorem BubbleSort_sort_leaves_sorted_sequences (sequence : list Z) :
  sequence <> [] ->
  non_decreasing sequence ->
  BubbleSort_sort sequence = Ret sequence.
Proof.
  intros Hne Hs.
  destruct (BubbleSort_sort_correct sequence Hne) as (output & -> & Hout).
  f_equal. apply (sorted_permutation_unique output sequence sequence Hout).
  split; [exact Hs | reflexivity].
Qed.

Lemma BubbleSort_sort_leaves_sorted_sequences_witness :
  [1; 2; 2; 5] <> [] /\
  non_decreasing [1; 2; 2; 5] /\
  BubbleSort_sort [1; 2; 2; 5] = Ret [1; 2; 2; 5].
Proof.
  assert (Hne : [1; 2; 2; 5] <> []) by discriminate.
  assert (Hs : non_decreasing [1; 2; 2; 5]).
  { apply strongly_sorted_non_decreasing.
    repeat (constructor; [| repeat constructor; lia]). constructor. }
  split; [exact Hne |]. split; [exact Hs |].
  apply (BubbleSort_sort_leaves_sorted_sequences [1; 2; 2; 5] Hne Hs).
Defined.



(** ** MergeSort::merge *)

Lemma aload_at (a : array) (done rest : list Z) (x i : Z) :
  a = map Some (done ++ x :: rest) -> i = Z.of_nat (length done) ->
  aload a i = Ret x.
Proof.
  intros -> ->. unfold aload.
  destruct (Z.ltb_spec (Z.of_nat (length done)) 0); [lia |].
  rewrite Nat2Z.id, list_lookup_fmap.
  rewrite list_lookup_middle by reflexivity. reflexivity.
Qed.

Lemma astore_at (done : list Z) (c : option Z) (cells : array) (x i : Z) :
  i = Z.of_nat (length done) ->
  astore (map Some done ++ c :: cells) i x
  = Ret (map Some done ++ Some x :: cells).
Proof.
  intros ->. unfold astore. rewrite length_app, length_map. cbn [length].
  destruct (Z.leb_spec 0 (Z.of_nat (length done))); [| lia].
  destruct (Z.ltb_spec (Z.of_nat (length done))
              (Z.of_nat (length done + S (length cells)))); [| lia].
  cbn [andb]. rewrite Nat2Z.id.
  replace (length done) with (length (map Some done) + 0)%nat at 1
    by (rewrite length_map; lia).
  rewrite insert_app_r. reflexivity.
Qed.

(** The loops that fill [L] and [R] from the sequence. *)
Lemma copy_in (sequence pre done todo post : list Z) (off : Z) :
  sequence = pre ++ (done ++ todo) ++ post ->
  off = Z.of_nat (length pre) ->
  for_up (length todo) (Z.of_nat (length done))
    (fun i A => x <- load sequence (off + i) ;; astore A i x)
    (map Some done ++ replicate (length todo) None)
  = Ret (map Some (done ++ todo)).
Proof.
  intros Hseq Hoff. revert done Hseq.
  induction todo as [| x todo IH]; intros done Hseq.
  - cbn [length for_up replicate]. rewrite !app_nil_r. reflexivity.
  - cbn [length for_up replicate].
    rewrite (load_at sequence (pre ++ done) (todo ++ post) x);
      [| rewrite Hseq, <- !app_assoc; reflexivity
       | rewrite length_app; lia].
    cbn [bind]. rewrite astore_at by reflexivity. cbn [bind].
    specialize (IH (done ++ [x])).
    rewrite length_app, map_app, <- !app_assoc in IH. cbn [length map app] in IH.
    replace (Z.of_nat (length done + 1)) with (Z.of_nat (length done) + 1) in IH by lia.
    apply IH. rewrite Hseq, <- !app_assoc. reflexivity.
Qed.

(** The loops that copy what is left of [L] or of [R]. *)
Lemma copy_rest_value (A : array) (done todo pre slots rest : list Z) :
  A = map Some (done ++ todo) ->
  length slots = length todo ->
  copy_rest A (Z.of_nat (length done)) (Z.of_nat (length (done ++ todo)))
    (Z.of_nat (length pre)) (pre ++ slots ++ rest)
  = Ret (Z.of_nat (length (pre ++ todo)), pre ++ todo ++ rest).
Proof.
  intros HA. unfold copy_rest.
  replace (trips (Z.of_nat (length done)) (Z.of_nat (length (done ++ todo))))
    with (length todo) by (unfold trips; rewrite length_app; lia).
  revert done pre slots HA.
  induction todo as [| x todo IH]; intros done pre slots HA Hlen.
  - destruct slots; [| discriminate]. cbn [length for_up app].
    rewrite !app_nil_r. reflexivity.
  - destruct slots as [| s slots]; [discriminate |].
    cbn [length for_up].
    rewrite (aload_at A done todo x) by (assumption || reflexivity).
    cbn [bind].
    rewrite (store_at _ pre (slots ++ rest) s) by reflexivity.
    cbn [bind].
    specialize (IH (done ++ [x]) (pre ++ [x]) slots).
    rewrite !length_app, <- !app_assoc in IH. cbn [length app] in IH.
    replace (Z.of_nat (length done + 1)) with (Z.of_nat (length done) + 1) in IH by lia.
    replace (Z.of_nat (length pre + 1)) with (Z.of_nat (length pre) + 1) in IH by lia.
    rewrite IH; [| exact HA | cbn [length] in Hlen; lia].
    rewrite !length_app. cbn [length]. do 2 f_equal. lia.
Qed.

(** The three loops of the merge, from any point of their progress. *)
Lemma merge_loops (fuel : nat) (L R : array) (Ad At Bd Bt pre slots post : list Z) :
  L = map Some (Ad ++ At) -> R = map Some (Bd ++ Bt) ->
  length slots = (length At + length Bt)%nat ->
  (length At + length Bt <= fuel)%nat ->
  (merged <- merge_while fuel L R
               (Z.of_nat (length (Ad ++ At))) (Z.of_nat (length (Bd ++ Bt)))
               (Z.of_nat (length Ad)) (Z.of_nat (length Bd))
               (Z.of_nat (length pre)) (pre ++ slots ++ post) ;;
   let '(i, j, k, sequence) := merged in
   rest <- copy_rest L i (Z.of_nat (length (Ad ++ At))) k sequence ;;
   let '(k, sequence) := rest in
   rest <- copy_rest R j (Z.of_nat (length (Bd ++ Bt))) k sequence ;;
   Ret (snd rest))
  = Ret (pre ++ list_merge Z.le At Bt ++ post).
Proof.
  revert Ad At Bd Bt pre slots.
  induction fuel as [| fuel IH]; intros Ad At Bd Bt pre slots HL HR Hlen Hfuel;
    (destruct At as [| a At]; [| destruct Bt as [| b Bt]]).
  1, 4: (* nothing left of [L] *)
    rewrite (app_nil_r Ad) in HL |- *; cbn [merge_while];
    rewrite Z.ltb_irrefl; cbn [andb bind];
    pose proof (copy_rest_value L Ad [] pre [] (slots ++ post)) as HcL;
    rewrite (app_nil_r Ad) in HcL; cbn [app] in HcL;
    rewrite HcL by auto; cbn [bind]; rewrite app_nil_r;
    rewrite (copy_rest_value R Bd Bt pre slots post HR) by (cbn in Hlen; lia);
    cbn [bind snd]; rewrite list_merge_nil_l; reflexivity.
  1, 3: (* nothing left of [R] *)
    rewrite (app_nil_r Bd) in HR |- *; cbn [merge_while];
    rewrite Z.ltb_irrefl, andb_false_r; cbn [bind];
    rewrite (copy_rest_value L Ad (a :: At) pre slots post HL)
      by (cbn in Hlen |- *; lia);
    cbn [bind];
    pose proof (copy_rest_value R Bd [] (pre ++ a :: At) [] post) as HcR;
    rewrite (app_nil_r Bd) in HcR; cbn [app] in HcR; rewrite <- app_assoc in HcR;
    rewrite HcR by auto;
    cbn [bind snd]; rewrite list_merge_nil_r, <- ?app_assoc; reflexivity.
  - cbn [length] in Hfuel. lia.
  - (* one comparison *)
    destruct slots as [| s slots]; [cbn in Hlen; lia |].
    cbn [merge_while].
    destruct (Z.ltb_spec (Z.of_nat (length Ad)) (Z.of_nat (length (Ad ++ a :: At))));
      [| rewrite length_app in *; cbn [length] in *; lia].
    destruct (Z.ltb_spec (Z.of_nat (length Bd)) (Z.of_nat (length (Bd ++ b :: Bt))));
      [| rewrite length_app in *; cbn [length] in *; lia].
    cbn [andb].
    rewrite (aload_at L Ad At a) by (assumption || reflexivity).
    rewrite (aload_at R Bd Bt b) by (assumption || reflexivity).
    cbn [bind]. rewrite list_merge_cons.
    rewrite (store_at _ pre (slots ++ post) s) by reflexivity.
    rewrite (store_at _ pre (slots ++ post) s) by reflexivity.
    cbn [length] in Hlen, Hfuel.
    destruct (Z.leb_spec a b) as [Hab | Hab];
      destruct (decide (a <= b)) as [Hd | Hd]; try lia; cbn [bind].
    + specialize (IH (Ad ++ [a]) At Bd (b :: Bt) (pre ++ [a]) slots).
      rewrite <- !app_assoc in IH. cbn [app] in IH.
      rewrite !(length_app _ [a]) in IH. cbn [length] in IH.
      replace (Z.of_nat (length Ad + 1)) with (Z.of_nat (length Ad) + 1) in IH by lia.
      replace (Z.of_nat (length pre + 1)) with (Z.of_nat (length pre) + 1) in IH by lia.
      apply IH; [assumption | assumption | lia | cbn [length]; lia].
    + specialize (IH Ad (a :: At) (Bd ++ [b]) Bt (pre ++ [b]) slots).
      rewrite <- !app_assoc in IH. cbn [app] in IH.
      rewrite !(length_app _ [b]) in IH. cbn [length] in IH.
      replace (Z.of_nat (length Bd + 1)) with (Z.of_nat (length Bd) + 1) in IH by lia.
      replace (Z.of_nat (length pre + 1)) with (Z.of_nat (length pre) + 1) in IH by lia.
      apply IH; [assumption | assumption | lia | cbn [length]; lia].
Qed.

(** Merging two adjacent runs [A] and [B] of a sequence puts
    [list_merge Z.le A B] in their place and touches nothing else. *)
Lemma MergeSort_merge_value (pre A B post : list Z) :
  MergeSort_merge (pre ++ A ++ B ++ post)
    (Z.of_nat (length pre))
    (Z.of_nat (length pre) + Z.of_nat (length A) - 1)
    (Z.of_nat (length pre) + Z.of_nat (length A) + Z.of_nat (length B) - 1)
  = Ret (pre ++ list_merge Z.le A B ++ post).
Proof.
  unfold MergeSort_merge.
  replace (Z.of_nat (length pre) + Z.of_nat (length A) - 1
           - Z.of_nat (length pre) + 1) with (Z.of_nat (length A)) by lia.
  replace (Z.of_nat (length pre) + Z.of_nat (length A) + Z.of_nat (length B) - 1
           - (Z.of_nat (length pre) + Z.of_nat (length A) - 1))
    with (Z.of_nat (length B)) by lia.
  unfold new_array.
  destruct (Z.ltb_spec (Z.of_nat (length A)) 0); [lia |].
  destruct (Z.ltb_spec (Z.of_nat (length B)) 0); [lia |].
  cbn [bind]. unfold trips. rewrite !Z.sub_0_r, !Nat2Z.id.
  pose proof (copy_in (pre ++ A ++ B ++ post) pre [] A (B ++ post)
                (Z.of_nat (length pre)) eq_refl eq_refl) as HinL.
  cbn [length map app] in HinL. change (Z.of_nat 0) with 0 in HinL. rewrite HinL. cbn [bind].
  pose proof (copy_in (pre ++ A ++ B ++ post) (pre ++ A) [] B post
                (Z.of_nat (length pre) + Z.of_nat (length A) - 1 + 1)) as HinR.
  cbn [length map app] in HinR. change (Z.of_nat 0) with 0 in HinR. rewrite HinR;
    [| rewrite <- !app_assoc; reflexivity | rewrite length_app; lia].
  cbn [bind].
  pose proof (merge_loops (length A + length B) (map Some A) (map Some B)
                [] A [] B pre (A ++ B) post eq_refl eq_refl) as Hloops.
  cbn [length app] in Hloops. change (Z.of_nat 0) with 0 in Hloops.
  rewrite <- app_assoc in Hloops.
  apply Hloops; [apply length_app | lia].
Qed.

(** X4: [MergeSort::merge] on two adjacent runs [A] and [B] of a sequence
    (from [left] to [middle] and from [middle + 1] to [right]) returns the
    sequence with the two runs replaced by their merge, in which an element
    of [A] comes before an element of [B] that is not smaller; what is before
    and after the runs is as it was. No order is asked of the runs. *)
Theorem MergeSort_merge_merges_adjacent_runs (pre A B post : list Z) :
  MergeSort_merge (pre ++ A ++ B ++ post)
    (Z.of_nat (length pre))
    (Z.of_nat (length pre) + Z.of_nat (length A) - 1)
    (Z.of_nat (length pre) + Z.of_nat (length A) + Z.of_nat (length B) - 1)
  = Ret (pre ++ list_merge Z.le A B ++ post).
Proof. apply MergeSort_merge_value. Qed.

(** X5: on two adjacent runs in non-decreasing order [MergeSort::merge]
    leaves in their place a non-decreasing permutation of the two
    together. *)
Theorem MergeSort_merge_sorts_sorted_runs (pre A B post : list Z) :
  StronglySorted Z.le A -> StronglySorted Z.le B ->
  exists merged,
    MergeSort_merge (pre ++ A ++ B ++ post)
      (Z.of_nat (length pre))
      (Z.of_nat (length pre) + Z.of_nat (length A) - 1)
      (Z.of_nat (length pre) + Z.of_nat (length A) + Z.of_nat (length B) - 1)
    = Ret (pre ++ merged ++ post) /\
    sorted_permutation merged (A ++ B).
Proof.
  intros HA HB. exists (list_merge Z.le A B).
  split; [apply MergeSort_merge_value |].
  split.
  - apply strongly_sorted_non_decreasing.
    apply Sorted_StronglySorted; [intros x y z; apply Z.le_trans |].
    apply Sorted_list_merge;
      [intros x y; lia | apply StronglySorted_Sorted; assumption ..].
  - apply merge_Permutation.
Qed.

Lemma MergeSort_merge_sorts_sorted_runs_witness :
  StronglySorted Z.le [1; 4; 6] /\ StronglySorted Z.le [2; 4] /\
  exists merged,
    MergeSort_merge ([9] ++ [1; 4; 6] ++ [2; 4] ++ [0])
      (Z.of_nat (length [9]))
      (Z.of_nat (length [9]) + Z.of_nat (length [1; 4; 6]) - 1)
      (Z.of_nat (length [9]) + Z.of_nat (length [1; 4; 6])
       + Z.of_nat (length [2; 4]) - 1)
    = Ret ([9] ++ merged ++ [0]) /\
    sorted_permutation merged ([1; 4; 6] ++ [2; 4]).
Proof.
  assert (HA : StronglySorted Z.le [1; 4; 6]).
  { repeat (constructor; [| repeat constructor; lia]). constructor. }
  assert (HB : StronglySorted Z.le [2; 4]).
  { repeat (constructor; [| repeat constructor; lia]). constructor. }
  split; [exact HA |]. split; [exact HB |].
  apply (MergeSort_merge_sorts_sorted_runs [9] [1; 4; 6] [2; 4] [0] HA HB).
Defined.

(** ** CountSort *)

Section Strategies.

Context {P : Platform}.

(** X6: [CountSort::sort] with [max] below [INT_MAX] returns, on a sequence
    whose elements lie between 0 and [max], its non-decreasing permutation
    with each element narrowed to [char]; up to [max = 127], and up to
    [max = 255] where [char] is unsigned, no element is changed by that and
    the result is the non-decreasing permutation itself. *)
Theorem CountSort_sort_sorts_then_narrows (max : Z) (sequence : list Z) :
  -1 <= max < INT_MAX ->
  Forall (fun x => 0 <= x <= max) sequence ->
  exists sorted,
    sorted_permutation sorted sequence /\
    CountSort_sort max sequence = Ret (map to_char sorted) /\
    (max <= 127 \/ (char_is_signed = false /\ max <= 255) ->
     map to_char sorted = sorted).
Proof.
  intros Hmax Hall.
  exists (buckets (fun x => x) (Z.to_nat (max + 1)) 0 (reverse sequence)).
  assert (Hperm : Permutation
            (buckets (fun x => x) (Z.to_nat (max + 1)) 0 (reverse sequence))
            sequence).
  { etransitivity; [| apply reverse_Permutation].
    apply buckets_all_permutation. unfold keys_in_range.
    rewrite Forall_forall in Hall |- *. intros x Hx.
    rewrite elem_of_reverse in Hx. specialize (Hall x Hx). lia. }
  split; [split |]; [| exact Hperm | split].
  - apply strongly_sorted_non_decreasing, buckets_of_values_sorted.
  - apply CountSort_sort_value; assumption.
  - intros Hsmall. rewrite <- (map_id (buckets _ _ _ _)) at 2.
    apply map_ext_in. intros x Hx.
    apply list_elem_of_In in Hx.
    rewrite Hperm in Hx. rewrite Forall_forall in Hall.
    specialize (Hall x Hx).
    destruct Hsmall as [Hsmall | [Hunsigned Hsmall]].
    + apply to_char_small. lia.
    + unfold to_char. rewrite Hunsigned. apply Z.mod_small. lia.
Qed.

End Strategies.

Lemma CountSort_sort_sorts_then_narrows_witness :
  -1 <= 5 < INT_MAX /\
  Forall (fun x => 0 <= x <= 5) [3; 0; 5; 3] /\
  exists sorted,
    sorted_permutation sorted [3; 0; 5; 3] /\
    CountSort_sort 5 [3; 0; 5; 3] = Ret (map to_char sorted) /\
    (5 <= 127 \/ (char_is_signed = false /\ 5 <= 255) ->
     map to_char sorted = sorted).
Proof.
  assert (Hmax : -1 <= 5 < INT_MAX) by (unfold INT_MAX; lia).
  assert (Hall : Forall (fun x => 0 <= x <= 5) [3; 0; 5; 3])
    by (repeat constructor; lia).
  split; [exact Hmax |]. split; [exact Hall |].
  apply (CountSort_sort_sorts_then_narrows 5 [3; 0; 5; 3] Hmax Hall).
Defined.

(** ** RadixSort *)

Lemma keyed_keyed (key : Z -> Z) (d d0 : Z) (l : list Z) :
  keyed key d (keyed key d0 l)
  = if decide (d = d0) then keyed key d0 l else [].
Proof.
  unfold keyed. induction l as [| x l IH].
  - destruct (decide (d = d0)); reflexivity.
  - rewrite (filter_cons (fun y => key y = d0)).
    destruct (decide (key x = d0)) as [Hx | Hx].
    + rewrite filter_cons, IH.
      destruct (decide (key x = d)), (decide (d = d0)); congruence.
    + exact IH.
Qed.

(** The elements of key [d] in the buckets [d0], ..., [d0 + n - 1] of a
    list. *)
Lemma keyed_buckets (key : Z -> Z) (n : nat) (d d0 : Z) (l : list Z) :
  keyed key d (buckets key n d0 l)
  = if decide (d0 <= d < d0 + Z.of_nat n) then keyed key d l else [].
Proof.
  revert d0. induction n as [| n IH]; intros d0.
  - cbn [buckets]. destruct (decide _); [lia | reflexivity].
  - cbn [buckets]. unfold keyed at 1. rewrite filter_app.
    fold (keyed key d (keyed key d0 l)).
    fold (keyed key d (buckets key n (d0 + 1) l)).
    rewrite keyed_keyed, IH.
    destruct (decide (d = d0)) as [-> | Hne].
    + destruct (decide (d0 + 1 <= d0 < d0 + 1 + Z.of_nat n)); [lia |].
      destruct (decide (d0 <= d0 < d0 + Z.of_nat (S n))); [| lia].
      apply app_nil_r.
    + destruct (decide (d0 + 1 <= d < d0 + 1 + Z.of_nat n));
        destruct (decide (d0 <= d < d0 + Z.of_nat (S n))); try lia; reflexivity.
Qed.

(** X7: one pass of [RadixSort::countSort] with a positive weight [exp] over
    non-negative elements is a stable sort by the decimal digit of that
    weight: the result is a permutation of the sequence in non-decreasing
    order of the digit, and the elements of each digit keep the order they
    had. *)
Theorem RadixSort_countSort_sorts_by_digit_stably (sequence : list Z) (exp : Z) :
  0 < exp ->
  Forall (fun x => 0 <= x) sequence ->
  exists output,
    RadixSort_countSort sequence exp = Ret output /\
    Permutation output sequence /\
    StronglySorted (fun a b => digit_of exp a <= digit_of exp b) output /\
    forall d : Z,
      filter (fun y => digit_of exp y = d) output
      = filter (fun y => digit_of exp y = d) sequence.
Proof.
  intros Hexp Hall. exists (buckets (digit_of exp) 10 0 sequence).
  assert (Hkeys : keys_in_range (digit_of exp) 10 sequence).
  { unfold keys_in_range. rewrite Forall_forall in Hall |- *.
    intros x Hx. apply digit_value; auto. }
  split; [apply RadixSort_countSort_value; assumption |].
  split; [apply buckets_all_permutation; exact Hkeys |].
  split.
  - apply buckets_sorted.
    + intros a b _ _ Hlt. lia.
    + intros d. induction sequence as [| x l IH]; [constructor |].
      unfold keyed in *. rewrite filter_cons.
      destruct (decide (digit_of exp x = d)) as [Hx | Hx].
      * constructor.
        -- apply IH.
           ++ inversion Hall; assumption.
           ++ inversion Hkeys; assumption.
        -- rewrite Forall_forall. intros y Hy.
           apply list_elem_of_filter in Hy. destruct Hy as [Hy _]. lia.
      * apply IH.
        -- inversion Hall; assumption.
        -- inversion Hkeys; assumption.
  - intros d.
    change (keyed (digit_of exp) d (buckets (digit_of exp) 10 0 sequence)
            = keyed (digit_of exp) d sequence).
    rewrite keyed_buckets.
    destruct (decide (0 <= d < 0 + Z.of_nat 10)) as [Hd | Hd]; [reflexivity |].
    symmetry. unfold keyed.
    induction sequence as [| x l IH]; [reflexivity |].
    rewrite filter_cons.
    inversion Hkeys as [| ? ? Hx Hl]; subst.
    destruct (decide (digit_of exp x = d)) as [Hxd | Hxd].
    + exfalso. apply Hd. rewrite <- Hxd. cbn. lia.
    + apply IH; [inversion Hall; assumption | exact Hl].
Qed.

Lemma RadixSort_countSort_sorts_by_digit_stably_witness :
  0 < 10 /\
  Forall (fun x => 0 <= x) [421; 17; 320; 5; 111] /\
  exists output,
    RadixSort_countSort [421; 17; 320; 5; 111] 10 = Ret output /\
    Permutation output [421; 17; 320; 5; 111] /\
    StronglySorted (fun a b => digit_of 10 a <= digit_of 10 b) output /\
    forall d : Z,
      filter (fun y => digit_of 10 y = d) output
      = filter (fun y => digit_of 10 y = d) [421; 17; 320; 5; 111].
Proof.
  assert (Hexp : 0 < 10) by lia.
  assert (Hall : Forall (fun x => 0 <= x) [421; 17; 320; 5; 111])
    by (repeat constructor; lia).
  split; [exact Hexp |]. split; [exact Hall |].
  apply (RadixSort_countSort_sorts_by_digit_stably
           [421; 17; 320; 5; 111] 10 Hexp Hall).
Defined.

(** X8: [RadixSort::sort] returns a non-decreasing permutation of every
    non-empty sequence of non-negative elements below 10^9 (the weight
    [exp] then stays below [INT_MAX]), once the loop over the digits is
    given thirteen rounds. *)
Theorem RadixSort_sort_sorts (fuel : nat) (sequence : list Z) :
  sequence <> [] ->
  (13 <= fuel)%nat ->
  Forall (fun x => 0 <= x < 1000000000) sequence ->
  exists output,
    RadixSort_sort fuel sequence = Ret output /\
    sorted_permutation output sequence.
Proof.
  intros Hne Hfuel Hall. apply RadixSort_sort_correct; [assumption .. |].
  eapply Forall_impl; [exact Hall |].
  cbn. unfold INT_MAX. intros x Hx. lia.
Qed.

Lemma RadixSort_sort_sorts_witness :
  [170; 45; 75; 90; 802; 24; 2; 66] <> [] /\
  (13 <= 13)%nat /\
  Forall (fun x => 0 <= x < 1000000000) [170; 45; 75; 90; 802; 24; 2; 66] /\
  exists output,
    RadixSort_sort 13 [170; 45; 75; 90; 802; 24; 2; 66] = Ret output /\
    sorted_permutation output [170; 45; 75; 90; 802; 24; 2; 66].
Proof.
  assert (Hne : [170; 45; 75; 90; 802; 24; 2; 66] <> []) by discriminate.
  assert (Hfuel : (13 <= 13)%nat) by lia.
  assert (Hall : Forall (fun x => 0 <= x < 1000000000)
                   [170; 45; 75; 90; 802; 24; 2; 66])
    by (repeat constructor; lia).
  split; [exact Hne |]. split; [exact Hfuel |]. split; [exact Hall |].
  apply (RadixSort_sort_sorts 13 [170; 45; 75; 90; 802; 24; 2; 66]
           Hne Hfuel Hall).
Defined.

(** X9: the loop of [RadixSort::sort] runs while [m / exp > 0] for the
    maximum [m]: a non-empty sequence without a positive element is returned
    as it was, in order or not. *)
Theorem RadixSort_sort_skips_sequences_without_positive (fuel : nat)
  (sequence : list Z) :
  sequence <> [] ->
  Forall (fun x => x <= 0) sequence ->
  RadixSort_sort (S fuel) sequence = Ret sequence.
Proof.
  intros Hne Hall. destruct sequence as [| x rest]; [congruence |].
  unfold RadixSort_sort, max_element. cbn [bind radix_loop].
  destruct (foldl_max_bounds x rest) as [_ Hin].
  rewrite Forall_forall in Hall. specialize (Hall _ Hin).
  rewrite int_div_value by lia. cbn [bind]. rewrite Z.quot_1_r.
  destruct (Z.gtb_spec (foldl Z.max x rest) 0); [lia | reflexivity].
Qed.

Lemma RadixSort_sort_skips_sequences_without_positive_witness :
  [-1; -7; 0; -3] <> [] /\
  Forall (fun x => x <= 0) [-1; -7; 0; -3] /\
  RadixSort_sort 1 [-1; -7; 0; -3] = Ret [-1; -7; 0; -3].
Proof.
  assert (Hne : [-1; -7; 0; -3] <> []) by discriminate.
  assert (Hall : Forall (fun x => x <= 0) [-1; -7; 0; -3])
    by (repeat constructor; lia).
  split; [exact Hne |]. split; [exact Hall |].
  apply (RadixSort_sort_skips_sequences_without_positive 0 [-1; -7; 0; -3]
           Hne Hall).
Defined.

(** The passes from weight [10^k] on for a maximum of 10^9 and more: the
    pass of weight 10^9 is reached, and the weight overflows after it. *)
Lemma radix_loop_overflows (fuel k : nat) (m : Z) (s : list Z) :
  (k <= 9)%nat -> (10 <= k + fuel)%nat ->
  1000000000 <= m <= INT_MAX ->
  Forall (fun x => 0 <= x <= INT_MAX) s ->
  radix_loop fuel m (10 ^ Z.of_nat k) s = Undefined.
Proof.
  revert k s.
  induction fuel as [| fuel IH]; intros k s Hk Hfuel Hm Hall; [lia |].
  assert (Hpow : 0 < 10 ^ Z.of_nat k) by (apply Z.pow_pos_nonneg; lia).
  assert (Hle : 10 ^ Z.of_nat k <= 10 ^ 9) by (apply Z.pow_le_mono_r; lia).
  change (10 ^ 9) with 1000000000 in Hle.
  cbn [radix_loop]. rewrite int_div_value by lia. cbn [bind].
  pose proof (Z.quot_le_mono (10 ^ Z.of_nat k) m (10 ^ Z.of_nat k) Hpow
                ltac:(lia)) as Hq.
  rewrite Z.quot_same in Hq by lia.
  destruct (Z.gtb_spec (Z.quot m (10 ^ Z.of_nat k)) 0); [| lia].
  destruct (radix_pass (10 ^ Z.of_nat k) s s Hpow Hall (Permutation_refl s))
    as (-> & Hall1 & _).
  cbn [bind].
  assert (Hnext : 10 ^ Z.of_nat k * 10 = 10 ^ Z.of_nat (S k)).
  { rewrite Nat2Z.inj_succ, Z.pow_succ_r by lia. lia. }
  unfold int_mul. rewrite Hnext.
  destruct (Nat.eq_dec k 9%nat) as [-> | Hne].
  - reflexivity.
  - assert (Hle' : 10 ^ Z.of_nat (S k) <= 10 ^ 9)
      by (apply Z.pow_le_mono_r; lia).
    change (10 ^ 9) with 1000000000 in Hle'.
    pose proof (Z.pow_pos_nonneg 10 (Z.of_nat (S k)) ltac:(lia) ltac:(lia)).
    destruct (Z.leb_spec INT_MIN (10 ^ Z.of_nat (S k)));
      [| unfold INT_MIN in *; lia].
    destruct (Z.leb_spec (10 ^ Z.of_nat (S k)) INT_MAX);
      [| unfold INT_MAX in *; lia].
    cbn [andb bind]. apply IH; [lia | lia | exact Hm | exact Hall1].
Qed.

(** X26: on a sequence of non-negative [int]s with an element of 10^9 or
    more, [RadixSort::sort] makes the pass of weight 10^9 and then multiplies
    the weight by ten, which overflows: the sort has no defined behaviour
    (the loop is given the ten rounds that reach the overflow). *)
Theorem RadixSort_sort_overflows_on_large_elements (fuel : nat)
  (sequence : list Z) :
  (10 <= fuel)%nat ->
  Forall (fun x => 0 <= x <= INT_MAX) sequence ->
  Exists (fun x => 1000000000 <= x) sequence ->
  RadixSort_sort fuel sequence = Undefined.
Proof.
  intros Hfuel Hall Hbig.
  destruct sequence as [| x rest]; [inversion Hbig |].
  unfold RadixSort_sort, max_element. cbn [bind].
  destruct (foldl_max_bounds x rest) as [Hmax Hin].
  apply (radix_loop_overflows fuel 0); [lia | lia | | exact Hall].
  rewrite Forall_forall in Hall, Hmax. rewrite Exists_exists in Hbig.
  destruct Hbig as (y & Hy & Hbig).
  pose proof (Hall _ Hin). pose proof (Hmax y Hy). lia.
Qed.

Lemma RadixSort_sort_overflows_on_large_elements_witness :
  (10 <= 10)%nat /\
  Forall (fun x => 0 <= x <= INT_MAX) [5; 1000000000; 7] /\
  Exists (fun x => 1000000000 <= x) [5; 1000000000; 7] /\
  RadixSort_sort 10 [5; 1000000000; 7] = Undefined.
Proof.
  assert (Hfuel : (10 <= 10)%nat) by lia.
  assert (Hall : Forall (fun x => 0 <= x <= INT_MAX) [5; 1000000000; 7])
    by (unfold INT_MAX; repeat constructor; lia).
  assert (Hbig : Exists (fun x => 1000000000 <= x) [5; 1000000000; 7])
    by (apply Exists_cons_tl, Exists_cons_hd; lia).
  split; [exact Hfuel |]. split; [exact Hall |]. split; [exact Hbig |].
  apply (RadixSort_sort_overflows_on_large_elements 10 [5; 1000000000; 7]
           Hfuel Hall Hbig).
Defined.

Section Agreement.

Context {P : Platform}.

(** X10: on a non-empty sequence of elements between 0 and [max], with [max]
    at most 127, the strategies of BUBBLESORT, COUNTSORT and RADIXSORT
    return one and the same sequence (the loop of [RadixSort] being given
    thirteen rounds). *)
Theorem sorting_strategies_agree (fuel : nat) (max : Z) (sequence : list Z) :
  sequence <> [] ->
  (13 <= fuel)%nat ->
  max <= 127 ->
  Forall (fun x => 0 <= x <= max) sequence ->
  exists output,
    sort fuel BubbleSort sequence = Ret output /\
    sort fuel (CountSort max) sequence = Ret output /\
    sort fuel RadixSort sequence = Ret output /\
    sorted_permutation output sequence.
Proof.
  intros Hne Hfuel Hmax Hall.
  assert (Hmax0 : 0 <= max).
  { destruct sequence as [| x rest]; [congruence |].
    inversion Hall; subst. lia. }
  destruct (BubbleSort_sort_correct sequence Hne) as (out1 & Hb & Hs1).
  destruct (CountSort_sort_correct max sequence) as (out2 & Hc & Hs2);
    [lia | exact Hall |].
  destruct (RadixSort_sort_correct fuel sequence) as (out3 & Hr & Hs3);
    [exact Hne | exact Hfuel | |].
  { eapply Forall_impl; [exact Hall |].
    cbn. unfold INT_MAX. intros x Hx. lia. }
  exists out1. cbn [sort].
  rewrite (sorted_permutation_unique out1 out2 sequence Hs1 Hs2) at 2.
  rewrite (sorted_permutation_unique out1 out3 sequence Hs1 Hs3) at 2.
  auto.
Qed.

End Agreement.

Lemma sorting_strategies_agree_witness :
  [5; 3; 9; 3; 0] <> [] /\
  (13 <= 13)%nat /\
  9 <= 127 /\
  Forall (fun x => 0 <= x <= 9) [5; 3; 9; 3; 0] /\
  exists output,
    sort 13 BubbleSort [5; 3; 9; 3; 0] = Ret output /\
    sort 13 (CountSort 9) [5; 3; 9; 3; 0] = Ret output /\
    sort 13 RadixSort [5; 3; 9; 3; 0] = Ret output /\
    sorted_permutation output [5; 3; 9; 3; 0].
Proof.
  assert (Hne : [5; 3; 9; 3; 0] <> []) by discriminate.
  assert (Hfuel : (13 <= 13)%nat) by lia.
  assert (Hmax : 9 <= 127) by lia.
  assert (Hall : Forall (fun x => 0 <= x <= 9) [5; 3; 9; 3; 0])
    by (repeat constructor; lia).
  split; [exact Hne |]. split; [exact Hfuel |]. split; [exact Hmax |].
  split; [exact Hall |].
  apply (sorting_strategies_agree 13 9 [5; 3; 9; 3; 0] Hne Hfuel Hmax Hall).
Defined.

(** ** The generators *)

Lemma reference_rand_non_negative : rand_non_negative.
Proof.
  intros g. change (0 <= fst (glibc_step g)). unfold glibc_step.
  destruct g as [| r0 [| r1 [| r2 [| r3 rest]]]]; cbn [fst]; try lia.
  apply Z.div_pos; [| lia].
  apply Z.mod_pos_bound. lia.
Qed.

Section Generators.

Context {P : Platform}.

(** A loop of [push_back] extends the vector it started from. *)
Lemma push_back_loop_extends (n : nat) (i : Z) (item : Z -> stateful rng Z)
  (result sequence : list Z) (g g' : rng) :
  push_back_loop n i item result g = (Ret sequence, g') ->
  exists tail, sequence = result ++ tail /\ length tail = n.
Proof.
  revert i result g.
  induction n as [| n IH]; intros i result g H; cbn [push_back_loop] in H.
  - unfold sret in H. injection H as <- _. exists []. rewrite app_nil_r. auto.
  - unfold sbind in H.
    destruct (item i g) as [[x | what | |] g1]; try discriminate.
    apply IH in H. destruct H as (tail & -> & Hlen).
    exists (x :: tail). rewrite <- app_assoc. cbn. auto.
Qed.

(** The loop over items that are computed from the index alone. *)
Lemma push_back_loop_pure (n : nat) (i : Z) (f : Z -> Z) (result : list Z)
  (g : rng) :
  push_back_loop n i (fun j => sret (f j)) result g
  = (Ret (result ++ map (fun k => f (i + Z.of_nat k)) (seq 0 n)), g).
Proof.
  revert i result.
  induction n as [| n IH]; intros i result; cbn [push_back_loop].
  - cbn. rewrite app_nil_r. reflexivity.
  - unfold sbind, sret at 1. rewrite IH. cbn [seq map].
    rewrite <- app_assoc, Z.add_0_r. cbn [app]. do 3 f_equal.
    rewrite <- seq_shift, map_map. f_equal.
    apply map_ext. intros k. f_equal. lia.
Qed.

(** A draw between bounds in order. *)
Lemma generateRandomNumber_draws (lb ub : Z) (g : rng) :
  int_range lb -> lb <= ub < INT_MAX -> ub - lb < INT_MAX ->
  0 <= fst (rand g) ->
  generateRandomNumber lb ub true true g
  = (Ret (lb + Z.rem (fst (rand g)) (ub + 1 - lb)), snd (rand g)) /\
  lb <= lb + Z.rem (fst (rand g)) (ub + 1 - lb) <= ub.
Proof.
  unfold int_range, INT_MIN, INT_MAX. intros Hlb Hub Hd Hr.
  unfold generateRandomNumber, sbind, rand_call, lift, sret.
  rewrite Z.add_0_r, !wrap_small by (unfold INT_MIN, INT_MAX; lia).
  destruct (Z.gtb_spec lb (ub + 1)); [lia |].
  destruct (rand g) as [r g1]. cbn [fst snd] in *.
  unfold int_rem.
  destruct (Z.eqb_spec (ub + 1 - lb) 0); [lia |].
  destruct (Z.eqb_spec (ub + 1 - lb) (-1)); [lia |].
  rewrite andb_false_r.
  pose proof (Z.rem_bound_pos r (ub + 1 - lb) Hr ltac:(lia)) as Hrem.
  rewrite wrap_small by (unfold INT_MIN, INT_MAX; lia).
  split; [reflexivity | lia].
Qed.

(** X11: [generateRandomNumber] compares the bounds after it moved them: with
    [lo] the lower bound (one more when it is excluded) and [hi] the upper
    bound (one more when it is included), both [int]s, it throws without
    drawing when [hi < lo]; it draws and divides by zero when [hi = lo];
    otherwise it draws once and, [rand] giving no negative number, returns
    [lo + rand() % (hi - lo)] as computed on [int]s, the difference and the
    sum wrapping around. When the difference [hi - lo] is an [int], that is
    the number [lo + rand() % (hi - lo)] itself, and it lies from [lo] to
    [hi - 1]. *)
Theorem generateRandomNumber_cases (lb ub : Z) (lbIn ubIn : bool) (g : rng) :
  int_range (lb + (if lbIn then 0 else 1)) ->
  int_range (ub + (if ubIn then 1 else 0)) ->
  (ub + (if ubIn then 1 else 0) < lb + (if lbIn then 0 else 1) ->
   generateRandomNumber lb ub lbIn ubIn g
   = (Throw "cannot generate random number", g)) /\
  (ub + (if ubIn then 1 else 0) = lb + (if lbIn then 0 else 1) ->
   generateRandomNumber lb ub lbIn ubIn g = (Undefined, snd (rand g))) /\
  (lb + (if lbIn then 0 else 1) < ub + (if ubIn then 1 else 0) ->
   0 <= fst (rand g) ->
   generateRandomNumber lb ub lbIn ubIn g
   = (Ret (wrap (lb + (if lbIn then 0 else 1)
                 + Z.rem (fst (rand g))
                     (wrap (ub + (if ubIn then 1 else 0)
                            - (lb + (if lbIn then 0 else 1)))))),
      snd (rand g)) /\
   (ub + (if ubIn then 1 else 0) - (lb + (if lbIn then 0 else 1)) <= INT_MAX ->
    wrap (lb + (if lbIn then 0 else 1)
          + Z.rem (fst (rand g))
              (wrap (ub + (if ubIn then 1 else 0)
                     - (lb + (if lbIn then 0 else 1)))))
    = lb + (if lbIn then 0 else 1)
      + Z.rem (fst (rand g))
          (ub + (if ubIn then 1 else 0) - (lb + (if lbIn then 0 else 1))) /\
    lb + (if lbIn then 0 else 1)
    <= lb + (if lbIn then 0 else 1)
       + Z.rem (fst (rand g))
           (ub + (if ubIn then 1 else 0) - (lb + (if lbIn then 0 else 1)))
    < ub + (if ubIn then 1 else 0))).
Proof.
  set (lo := lb + (if lbIn then 0 else 1)).
  set (hi := ub + (if ubIn then 1 else 0)).
  unfold int_range, INT_MIN, INT_MAX. intros Hlo Hhi.
  unfold generateRandomNumber. fold lo hi.
  rewrite (wrap_small lo), (wrap_small hi) by (unfold INT_MIN, INT_MAX; lia).
  unfold sbind, rand_call, lift, sret.
  split; [| split].
  - intros Hlt. destruct (Z.gtb_spec lo hi); [reflexivity | lia].
  - intros Heq. destruct (Z.gtb_spec lo hi); [lia |].
    destruct (rand g) as [r g1]. rewrite Heq, Z.sub_diag.
    reflexivity.
  - intros Hlt Hr. destruct (Z.gtb_spec lo hi); [lia |].
    destruct (rand g) as [r g1]. cbn [fst snd] in *.
    assert (Hd : wrap (hi - lo) <> 0).
    { destruct (Z.le_gt_cases (hi - lo) 2147483647) as [Hfit | Hfar].
      - rewrite wrap_small by (unfold INT_MIN, INT_MAX; lia). lia.
      - unfold wrap.
        replace (hi - lo + 2147483648)
          with (hi - lo - 2147483648 + 1 * 4294967296) by lia.
        rewrite Z.mod_add, Z.mod_small by lia. lia. }
    unfold int_rem.
    destruct (Z.eqb_spec (wrap (hi - lo)) 0); [contradiction |].
    destruct (Z.eqb_spec r INT_MIN); [unfold INT_MIN in *; lia |].
    cbn [andb]. split; [reflexivity |].
    intros Hfit.
    rewrite (wrap_small (hi - lo)) by (unfold INT_MIN, INT_MAX; lia).
    pose proof (Z.rem_bound_pos r (hi - lo) Hr ltac:(lia)) as Hrem.
    rewrite wrap_small by (unfold INT_MIN, INT_MAX; lia).
    split; [reflexivity | lia].
Qed.

(** X12: the two policies that draw nothing. [generateSortedSequence] returns
    [size] followed by [lowerBound], [lowerBound + 1], ... and
    [generateReverseSortedSequence] returns [size] followed by [upperBound],
    [upperBound - 1], ..., [size] elements each (none for a size that is not
    positive); the generator of [rand] is left as it was. *)
Theorem deterministic_generators_value (c : config) (size : Z) (g : rng) :
  generateSortedSequence c size g
  = (Ret (size :: map (fun k => wrap (_lowerBound c + Z.of_nat k))
                    (seq 0 (Z.to_nat size))), g) /\
  generateReverseSortedSequence c size g
  = (Ret (size :: map (fun k => wrap (_upperBound c - Z.of_nat k))
                    (seq 0 (Z.to_nat size))), g).
Proof.
  unfold generateSortedSequence, generateReverseSortedSequence, trips.
  rewrite Z.sub_0_r.
  rewrite (push_back_loop_pure _ 0 (fun i => wrap (_lowerBound c + i))).
  rewrite (push_back_loop_pure _ 0 (fun i => wrap (_upperBound c - i))).
  cbn [app]. split; reflexivity.
Qed.

(** X13: the sequence of the policy SORTED is headed by its size: for a
    positive size, and as long as [lowerBound + size - 1] is an [int], it is
    non-decreasing exactly when the size is at most the lower bound. *)
Theorem generateSortedSequence_in_order_iff (c : config) (size : Z) (g : rng) :
  0 < size ->
  int_range (_lowerBound c) ->
  _lowerBound c + size - 1 <= INT_MAX ->
  exists sequence,
    generateSortedSequence c size g = (Ret sequence, g) /\
    (non_decreasing sequence <-> size <= _lowerBound c).
Proof.
  unfold int_range, INT_MIN, INT_MAX. intros Hsize Hlb Hub.
  unfold generateSortedSequence, trips. rewrite Z.sub_0_r.
  rewrite (push_back_loop_pure _ 0 (fun i => wrap (_lowerBound c + i))).
  eexists. split; [reflexivity |]. cbn [app].
  assert (Hmap : map (fun k => wrap (_lowerBound c + (0 + Z.of_nat k)))
                   (seq 0 (Z.to_nat size))
                 = map (fun k => _lowerBound c + Z.of_nat k)
                     (seq 0 (Z.to_nat size))).
  { apply map_ext_in. intros k Hk. apply in_seq in Hk.
    apply wrap_small. unfold INT_MIN, INT_MAX. lia. }
  rewrite Hmap. clear Hmap.
  destruct (Z.to_nat size) as [| n] eqn:Hn; [lia |].
  split.
  - intros Hnd. specialize (Hnd 0%nat size (_lowerBound c + Z.of_nat 0)).
    cbn in Hnd. specialize (Hnd eq_refl eq_refl). lia.
  - intros Hle. apply strongly_sorted_non_decreasing.
    constructor.
    + generalize 0%nat at 1 as s. generalize (S n) as m.
      induction m as [| m IH]; intros s; cbn [seq map]; constructor.
      * apply IH.
      * rewrite Forall_forall. intros y Hy.
        apply list_elem_of_In, in_map_iff in Hy.
        destruct Hy as (k & <- & Hk). apply in_seq in Hk. lia.
    + rewrite Forall_forall. intros y Hy.
      apply list_elem_of_In, in_map_iff in Hy.
      destruct Hy as (k & <- & Hk). lia.
Qed.

Lemma generateSameSequence_value (c : config) (size : Z) (g : rng) :
  generateSameSequence c size g
  = match generateRandomNumber (_lowerBound c) (_upperBound c) true true g with
    | (Ret x, g') => (Ret (size :: replicate (Z.to_nat size) x), g')
    | (Throw what, g') => (Throw what, g')
    | (Undefined, g') => (Undefined, g')
    | (OutOfFuel, g') => (OutOfFuel, g')
    end.
Proof.
  unfold generateSameSequence, sbind.
  destruct (generateRandomNumber _ _ true true g) as [[x | what | |] g'];
    try reflexivity.
  rewrite (push_back_loop_pure _ 0 (fun _ => x)). cbn [app].
  unfold trips. rewrite Z.sub_0_r. do 3 f_equal.
  generalize 0%nat. induction (Z.to_nat size) as [| n IH]; intros s.
  - reflexivity.
  - cbn [seq map replicate]. f_equal. apply IH.
Qed.

(** X14: [generateSameSequence] draws its number once, before the loop and
    whatever the size: it returns [size] followed by [size] copies of the
    number, and ends as the draw ends when the draw does not return, also
    for a size that asks for no copy. *)
Theorem generateSameSequence_draws_once (c : config) (size : Z) (g : rng) :
  generateSameSequence c size g
  = match generateRandomNumber (_lowerBound c) (_upperBound c) true true g with
    | (Ret x, g') => (Ret (size :: replicate (Z.to_nat size) x), g')
    | (Throw what, g') => (Throw what, g')
    | (Undefined, g') => (Undefined, g')
    | (OutOfFuel, g') => (OutOfFuel, g')
    end.
Proof. apply generateSameSequence_value. Qed.

(** The loop of [generateRandomSequence] from any point of its progress. *)
Lemma random_loop (lb ub : Z) (n : nat) (i : Z) (result : list Z) (g : rng) :
  rand_non_negative ->
  int_range lb -> lb <= ub < INT_MAX -> ub - lb < INT_MAX ->
  exists tail,
    push_back_loop n i (fun _ => generateRandomNumber lb ub true true) result g
    = (Ret (result ++ tail), after_draws n g) /\
    length tail = n /\
    Forall (fun x => lb <= x <= ub) tail.
Proof.
  intros Hrand Hlb Hub Hd. revert i result g.
  induction n as [| n IH]; intros i result g; cbn [push_back_loop after_draws].
  - exists []. rewrite app_nil_r. auto.
  - unfold sbind.
    destruct (generateRandomNumber_draws lb ub g Hlb Hub Hd (Hrand g))
      as [-> Hx].
    destruct (IH (i + 1) (result ++ [lb + Z.rem (fst (rand g)) (ub + 1 - lb)])
                (snd (rand g))) as (tail & -> & Hlen & Hall).
    exists (lb + Z.rem (fst (rand g)) (ub + 1 - lb) :: tail).
    rewrite <- app_assoc. cbn [app length].
    split; [reflexivity |]. split; [lia |].
    constructor; [lia | exact Hall].
Qed.

(** X15: with bounds in order ([lowerBound <= upperBound], both and their
    difference below [INT_MAX]) and a [rand] that gives no negative number,
    [generateRandomSequence] returns [size] followed by [size] numbers that
    all lie between the two bounds, both included, and has called [rand]
    once for each of them. *)
Theorem generateRandomSequence_within_bounds (c : config) (size : Z) (g : rng) :
  rand_non_negative ->
  int_range (_lowerBound c) ->
  _lowerBound c <= _upperBound c < INT_MAX ->
  _upperBound c - _lowerBound c < INT_MAX ->
  exists tail,
    generateRandomSequence c size g
    = (Ret (size :: tail), after_draws (Z.to_nat size) g) /\
    length tail = Z.to_nat size /\
    Forall (fun x => _lowerBound c <= x <= _upperBound c) tail.
Proof.
  intros Hrand Hlb Hub Hd. unfold generateRandomSequence, trips.
  rewrite Z.sub_0_r.
  apply (random_loop (_lowerBound c) (_upperBound c) (Z.to_nat size) 0 [size] g);
    assumption.
Qed.

Lemma generate_extends (c : config) (g g' : rng) (sequence : list Z) :
  generate c g = (Ret sequence, g') ->
  exists tail,
    sequence = _sequenceSize c :: tail /\
    length tail = Z.to_nat (_sequenceSize c).
Proof.
  unfold generate, generateRandomSequence, generateSameSequence,
    generateSortedSequence, generateReverseSortedSequence, trips.
  rewrite Z.sub_0_r. intros H.
  destruct (String.eqb (_sequenceType c) "RANDOM");
    [apply push_back_loop_extends in H; exact H |].
  destruct (String.eqb (_sequenceType c) "SAME").
  { unfold sbind in H.
    destruct (generateRandomNumber _ _ true true g) as [[x | what | |] g1];
      try discriminate.
    apply push_back_loop_extends in H. exact H. }
  destruct (String.eqb (_sequenceType c) "SORTED");
    [apply push_back_loop_extends in H; exact H |].
  destruct (String.eqb (_sequenceType c) "REVERSESORTED");
    [apply push_back_loop_extends in H; exact H |].
  discriminate.
Qed.

(** X16: whatever the policy, a sequence that [generate] returns is the
    configured size followed by as many elements as the size says: the size
    itself is the first element handed to the strategy. *)
Theorem generated_sequence_is_headed_by_its_size (c : config) (g g' : rng)
  (sequence : list Z) :
  generate c g = (Ret sequence, g') ->
  exists tail,
    sequence = _sequenceSize c :: tail /\
    length tail = Z.to_nat (_sequenceSize c).
Proof. apply generate_extends. Qed.

End Generators.

Lemma generateRandomNumber_cases_witness :
  int_range (1 + (if true then 0 else 1)) /\
  int_range (6 + (if true then 1 else 0)) /\
  (6 + (if true then 1 else 0) < 1 + (if true then 0 else 1) ->
   generateRandomNumber 1 6 true true (srand 42)
   = (Throw "cannot generate random number", srand 42)) /\
  (6 + (if true then 1 else 0) = 1 + (if true then 0 else 1) ->
   generateRandomNumber 1 6 true true (srand 42)
   = (Undefined, snd (rand (srand 42)))) /\
  (1 + (if true then 0 else 1) < 6 + (if true then 1 else 0) ->
   0 <= fst (rand (srand 42)) ->
   generateRandomNumber 1 6 true true (srand 42)
   = (Ret (wrap (1 + (if true then 0 else 1)
                 + Z.rem (fst (rand (srand 42)))
                     (wrap (6 + (if true then 1 else 0)
                            - (1 + (if true then 0 else 1)))))),
      snd (rand (srand 42))) /\
   (6 + (if true then 1 else 0) - (1 + (if true then 0 else 1)) <= INT_MAX ->
    wrap (1 + (if true then 0 else 1)
          + Z.rem (fst (rand (srand 42)))
              (wrap (6 + (if true then 1 else 0)
                     - (1 + (if true then 0 else 1)))))
    = 1 + (if true then 0 else 1)
      + Z.rem (fst (rand (srand 42)))
          (6 + (if true then 1 else 0) - (1 + (if true then 0 else 1))) /\
    1 + (if true then 0 else 1)
    <= 1 + (if true then 0 else 1)
       + Z.rem (fst (rand (srand 42)))
           (6 + (if true then 1 else 0) - (1 + (if true then 0 else 1)))
    < 6 + (if true then 1 else 0))).
Proof.
  assert (Hlo : int_range (1 + (if true then 0 else 1)))
    by (unfold int_range, INT_MIN, INT_MAX; simpl; lia).
  assert (Hhi : int_range (6 + (if true then 1 else 0)))
    by (unfold int_range, INT_MIN, INT_MAX; simpl; lia).
  split; [exact Hlo |]. split; [exact Hhi |].
  apply (generateRandomNumber_cases 1 6 true true (srand 42) Hlo Hhi).
Defined.

Lemma generateSortedSequence_in_order_iff_witness :
  0 < 4 /\
  int_range (_lowerBound ascending_bubble) /\
  _lowerBound ascending_bubble + 4 - 1 <= INT_MAX /\
  exists sequence,
    generateSortedSequence ascending_bubble 4 (srand 7) = (Ret sequence, srand 7) /\
    (non_decreasing sequence <-> 4 <= _lowerBound ascending_bubble).
Proof.
  assert (Hsize : 0 < 4) by lia.
  assert (Hlb : int_range (_lowerBound ascending_bubble))
    by (unfold int_range, INT_MIN, INT_MAX; simpl; lia).
  assert (Hub : _lowerBound ascending_bubble + 4 - 1 <= INT_MAX)
    by (unfold INT_MAX; simpl; lia).
  split; [exact Hsize |]. split; [exact Hlb |]. split; [exact Hub |].
  apply (generateSortedSequence_in_order_iff ascending_bubble 4 (srand 7)
           Hsize Hlb Hub).
Defined.

Lemma generateRandomSequence_within_bounds_witness :
  rand_non_negative /\
  int_range (_lowerBound random_bubble) /\
  _lowerBound random_bubble <= _upperBound random_bubble < INT_MAX /\
  _upperBound random_bubble - _lowerBound random_bubble < INT_MAX /\
  exists tail,
    generateRandomSequence random_bubble 5 (srand 42)
    = (Ret (5 :: tail), after_draws (Z.to_nat 5) (srand 42)) /\
    length tail = Z.to_nat 5 /\
    Forall (fun x => _lowerBound random_bubble <= x <= _upperBound random_bubble)
      tail.
Proof.
  assert (Hlb : int_range (_lowerBound random_bubble))
    by (unfold int_range, INT_MIN, INT_MAX; simpl; lia).
  assert (Hub : _lowerBound random_bubble <= _upperBound random_bubble < INT_MAX)
    by (unfold INT_MAX; simpl; lia).
  assert (Hd : _upperBound random_bubble - _lowerBound random_bubble < INT_MAX)
    by (unfold INT_MAX; simpl; lia).
  split; [exact reference_rand_non_negative |].
  split; [exact Hlb |]. split; [exact Hub |]. split; [exact Hd |].
  apply (generateRandomSequence_within_bounds random_bubble 5 (srand 42)
           reference_rand_non_negative Hlb Hub Hd).
Defined.

Lemma generated_sequence_is_headed_by_its_size_witness :
  generate descending_merge (srand 7) = (Ret [3; 10; 9; 8], srand 7) /\
  exists tail,
    [3; 10; 9; 8] = _sequenceSize descending_merge :: tail /\
    length tail = Z.to_nat (_sequenceSize descending_merge).
Proof.
  assert (H : generate descending_merge (srand 7) = (Ret [3; 10; 9; 8], srand 7))
    by (vm_compute; reflexivity).
  split; [exact H |].
  apply (generated_sequence_is_headed_by_its_size descending_merge
           (srand 7) (srand 7) [3; 10; 9; 8] H).
Defined.

(** ** main *)

Section Main.

Context {P : Platform}.

(** The process once [srand] was called. *)
Lemma select_algorithm_unknown (c : config) :
  _algorithm c <> "BUBBLESORT"%string ->
  _algorithm c <> "MERGESORT"%string ->
  _algorithm c <> "COUNTSORT"%string ->
  _algorithm c <> "RADIXSORT"%string ->
  select_algorithm c = Throw "invalid algorithm!".
Proof.
  intros H1 H2 H3 H4. unfold select_algorithm.
  apply String.eqb_neq in H1, H2, H3, H4.
  rewrite H1, H2, H3, H4. reflexivity.
Qed.

(** X17: an algorithm that is none of the four names, compared letter by
    letter, stops [main] with "invalid algorithm!" after the generator was
    seeded and before anything else: no file is opened, nothing is written,
    the clock is not read. *)
Theorem main_rejects_unknown_algorithm (fuel : nat) (env : environment)
  (c : config) :
  _algorithm c <> "BUBBLESORT"%string ->
  _algorithm c <> "MERGESORT"%string ->
  _algorithm c <> "COUNTSORT"%string ->
  _algorithm c <> "RADIXSORT"%string ->
  main fuel env c start
  = (Throw "invalid algorithm!",
     {| generator := srand (_seed c mod 4294967296); readings := 0;
        csv := None; written := []; closed := false; observed := [] |}).
Proof.
  intros H1 H2 H3 H4.
  unfold main, sbind, srand_call, with_generator, lift. cbn.
  rewrite (select_algorithm_unknown c H1 H2 H3 H4). reflexivity.
Qed.

(** X18: when the result file does not open, [main] stops with
    "can't open file" once the algorithm was accepted: nothing is generated,
    sorted or written. *)
Theorem main_stops_when_the_file_does_not_open (fuel : nat)
  (env : environment) (c : config) (alg : ISortAlgorithm) :
  select_algorithm c = Ret alg ->
  fopen_succeeds env = false ->
  main fuel env c start
  = (Throw "can't open file",
     {| generator := srand (_seed c mod 4294967296); readings := 0;
        csv := None; written := []; closed := false; observed := [] |}).
Proof.
  intros Halg Hopen.
  unfold main, sbind, srand_call, with_generator, lift, fopen. cbn.
  rewrite Halg, Hopen. reflexivity.
Qed.

Lemma generate_unknown (c : config) (g : rng) :
  _sequenceType c <> "RANDOM"%string ->
  _sequenceType c <> "SAME"%string ->
  _sequenceType c <> "SORTED"%string ->
  _sequenceType c <> "REVERSESORTED"%string ->
  generate c g = (Throw "invalid type!", g).
Proof.
  intros H1 H2 H3 H4. unfold generate.
  apply String.eqb_neq in H1, H2, H3, H4.
  rewrite H1, H2, H3, H4. reflexivity.
Qed.

(** X19: the policy is looked at inside the loop over the runs only. With a
    known algorithm, a file that opens and a policy that is none of the four
    names, [main] has already written the header when the first run stops it
    with "invalid type!", and the file is left open; when no run is asked
    for, the policy is never looked at and [main] returns with the header
    written and the file closed. *)
Theorem main_checks_the_policy_in_the_first_run (fuel : nat)
  (env : environment) (c : config) (alg : ISortAlgorithm) :
  select_algorithm c = Ret alg ->
  fopen_succeeds env = true ->
  _sequenceType c <> "RANDOM"%string ->
  _sequenceType c <> "SAME"%string ->
  _sequenceType c <> "SORTED"%string ->
  _sequenceType c <> "REVERSESORTED"%string ->
  main fuel env c start
  = (if 0 <? _runs c then Throw "invalid type!" else Ret tt,
     {| generator := srand (_seed c mod 4294967296); readings := 0;
        csv := Some (csvFileName c); written := [header];
        closed := negb (0 <? _runs c); observed := [] |}).
Proof.
  intros Halg Hopen H1 H2 H3 H4.
  unfold main, sbind, srand_call, with_generator, lift, fopen, fprintf. cbn.
  rewrite Halg, Hopen. unfold trips. rewrite Z.sub_0_r.
  destruct (Z.ltb_spec 0 (_runs c)) as [Hruns | Hruns].
  - destruct (Z.to_nat (_runs c)) as [| n] eqn:Hn; [lia |].
    cbn [for_runs]. unfold sbind at 1.
    rewrite run_body_cases. cbn [generator].
    rewrite (generate_unknown c _ H1 H2 H3 H4). reflexivity.
  - replace (Z.to_nat (_runs c)) with 0%nat by lia. reflexivity.
Qed.

(** What a run can throw. *)
Lemma run_body_throws (fuel : nat) (env : environment) (c : config)
  (alg : ISortAlgorithm) (run : Z) (p : process) (what : string) :
  fst (run_body fuel env c alg run p) = Throw what ->
  what = "cannot generate random number"%string \/ what = "invalid type!"%string.
Proof.
  rewrite run_body_cases.
  destruct (generate c (generator p)) as [[sequence | w | |] g'] eqn:Hg;
    try (cbn; discriminate).
  - destruct (sort fuel alg sequence) as [output | w | |] eqn:Hs;
      try (cbn; discriminate).
    exfalso. exact (no_throw_sort _ _ _ _ Hs).
  - apply generate_throws in Hg. cbn. intros H. injection H as <-. exact Hg.
Qed.

Lemma for_runs_throws (fuel : nat) (env : environment) (c : config)
  (alg : ISortAlgorithm) (n : nat) (run : Z) (p : process) (what : string) :
  fst (for_runs n run (run_body fuel env c alg) p) = Throw what ->
  what = "cannot generate random number"%string \/ what = "invalid type!"%string.
Proof.
  revert run p.
  induction n as [| n IH]; intros run p; cbn [for_runs].
  - cbn. discriminate.
  - unfold sbind.
    pose proof (run_body_throws fuel env c alg run p what) as Hb.
    destruct (run_body fuel env c alg run p) as [[[] | w | |] p1];
      try (cbn; discriminate).
    + apply IH.
    + exact Hb.
Qed.

(** X20: [main] has four ways to end in an exception and no other: the
    algorithm is unknown, the file does not open, the policy is unknown, or
    the bounds of the random numbers are out of order. No strategy throws,
    and no sort is ever found to have failed. *)
Theorem main_throws_one_of_four_errors (fuel : nat) (env : environment)
  (c : config) (what : string) :
  fst (main fuel env c start) = Throw what ->
  what = "invalid algorithm!"%string \/
  what = "can't open file"%string \/
  what = "invalid type!"%string \/
  what = "cannot generate random number"%string.
Proof.
  unfold main, sbind, srand_call, with_generator, lift, fopen, fprintf.
  cbn.
  destruct (select_algorithm c) as [alg | w | |] eqn:Halg; try (cbn; discriminate).
  - destruct (fopen_succeeds env);
      [| cbn; intros H; injection H as <-; auto].
    match goal with
    | |- context [for_runs ?n ?r ?body ?q] =>
        pose proof (for_runs_throws fuel env c alg n r q what) as Hl;
        destruct (for_runs n r body q) as [[[] | w | |] p1]
    end; try (cbn; discriminate).
    intros H. destruct (Hl H); auto.
  - unfold select_algorithm in Halg.
    repeat match type of Halg with
           | (if ?b then _ else _) = _ => destruct b; try discriminate
           end.
    injection Halg as <-. cbn. intros H. injection H as <-. auto.
Qed.

(** The rows written by the runs from [k] on: some first runs return, and
    the loop goes through when they all do. *)
Lemma for_runs_prefix (fuel : nat) (env : environment) (c : config)
  (alg : ISortAlgorithm) (n k : nat) (p : process) :
  readings p = (2 * k)%nat ->
  exists j : nat,
    (j <= n)%nat /\
    written (snd (for_runs n (Z.of_nat k) (run_body fuel env c alg) p))
    = written p ++ rows env k j /\
    closed (snd (for_runs n (Z.of_nat k) (run_body fuel env c alg) p))
    = closed p /\
    (fst (for_runs n (Z.of_nat k) (run_body fuel env c alg) p) = Ret tt ->
     j = n).
Proof.
  revert k p.
  induction n as [| n IH]; intros k p Hr; cbn [for_runs].
  - exists 0%nat. cbn. rewrite app_nil_r. auto.
  - unfold sbind. rewrite run_body_cases, Hr.
    destruct (generate c (generator p)) as [[sequence | w | |] g'].
    1: destruct (sort fuel alg sequence) as [output | w | |].
    1: { match goal with
         | |- context [for_runs n _ _ ?q] =>
             destruct (IH (S k) q) as (j & Hj & Hw & Hc & Hret);
               [cbn; lia |]
         end.
         replace (Z.of_nat k + 1) with (Z.of_nat (S k)) by lia.
         exists (S j). split; [lia |].
         rewrite Hw, Hc. cbn [written closed].
         split; [| split; [reflexivity |]].
         - rewrite <- app_assoc. reflexivity.
         - intros H. f_equal. apply Hret, H. }
    all: exists 0%nat; cbn; rewrite app_nil_r;
      (split; [lia | split; [reflexivity | split; [reflexivity | discriminate]]]).
Qed.

(** X21: whatever the configuration and however [main] ends, the result file
    holds nothing (it did not open, or the algorithm was refused), or the
    header followed by the rows of the runs 0, 1, ... up to some run, without
    a gap; it holds the rows of all the runs when [main] returns, and it is
    closed exactly when [main] returns. *)
Theorem main_writes_the_rows_in_order (fuel : nat) (env : environment)
  (c : config) :
  exists j : nat,
    (j <= Z.to_nat (_runs c))%nat /\
    (written (snd (main fuel env c start)) = [] \/
     written (snd (main fuel env c start)) = header :: rows env 0 j) /\
    (fst (main fuel env c start) = Ret tt ->
     written (snd (main fuel env c start))
     = header :: rows env 0 (Z.to_nat (_runs c))) /\
    (closed (snd (main fuel env c start)) = true <->
     fst (main fuel env c start) = Ret tt).
Proof.
  unfold main, sbind, srand_call, with_generator, lift, fopen, fprintf.
  cbn.
  destruct (select_algorithm c) as [alg | w | |];
    try (exists 0%nat; cbn; repeat split; auto with lia; discriminate).
  destruct (fopen_succeeds env);
    [| exists 0%nat; cbn; repeat split; auto with lia; discriminate].
  unfold trips. rewrite Z.sub_0_r.
  match goal with
  | |- context [for_runs ?n 0 ?body ?q] =>
      destruct (for_runs_prefix fuel env c alg n 0 q eq_refl)
        as (j & Hj & Hw & Hc & Hret);
      change (Z.of_nat 0) with 0 in Hw, Hc, Hret;
      destruct (for_runs n 0 body q) as [[[] | w | |] p1]
  end; unfold fclose; cbn [fst snd written closed] in *; exists j;
    (split; [exact Hj |]); rewrite Hw; cbn [app].
  - rewrite (Hret eq_refl). repeat split; auto.
  - rewrite Hc. repeat split; auto; discriminate.
  - rewrite Hc. repeat split; auto; discriminate.
  - rewrite Hc. repeat split; auto; discriminate.
Qed.

End Main.

Section MainOnStrategies.

Context {P : Platform}.

(** [CountSort::sort] has no loop that needs fuel. *)
Lemma bind_fuelled {A B : Type} (c : outcome A) (k : A -> outcome B) :
  c <> OutOfFuel -> (forall a, k a <> OutOfFuel) -> bind c k <> OutOfFuel.
Proof. destruct c; cbn; auto; discriminate. Qed.

Lemma for_up_fuelled {St : Type} (n : nat) (i : Z)
  (body : Z -> St -> outcome St) (s : St) :
  (forall j t, body j t <> OutOfFuel) -> for_up n i body s <> OutOfFuel.
Proof.
  intros Hbody. revert i s.
  induction n as [| n IH]; intros i s; cbn [for_up].
  - discriminate.
  - apply bind_fuelled; [apply Hbody | intros a; apply IH].
Qed.

Lemma load_fuelled (v : list Z) (i : Z) : load v i <> OutOfFuel.
Proof.
  unfold load. destruct (i <? 0); [discriminate |].
  destruct (v !! Z.to_nat i); discriminate.
Qed.

Lemma store_fuelled (v : list Z) (i x : Z) : store v i x <> OutOfFuel.
Proof.
  unfold store.
  destruct ((0 <=? i) && (i <? Z.of_nat (length v))); discriminate.
Qed.

Lemma aload_fuelled (a : array) (i : Z) : aload a i <> OutOfFuel.
Proof.
  unfold aload. destruct (i <? 0); [discriminate |].
  destruct (a !! Z.to_nat i) as [[x |] |]; discriminate.
Qed.

Lemma astore_fuelled (a : array) (i x : Z) : astore a i x <> OutOfFuel.
Proof.
  unfold astore.
  destruct ((0 <=? i) && (i <? Z.of_nat (length a))); discriminate.
Qed.

Lemma CountSort_sort_fuelled (max : Z) (sequence : list Z) :
  CountSort_sort max sequence <> OutOfFuel.
Proof.
  unfold CountSort_sort, new_array, zeroed_array.
  repeat first
    [ apply bind_fuelled; [| intros ?]
    | apply for_up_fuelled; intros ? ?
    | apply load_fuelled | apply store_fuelled
    | apply aload_fuelled | apply astore_fuelled
    | match goal with
      | |- (if ?b then _ else _) <> _ => destruct b
      | |- (let '(_, _) := ?p in _) <> _ => destruct p
      end
    | discriminate ].
Qed.

(** X22: under COUNTSORT the table of [CountSort] has counters for 0 to the
    upper bound only, and the size heads every generated sequence: with a
    size that is negative or above the upper bound, a file that opens,
    sequences that can be generated (SORTED, REVERSESORTED, or RANDOM and
    SAME with [lowerBound <= upperBound < INT_MAX] and their difference below
    [INT_MAX]) and at least one run, the first sort indexes the table outside
    its bounds, and the program has no defined behaviour from there on. *)
Theorem COUNTSORT_is_undefined_for_a_size_out_of_range (fuel : nat)
  (env : environment) (c : config) :
  _algorithm c = "COUNTSORT"%string ->
  int_range (_upperBound c) ->
  0 < _runs c ->
  _sequenceSize c < 0 \/ _upperBound c < _sequenceSize c ->
  _sequenceType c = "SORTED"%string \/
  _sequenceType c = "REVERSESORTED"%string \/
  ((_sequenceType c = "RANDOM"%string \/ _sequenceType c = "SAME"%string) /\
   int_range (_lowerBound c) /\
   _lowerBound c <= _upperBound c < INT_MAX /\
   _upperBound c - _lowerBound c < INT_MAX) ->
  fopen_succeeds env = true ->
  fst (main fuel env c start) = Undefined.
Proof.
  intros Halg Hub Hruns Hsize Hpolicy Hopen.
  assert (Hsel : select_algorithm c = Ret (CountSort (_upperBound c))).
  { unfold select_algorithm. rewrite Halg. reflexivity. }
  unfold main, sbind, srand_call, with_generator, lift, fopen, fprintf. cbn.
  rewrite Hsel, Hopen. unfold trips. rewrite Z.sub_0_r.
  destruct (Z.to_nat (_runs c)) as [| n] eqn:Hn; [lia |].
  cbn [for_runs]. unfold sbind. rewrite run_body_cases. cbn [generator].
  unfold failed_as.
  destruct (generation_returns_when c Hpolicy (srand (_seed c mod 4294967296)))
    as (sequence & g' & Hg).
  rewrite Hg.
  destruct (sort fuel (CountSort (_upperBound c)) sequence)
    as [output | w | |] eqn:Hs.
  - exfalso. cbn [sort] in Hs.
    apply CountSort_sort_returns_only_in_range in Hs; [| exact Hub].
    apply generate_extends in Hg. destruct Hg as (tail & -> & _).
    inversion Hs; subst. lia.
  - exfalso. exact (no_throw_sort _ _ _ _ Hs).
  - reflexivity.
  - exfalso. exact (CountSort_sort_fuelled _ _ Hs).
Qed.


(** The sequences of RANDOM and SAME under bounds in order. *)
Lemma drawn_sequences_within_bounds (c : config) (g g' : rng)
  (sequence : list Z) :
  rand_non_negative ->
  _sequenceType c = "RANDOM"%string \/ _sequenceType c = "SAME"%string ->
  int_range (_lowerBound c) ->
  _lowerBound c <= _upperBound c < INT_MAX ->
  _upperBound c - _lowerBound c < INT_MAX ->
  generate c g = (Ret sequence, g') ->
  exists tail,
    sequence = _sequenceSize c :: tail /\
    Forall (fun x => _lowerBound c <= x <= _upperBound c) tail.
Proof.
  intros Hrand Hpolicy Hlb Hub Hd. unfold generate.
  destruct Hpolicy as [-> | ->]; cbn [String.eqb Ascii.eqb Bool.eqb].
  - unfold generateRandomSequence.
    destruct (random_loop (_lowerBound c) (_upperBound c)
                (trips 0 (_sequenceSize c)) 0 [_sequenceSize c] g
                Hrand Hlb Hub Hd) as (tail & -> & _ & Hall).
    intros H. injection H as <- _. exists tail. auto.
  - rewrite generateSameSequence_value.
    destruct (generateRandomNumber_draws (_lowerBound c) (_upperBound c) g
                Hlb Hub Hd (Hrand g)) as [-> Hx].
    intros H. injection H as <- _. eexists. split; [reflexivity |].
    apply Forall_forall. intros y Hy.
    apply elem_of_replicate in Hy. destruct Hy as [-> _]. exact Hx.
Qed.

(** X24: under COUNTSORT and RADIXSORT, with the policy RANDOM or SAME, a
    file that opens and a [rand] that gives no negative number, every run is
    completed when the bounds are in order from 0 on and below 10^9, and the
    size, which heads every sequence, lies between 0 and the upper bound:
    [main] returns with the header and one row for each run (the loop of
    [RadixSort] being given thirteen rounds). *)
Theorem counting_sorts_finish_every_drawn_run (fuel : nat) (env : environment)
  (c : config) :
  rand_non_negative ->
  _algorithm c = "COUNTSORT"%string \/ _algorithm c = "RADIXSORT"%string ->
  _sequenceType c = "RANDOM"%string \/ _sequenceType c = "SAME"%string ->
  0 <= _lowerBound c <= _upperBound c ->
  _upperBound c < 1000000000 ->
  0 <= _sequenceSize c <= _upperBound c ->
  (13 <= fuel)%nat ->
  fopen_succeeds env = true ->
  exists p,
    main fuel env c start = (Ret tt, p) /\
    written p = header :: rows env 0 (Z.to_nat (_runs c)) /\
    csv p = Some (csvFileName c) /\
    closed p = true.
Proof.
  intros Hrand Halg Hpolicy Hlb Hub Hsize Hfuel Hopen.
  assert (Hlb' : int_range (_lowerBound c))
    by (unfold int_range, INT_MIN, INT_MAX; lia).
  assert (Hub' : _lowerBound c <= _upperBound c < INT_MAX)
    by (unfold INT_MAX; lia).
  assert (Hd : _upperBound c - _lowerBound c < INT_MAX)
    by (unfold INT_MAX; lia).
  assert (Hsel : exists alg,
             select_algorithm c = Ret alg /\
             (alg = CountSort (_upperBound c) \/ alg = RadixSort)).
  { unfold select_algorithm. destruct Halg as [-> | ->]; eexists; cbn; eauto. }
  destruct Hsel as (alg & Hsel & Hcount).
  apply (main_completes fuel env c alg Hsel Hopen).
  - apply generation_returns_when. right. right. auto.
  - intros g sequence g' Hg.
    destruct (drawn_sequences_within_bounds c g g' sequence
                Hrand Hpolicy Hlb' Hub' Hd Hg) as (tail & -> & Hall).
    destruct Hcount as [-> | ->]; cbn [sort].
    + apply CountSort_sort_returns; [unfold INT_MAX; lia |].
      constructor; [lia |].
      eapply Forall_impl; [exact Hall |]. cbn. intros x Hx. lia.
    + destruct (RadixSort_sort_correct fuel (_sequenceSize c :: tail))
        as (output & Hs & _); [discriminate | exact Hfuel | | eauto].
      constructor; [unfold INT_MAX; lia |].
      eapply Forall_impl; [exact Hall |]. cbn. unfold INT_MAX.
      intros x Hx. lia.
Qed.

End MainOnStrategies.

Section GeneratorAcrossRuns.

Context {P : Platform}.





End GeneratorAcrossRuns.

(** ** The further properties on the reference platform *)

Lemma main_rejects_unknown_algorithm_witness :
  _algorithm unknown_algorithm <> "BUBBLESORT"%string /\
  _algorithm unknown_algorithm <> "MERGESORT"%string /\
  _algorithm unknown_algorithm <> "COUNTSORT"%string /\
  _algorithm unknown_algorithm <> "RADIXSORT"%string /\
  main 0 steady_clock unknown_algorithm start
  = (Throw "invalid algorithm!",
     {| generator := srand (_seed unknown_algorithm mod 4294967296);
        readings := 0; csv := None; written := []; closed := false;
        observed := [] |}).
Proof.
  assert (H1 : _algorithm unknown_algorithm <> "BUBBLESORT"%string)
    by discriminate.
  assert (H2 : _algorithm unknown_algorithm <> "MERGESORT"%string)
    by discriminate.
  assert (H3 : _algorithm unknown_algorithm <> "COUNTSORT"%string)
    by discriminate.
  assert (H4 : _algorithm unknown_algorithm <> "RADIXSORT"%string)
    by discriminate.
  repeat (split; [assumption |]).
  apply (main_rejects_unknown_algorithm 0 steady_clock unknown_algorithm
           H1 H2 H3 H4).
Defined.

Lemma main_stops_when_the_file_does_not_open_witness :
  select_algorithm ascending_bubble = Ret BubbleSort /\
  fopen_succeeds no_file = false /\
  main 0 no_file ascending_bubble start
  = (Throw "can't open file",
     {| generator := srand (_seed ascending_bubble mod 4294967296);
        readings := 0; csv := None; written := []; closed := false;
        observed := [] |}).
Proof.
  split; [reflexivity |]. split; [reflexivity |].
  apply (main_stops_when_the_file_does_not_open 0 no_file ascending_bubble
           BubbleSort eq_refl eq_refl).
Defined.

Lemma main_checks_the_policy_in_the_first_run_witness :
  select_algorithm unknown_policy = Ret BubbleSort /\
  fopen_succeeds steady_clock = true /\
  _sequenceType unknown_policy <> "RANDOM"%string /\
  _sequenceType unknown_policy <> "SAME"%string /\
  _sequenceType unknown_policy <> "SORTED"%string /\
  _sequenceType unknown_policy <> "REVERSESORTED"%string /\
  main 0 steady_clock unknown_policy start
  = (if 0 <? _runs unknown_policy then Throw "invalid type!" else Ret tt,
     {| generator := srand (_seed unknown_policy mod 4294967296);
        readings := 0; csv := Some (csvFileName unknown_policy);
        written := [header]; closed := negb (0 <? _runs unknown_policy);
        observed := [] |}).
Proof.
  assert (H1 : _sequenceType unknown_policy <> "RANDOM"%string)
    by discriminate.
  assert (H2 : _sequenceType unknown_policy <> "SAME"%string)
    by discriminate.
  assert (H3 : _sequenceType unknown_policy <> "SORTED"%string)
    by discriminate.
  assert (H4 : _sequenceType unknown_policy <> "REVERSESORTED"%string)
    by discriminate.
  split; [reflexivity |]. split; [reflexivity |].
  repeat (split; [assumption |]).
  apply (main_checks_the_policy_in_the_first_run 0 steady_clock unknown_policy
           BubbleSort eq_refl eq_refl H1 H2 H3 H4).
Defined.

Lemma main_throws_one_of_four_errors_witness :
  fst (main 0 steady_clock inverted_bounds start)
  = Throw "cannot generate random number" /\
  ("cannot generate random number"%string = "invalid algorithm!"%string \/
   "cannot generate random number"%string = "can't open file"%string \/
   "cannot generate random number"%string = "invalid type!"%string \/
   "cannot generate random number"%string
   = "cannot generate random number"%string).
Proof.
  assert (H : fst (main 0 steady_clock inverted_bounds start)
              = Throw "cannot generate random number")
    by (vm_compute; reflexivity).
  split; [exact H |].
  apply (main_throws_one_of_four_errors 0 steady_clock inverted_bounds
           "cannot generate random number" H).
Defined.

Lemma COUNTSORT_is_undefined_for_a_size_out_of_range_witness :
  _algorithm random_count = "COUNTSORT"%string /\
  int_range (_upperBound random_count) /\
  0 < _runs random_count /\
  (_sequenceSize random_count < 0 \/
   _upperBound random_count < _sequenceSize random_count) /\
  (_sequenceType random_count = "SORTED"%string \/
   _sequenceType random_count = "REVERSESORTED"%string \/
   ((_sequenceType random_count = "RANDOM"%string \/
     _sequenceType random_count = "SAME"%string) /\
    int_range (_lowerBound random_count) /\
    _lowerBound random_count <= _upperBound random_count < INT_MAX /\
    _upperBound random_count - _lowerBound random_count < INT_MAX)) /\
  fopen_succeeds steady_clock = true /\
  fst (main 0 steady_clock random_count start) = Undefined.
Proof.
  assert (Hub : int_range (_upperBound random_count))
    by (unfold int_range, INT_MIN, INT_MAX; simpl; lia).
  assert (Hruns : 0 < _runs random_count) by (simpl; lia).
  assert (Hsize : _sequenceSize random_count < 0 \/
                  _upperBound random_count < _sequenceSize random_count)
    by (right; simpl; lia).
  assert (Hpolicy :
            _sequenceType random_count = "SORTED"%string \/
            _sequenceType random_count = "REVERSESORTED"%string \/
            ((_sequenceType random_count = "RANDOM"%string \/
              _sequenceType random_count = "SAME"%string) /\
             int_range (_lowerBound random_count) /\
             _lowerBound random_count <= _upperBound random_count < INT_MAX /\
             _upperBound random_count - _lowerBound random_count < INT_MAX)).
  { right. right. split; [left; reflexivity |].
    unfold int_range, INT_MIN, INT_MAX. simpl. lia. }
  split; [reflexivity |]. split; [exact Hub |]. split; [exact Hruns |].
  split; [exact Hsize |]. split; [exact Hpolicy |]. split; [reflexivity |].
  apply (COUNTSORT_is_undefined_for_a_size_out_of_range 0 steady_clock
           random_count eq_refl Hub Hruns Hsize Hpolicy eq_refl).
Defined.


Lemma counting_sorts_finish_every_drawn_run_witness :
  rand_non_negative /\
  (_algorithm random_radix = "COUNTSORT"%string \/
   _algorithm random_radix = "RADIXSORT"%string) /\
  (_sequenceType random_radix = "RANDOM"%string \/
   _sequenceType random_radix = "SAME"%string) /\
  0 <= _lowerBound random_radix <= _upperBound random_radix /\
  _upperBound random_radix < 1000000000 /\
  0 <= _sequenceSize random_radix <= _upperBound random_radix /\
  (13 <= 13)%nat /\
  fopen_succeeds steady_clock = true /\
  exists p,
    main 13 steady_clock random_radix start = (Ret tt, p) /\
    written p
    = header :: rows steady_clock 0 (Z.to_nat (_runs random_radix)) /\
    csv p = Some (csvFileName random_radix) /\
    closed p = true.
Proof.
  assert (Halg : _algorithm random_radix = "COUNTSORT"%string \/
                 _algorithm random_radix = "RADIXSORT"%string)
    by (right; reflexivity).
  assert (Hpolicy : _sequenceType random_radix = "RANDOM"%string \/
                    _sequenceType random_radix = "SAME"%string)
    by (left; reflexivity).
  assert (Hlb : 0 <= _lowerBound random_radix <= _upperBound random_radix)
    by (simpl; lia).
  assert (Hub : _upperBound random_radix < 1000000000) by (simpl; lia).
  assert (Hsize : 0 <= _sequenceSize random_radix <= _upperBound random_radix)
    by (simpl; lia).
  assert (Hfuel : (13 <= 13)%nat) by lia.
  split; [exact reference_rand_non_negative |].
  split; [exact Halg |]. split; [exact Hpolicy |]. split; [exact Hlb |].
  split; [exact Hub |]. split; [exact Hsize |]. split; [exact Hfuel |].
  split; [reflexivity |].
  apply (counting_sorts_finish_every_drawn_run 13 steady_clock random_radix
           reference_rand_non_negative Halg Hpolicy Hlb Hub Hsize Hfuel
           eq_refl).
Defined.

